(** * ISMCTS: a shallow embedding of [ISMCTS.py]

    Information-set Monte Carlo tree search with interval-valued estimates.
    Floats are idealised as rationals ([Q]); numpy arrays are lists; Python
    exceptions are an explicit error type; the shared random generator and
    the [Tree.next_id] counter are threaded through a small state monad. *)

From Stdlib Require Import ZArith QArith Qabs Qround List Bool Lia Lqa Sorted.
Import ListNotations.
Open Scope Q_scope.

(** ** Exceptions and the state-and-error monad *)

(** The Python exceptions that the engine can raise. *)
Inductive exn : Type :=
| TypeError | KeyError | IndexError | ValueError
| AssertionError | ZeroDivisionError | AttributeError.

(** A value, an exception, or a recursion bound that was too small. *)
Inductive result (A : Type) : Type :=
| Ok (a : A)
| Raise (e : exn)
| OutOfFuel.
Arguments Ok {A} a.
Arguments Raise {A} e.
Arguments OutOfFuel {A}.

Definition rbind {A B} (r : result A) (k : A -> result B) : result B :=
  match r with
  | Ok a => k a
  | Raise e => Raise e
  | OutOfFuel => OutOfFuel
  end.

Notation "x <- r ;; k" := (rbind r (fun x => k))
  (at level 61, r at next level, right associativity).
Notation "' p <- r ;; k" := (rbind r (fun x => let 'p := x in k))
  (at level 61, p pattern, r at next level, right associativity).

(** Process-wide mutable state: [Tree.next_id] and the number of samples
    already taken from the shared generator [np.random]. *)
Record World : Type := mkWorld { next_id : nat; draws : nat }.

Definition M (A : Type) : Type := World -> result (A * World).

Definition mret {A} (a : A) : M A := fun w => Ok (a, w).
Definition mbind {A B} (m : M A) (k : A -> M B) : M B :=
  fun w => match m w with
           | Ok (a, w') => k a w'
           | Raise e => Raise e
           | OutOfFuel => OutOfFuel
           end.
Definition lift {A} (r : result A) : M A :=
  fun w => match r with
           | Ok a => Ok (a, w)
           | Raise e => Raise e
           | OutOfFuel => OutOfFuel
           end.
Definition mraise {A} (e : exn) : M A := fun _ => Raise e.

Notation "x <~ m ;; k" := (mbind m (fun x => k))
  (at level 61, m at next level, right associativity).
Notation "' p <~ m ;; k" := (mbind m (fun x => let 'p := x in k))
  (at level 61, p pattern, m at next level, right associativity).

(** ** Intervals *)

Definition Interval : Type := (Q * Q)%type.

(** [IntervalLike]: a float or an interval (an array of two floats). *)
Inductive IntervalLike : Type :=
| Scalar (v : Q)
| Ival (i : Interval).

Definition to_interval (i : IntervalLike) : Interval :=
  match i with
  | Ival i => i
  | Scalar v => (v, v)
  end.

Definition ordered (i : Interval) : Prop := fst i <= snd i.

(** [interval + x] where [x] is a float or an interval (numpy broadcast). *)
Definition interval_add (i : Interval) (x : IntervalLike) : Interval :=
  let r := to_interval x in (fst i + fst r, snd i + snd r).

(** ** Python and numpy helpers *)

Module Constants.
Definition EPS : Q := 5 # 100.
Definition c_PUCT : Q := 1.
End Constants.

Definition CHEAT : bool := true.

Definition Qltb (x y : Q) : bool := negb (Qle_bool y x).

(** [l[i]] with Python's wrap-around of negative indices. *)
Definition py_index {A} (l : list A) (i : Z) : result A :=
  let n := Z.of_nat (length l) in
  let j := (if i <? 0 then i + n else i)%Z in
  if ((0 <=? j) && (j <? n))%Z
  then match nth_error l (Z.to_nat j) with
       | Some x => Ok x
       | None => Raise IndexError
       end
  else Raise IndexError.

(** An insertion-ordered [dict] with integer keys. *)
Definition dict (V : Type) : Type := list (Z * V).

Fixpoint dict_get {V} (d : dict V) (k : Z) : option V :=
  match d with
  | [] => None
  | (k', v) :: d' => if (k =? k')%Z then Some v else dict_get d' k
  end.

(** [d[k] = v]: an existing key keeps its position, a new key is appended. *)
Fixpoint dict_set {V} (d : dict V) (k : Z) (v : V) : dict V :=
  match d with
  | [] => [(k, v)]
  | (k', v') :: d' =>
      if (k =? k')%Z then (k, v) :: d' else (k', v') :: dict_set d' k v
  end.

Definition np_sum (l : list Q) : Q := fold_right Qplus 0 l.

Fixpoint zip_with {A B C} (f : A -> B -> C) (xs : list A) (ys : list B) : list C :=
  match xs, ys with
  | x :: xs', y :: ys' => f x y :: zip_with f xs' ys'
  | _, _ => []
  end.

(** Elementwise binary operation on one-dimensional arrays with numpy's
    broadcasting: equal lengths, or one side of length one. *)
Definition bcast2 {A B C} (f : A -> B -> C) (xs : list A) (ys : list B)
  : result (list C) :=
  if (length xs =? length ys)%nat then Ok (zip_with f xs ys)
  else match xs, ys with
       | [x], _ => Ok (map (f x) ys)
       | _, [y] => Ok (map (fun x => f x y) xs)
       | _, _ => Raise ValueError
       end.

(** In-place [xs op= ys]: the result must have the shape of [xs]. *)
Definition inplace2 {A B} (f : A -> B -> A) (xs : list A) (ys : list B)
  : result (list A) :=
  if (length xs =? length ys)%nat then Ok (zip_with f xs ys)
  else match ys with
       | [y] => Ok (map (fun x => f x y) xs)
       | _ => Raise ValueError
       end.

(** [arr[i] = v] on an array; out of range raises. *)
Fixpoint set_nth {A} (l : list A) (i : nat) (v : A) : result (list A) :=
  match l, i with
  | [], _ => Raise IndexError
  | _ :: l', O => Ok (v :: l')
  | x :: l', S i' => l'' <- set_nth l' i' v ;; Ok (x :: l'')
  end.

(** [np.argmax]: the first index of a maximal entry. *)
Fixpoint argmax_from (best : Q) (besti : nat) (i : nat) (l : list Q) : nat :=
  match l with
  | [] => besti
  | x :: l' => if Qltb best x then argmax_from x i (S i) l'
               else argmax_from best besti (S i) l'
  end.

Definition np_argmax (l : list Q) : result nat :=
  match l with
  | [] => Raise ValueError
  | x :: l' => Ok (argmax_from x 0%nat 1%nat l')
  end.

(** [np.where(cond)[0]]: the indices at which the condition holds. *)
Fixpoint where_from {A} (p : A -> bool) (i : nat) (l : list A) : list nat :=
  match l with
  | [] => []
  | x :: l' => if p x then i :: where_from p (S i) l' else where_from p (S i) l'
  end.

Definition np_where {A} (p : A -> bool) (l : list A) : list nat := where_from p 0%nat l.

Definition b2q (b : bool) : Q := if b then 1 else 0.

Fixpoint cumsum_from (acc : Q) (l : list Q) : list Q :=
  match l with
  | [] => []
  | x :: l' => (acc + x) :: cumsum_from (acc + x) l'
  end.

(** [cdf.searchsorted(u, side='right')] on a non-decreasing array. *)
Fixpoint searchsorted_right (cdf : list Q) (u : Q) : nat :=
  match cdf with
  | [] => 0%nat
  | c :: cs => if Qle_bool c u then S (searchsorted_right cs u) else 0%nat
  end.

(** [sqrt(finfo(float64).eps)], the tolerance of [np.random.choice]. *)
Definition choice_atol : Q := 1 # 67108864.

Section Random.
(** The stream of uniform samples in the unit interval produced by the
    shared generator. *)
Variable uniform : nat -> Q.

(** [np.random.choice(a, p=p)] for an integer [a]: validates [p], then
    inverts the normalised cumulative distribution at a uniform sample. *)
Definition np_random_choice (a : nat) (p : list Q) : M nat :=
  fun w =>
    if (a =? 0)%nat then Raise ValueError
    else if negb (length p =? a)%nat then Raise ValueError
    else if existsb (fun x => Qltb x 0) p then Raise ValueError
    else if Qltb choice_atol (Qabs (np_sum p - 1)) then Raise ValueError
    else
      let cdf := cumsum_from 0 p in
      let total := last cdf 0 in
      let cdf := map (fun c => c / total) cdf in
      Ok (searchsorted_right cdf (uniform (draws w)),
          mkWorld (next_id w) (S (draws w))).
End Random.

(** ** External collaborators: the information set and the model

    [info_set.py] and [model.py] are not part of the core.  The game outcome
    is a mapping from players to values; the hidden-state mask is an
    indicator vector; [cards] is the per-player private data that
    [create_spawned_tree] blanks out. *)

(** Players and actions are integers; an outcome maps players to values. *)
Definition Player : Type := Z.
Definition Action : Type := Z.
Definition Outcome : Type := dict Q.

(** Modelled from the spec: the operations of [info_set.InfoSet] that the
    engine calls (section 3 of the design); [cards] is only measured and
    blanked. *)
Record InfoSetOps (IS : Type) : Type := {
  get_current_player : IS -> Player;
  get_game_outcome : IS -> option Outcome;
  get_actions : IS -> list Action;
  apply : IS -> Action -> IS;
  has_hidden_info : IS -> bool;
  get_H_mask : IS -> list bool;
  instantiate_hidden_state : IS -> nat -> IS;
  clone : IS -> IS;
  cards_len : IS -> nat;               (* len(info_set.cards) *)
  clear_card : IS -> nat -> IS         (* info_set.cards[i] = None *)
}.
Arguments get_current_player {IS} _ _.
Arguments get_game_outcome {IS} _ _.
Arguments get_actions {IS} _ _.
Arguments apply {IS} _ _ _.
Arguments has_hidden_info {IS} _ _.
Arguments get_H_mask {IS} _ _.
Arguments instantiate_hidden_state {IS} _ _ _.
Arguments clone {IS} _ _.
Arguments cards_len {IS} _ _.
Arguments clear_card {IS} _ _ _.

(** Modelled from the spec: the two queries of [model.Model] (section 6 of
    the design). *)
Record Model (IS : Type) : Type := {
  action_eval : option Player -> IS -> list Q * Q * list Q;   (* P, V, Vc *)
  hidden_eval : option Player -> IS -> list Q * Q * list Q    (* H, V, Vc *)
}.
Arguments action_eval {IS} _ _ _.
Arguments hidden_eval {IS} _ _ _.

(** [game_outcome[tree_owner]]: the keys of the mapping are players, so the
    default owner [None] is not among them. *)
Definition outcome_lookup (o : Outcome) (owner : option Player) : result Q :=
  match owner with
  | None => Raise KeyError
  | Some p => match dict_get o p with
              | Some v => Ok v
              | None => Raise KeyError
              end
  end.

(** ** Nodes, edges and trees *)

Set Warnings "-register-all".

(** [Edge]: the insertion index and the child. *)
Record Edge_ (X : Type) : Type := mkEdge { index : nat; node : X }.
Arguments mkEdge {X} index node.
Arguments index {X} _.
Arguments node {X} _.

(** [Tree]: the root, the owner and the identifier.  Every tree of a search
    refers to the same model, which the engine below takes as a parameter. *)
Record Tree_ (X : Type) : Type := mkTree {
  root : X;
  tree_owner_of : Player;
  tree_id : nat
}.
Arguments mkTree {X} root tree_owner_of tree_id.
Arguments root {X} _.
Arguments tree_owner_of {X} _.
Arguments tree_id {X} _.

Section Nodes.
Context {IS : Type}.

(** The attributes set by [Node.__init__], apart from [children]. *)
Record Base : Type := mkBase {
  info_set : IS;
  cp : Player;
  game_outcome : option Outcome;
  node_Q : Interval;
  node_N : nat;
  tree_owner : option Player;
  residual_Q_to_V : IntervalLike
}.

(** The attributes added by [ActionNode.__init__]. *)
Record ActionData : Type := mkActionData {
  actions : list Action;
  a_P : option (list Q);
  a_V : option Q;
  a_Vc : option (list Q);
  a_expanded : bool
}.

(** The attributes added by [SamplingNode.__init__]. *)
Record SamplingData : Type := mkSamplingData {
  s_H : option (list Q);
  s_V : option Q;
  s_Vc : option (list Q);
  H_mask : list bool;
  s_expanded : bool
}.

(** The class of a node, with the attributes of that class; an
    [ActionNode] may own a spawned tree. *)
Inductive Kind_ (X : Type) : Type :=
| KAction (a : ActionData) (spawned_tree : option (Tree_ X))
| KSampling (s : SamplingData).

(** A node: the base attributes, the [children] dictionary (in insertion
    order) and the class. *)
Inductive Node : Type :=
| mkNode (b : Base) (children : dict (Edge_ Node)) (k : Kind_ Node).

Definition Edge : Type := Edge_ Node.
Definition Tree : Type := Tree_ Node.
Definition Kind : Type := Kind_ Node.

Definition base (n : Node) : Base := let 'mkNode b _ _ := n in b.
Definition children (n : Node) : dict Edge := let 'mkNode _ c _ := n in c.
Definition kind (n : Node) : Kind := let 'mkNode _ _ k := n in k.

Definition set_base (n : Node) (b : Base) : Node :=
  let 'mkNode _ c k := n in mkNode b c k.
Definition set_children (n : Node) (c : dict Edge) : Node :=
  let 'mkNode b _ k := n in mkNode b c k.
Definition set_kind (n : Node) (k : Kind) : Node :=
  let 'mkNode b c _ := n in mkNode b c k.

Definition with_Q (b : Base) (q : Interval) : Base :=
  mkBase (info_set b) (cp b) (game_outcome b) q (node_N b) (tree_owner b)
         (residual_Q_to_V b).
Definition with_N (b : Base) (n : nat) : Base :=
  mkBase (info_set b) (cp b) (game_outcome b) (node_Q b) n (tree_owner b)
         (residual_Q_to_V b).
Definition with_tree_owner (b : Base) (o : option Player) : Base :=
  mkBase (info_set b) (cp b) (game_outcome b) (node_Q b) (node_N b) o
         (residual_Q_to_V b).
Definition with_residual (b : Base) (r : IntervalLike) : Base :=
  mkBase (info_set b) (cp b) (game_outcome b) (node_Q b) (node_N b)
         (tree_owner b) r.

Definition Q_of (n : Node) : Interval := node_Q (base n).
Definition N_of (n : Node) : nat := node_N (base n).
Definition residual_of (n : Node) : IntervalLike := residual_Q_to_V (base n).

(** [node.V], for either class. *)
Definition V_of (n : Node) : option Q :=
  match kind n with
  | KAction _ a _ => a_V a
  | KSampling _ s => s_V s
  end.

Definition is_action (n : Node) : bool :=
  match kind n with KAction _ _ _ => true | KSampling _ _ => false end.

Definition spawned_tree_of (n : Node) : option Tree :=
  match kind n with
  | KAction _ _ t => t
  | KSampling _ _ => None
  end.

Definition expanded_of (n : Node) : bool :=
  match kind n with
  | KAction _ a _ => a_expanded a
  | KSampling _ s => s_expanded s
  end.

(** [Node.terminal] *)
Definition terminal (n : Node) : bool :=
  match game_outcome (base n) with Some _ => true | None => false end.

(** [Node.add_child] *)
Definition add_child (n : Node) (key : Z) (child : Node) : Node :=
  set_children n
    (dict_set (children n) key (mkEdge (length (children n)) child)).

(** [Node.get_Qc] and [Node.get_Vc] *)
Definition get_Qc (n : Node) : list Interval :=
  map (fun kv => Q_of (node (snd kv))) (children n).
Definition get_Vc (n : Node) : list (option Q) :=
  map (fun kv => V_of (node (snd kv))) (children n).
End Nodes.
Arguments Base : clear implicits.
Arguments Node : clear implicits.
Arguments Edge : clear implicits.
Arguments Tree : clear implicits.
Arguments Kind : clear implicits.
Arguments KAction {X} a spawned_tree.
Arguments KSampling {X} s.

(** Loops over a list, in the two monads. *)
Fixpoint foldM {A B} (f : B -> A -> result B) (l : list A) (b : B) : result B :=
  match l with
  | [] => Ok b
  | x :: l' => b' <- f b x ;; foldM f l' b'
  end.

Fixpoint mfoldM {A B} (f : B -> A -> M B) (l : list A) (b : B) : M B :=
  match l with
  | [] => mret b
  | x :: l' => b' <~ f b x ;; mfoldM f l' b'
  end.

(** A count as a float. *)
Definition nat2q (n : nat) : Q := inject_Z (Z.of_nat n).

(** ** The engine *)

Section Engine.
Context {IS : Type}.
Variable ops : InfoSetOps IS.
Variable model : Model IS.

(** The float square root used by the exploration bonus. *)
Variable np_sqrt : Q -> Q.

(** [utils.perturb_prob_simplex(Vc_intervals, probs, eps)]: the helper is
    defined outside this file; it yields the interval that bounds the
    mixture value under perturbations of the weights. *)
Variable perturb_prob_simplex : list Interval -> list Q -> Q -> Interval.

(** The samples of the shared random generator. *)
Variable uniform : nat -> Q.

Local Abbreviation Node := (Node IS).
Local Abbreviation Tree := (Tree IS).
Local Abbreviation Base := (Base IS).

(** [Node.__init__] (the [children] dictionary starts empty). *)
Definition Node_init (s : IS) (owner : option Player) (q : IntervalLike) : Base :=
  mkBase s (get_current_player ops s) (get_game_outcome ops s)
         (to_interval q) 0%nat owner (Scalar 0).

(** [ActionNode.__init__] *)
Definition ActionNode_init (s : IS) (owner : option Player) (initQ : IntervalLike)
  : result Node :=
  let b := Node_init s owner initQ in
  let acts := get_actions ops s in
  match game_outcome b with
  | Some o =>
      v <- outcome_lookup o (tree_owner b) ;;
      Ok (mkNode (with_Q b (to_interval (Scalar v))) []
                 (KAction (mkActionData acts None (Some v) None false) None))
  | None =>
      Ok (mkNode b [] (KAction (mkActionData acts None None None false) None))
  end.

(** [SamplingNode.__init__] *)
Definition SamplingNode_init (s : IS) (owner : option Player) (initQ : IntervalLike)
  : result Node :=
  let b := Node_init s owner initQ in
  let mask := get_H_mask ops s in
  if existsb (fun m => m) mask
  then Ok (mkNode b [] (KSampling (mkSamplingData None None None mask false)))
  else Raise AssertionError.

(** [ActionNode.eval_model] *)
Definition ActionNode_eval_model (self : Node) : Node :=
  match kind self with
  | KAction a sp =>
      match a_P a with
      | Some _ => self
      | None =>
          if terminal self then self
          else
            let '(P, V, Vc) :=
              action_eval model (tree_owner (base self)) (info_set (base self)) in
            mkNode (with_Q (base self) (to_interval (Scalar V))) (children self)
                   (KAction (mkActionData (actions a) (Some P) (Some V) (Some Vc)
                                          (a_expanded a)) sp)
      end
  | KSampling _ => self
  end.

(** [SamplingNode.apply_H_mask], on the values of [self.H] and
    [self.H_mask]; the result is the new [self.H]. *)
Definition apply_H_mask (H : list Q) (mask : list bool) : result (list Q) :=
  H <- inplace2 Qmult H (map b2q mask) ;;
  let H_sum := np_sum H in
  if Qltb H_sum (1 # 1000000)
  then Ok (map (fun m => b2q m / np_sum (map b2q mask)) mask)
  else Ok (map (fun h => h / H_sum) H).

(** [SamplingNode.eval_model] *)
Definition SamplingNode_eval_model (self : Node) : result Node :=
  match kind self with
  | KSampling s =>
      match s_H s with
      | Some _ => Ok self
      | None =>
          let '(H, V, Vc) :=
            hidden_eval model (tree_owner (base self)) (info_set (base self)) in
          H <- apply_H_mask H (H_mask s) ;;
          Ok (mkNode (with_Q (base self) (to_interval (Scalar V))) (children self)
                     (KSampling (mkSamplingData (Some H) (Some V) (Some Vc)
                                                (H_mask s) (s_expanded s))))
      end
  | KAction _ _ => Ok self
  end.

(** [node.eval_model(model)], dispatched on the class of [node]. *)
Definition eval_model (n : Node) : result Node :=
  if is_action n then Ok (ActionNode_eval_model n) else SamplingNode_eval_model n.

(** Use of an attribute that may still be [None]. *)
Definition opt_get {A} (o : option A) : result A :=
  match o with
  | Some a => Ok a
  | None => Raise TypeError
  end.

(** [node.Vc], for either class. *)
Definition Vc_of (n : Node) : option (list Q) :=
  match kind n with
  | KAction a _ => a_Vc a
  | KSampling s => s_Vc s
  end.

(** The test of the loop of [ActionNode.expand]:
    [self.cp != info_set.get_current_player() and info_set.has_hidden_info()]. *)
Definition becomes_sampling (self : Node) (info_set' : IS) : bool :=
  negb (cp (base self) =? get_current_player ops info_set')%Z
  && has_hidden_info ops info_set'.

(** The constructor call of the loop of [ActionNode.expand] for the action
    [a]: a [SamplingNode] or an [ActionNode], with [initQ = self.Vc[a]]. *)
Definition ActionNode_construct_child (self : Node) (a : Action) : result Node :=
  let info_set' := apply ops (info_set (base self)) a in
  Vc <- opt_get (Vc_of self) ;;
  initQ <- py_index Vc a ;;
  if becomes_sampling self info_set'
  then SamplingNode_init info_set' (tree_owner (base self)) (Scalar initQ)
  else ActionNode_init info_set' (tree_owner (base self)) (Scalar initQ).

(** The child after [node.eval_model(model)], which runs at once because
    [CHEAT] is set. *)
Definition ActionNode_new_child (self : Node) (a : Action) : result Node :=
  child <- ActionNode_construct_child self a ;;
  if CHEAT then eval_model child else Ok child.

(** The body of the loop of [ActionNode.expand].  The source adds the child
    and then evaluates it through the reference the dictionary also holds,
    so the edge ends up with the evaluated child. *)
Definition ActionNode_expand_child (self : Node) (a : Action) : result Node :=
  child <- ActionNode_new_child self a ;;
  Ok (add_child self a child).

(** [self._expanded = True] *)
Definition set_expanded (n : Node) : Node :=
  match kind n with
  | KAction a sp =>
      set_kind n (KAction (mkActionData (actions a) (a_P a) (a_V a) (a_Vc a) true) sp)
  | KSampling s =>
      set_kind n (KSampling (mkSamplingData (s_H s) (s_V s) (s_Vc s) (H_mask s) true))
  end.

(** [self.actions], [self.P], [self.H] and [self.H_mask]; a class without
    the attribute yields the empty value. *)
Definition actions_of (n : Node) : list Action :=
  match kind n with
  | KAction a _ => actions a
  | KSampling _ => []
  end.

Definition P_of (n : Node) : option (list Q) :=
  match kind n with
  | KAction a _ => a_P a
  | KSampling _ => None
  end.

Definition H_of (n : Node) : option (list Q) :=
  match kind n with
  | KAction _ _ => None
  | KSampling s => s_H s
  end.

Definition H_mask_of (n : Node) : list bool :=
  match kind n with
  | KAction _ _ => []
  | KSampling s => H_mask s
  end.

(** [self.Q = to_interval(self.V)].  [V] is set together with [P], so it is
    never [None] where [expand] reaches this statement. *)
Definition reset_Q_to_V (self : Node) : result Node :=
  V <- opt_get (V_of self) ;;
  Ok (set_base self (with_Q (base self) (to_interval (Scalar V)))).

(** [ActionNode.expand] *)
Definition ActionNode_expand (self : Node) : result Node :=
  let self := set_expanded self in
  if terminal self then Ok self
  else
    let self := ActionNode_eval_model self in
    self <- foldM ActionNode_expand_child (actions_of self) self ;;
    reset_Q_to_V self.

(** The loop of [computePUCT] that scatters the children's [Q] and [N] into
    arrays by edge index. *)
Definition scatter_children (self : Node)
  : result (list Interval * list Q) :=
  let c := length (children self) in
  foldM (fun (acc : list Interval * list Q) (kv : Z * Edge IS) =>
           let i := index (snd kv) in
           let child := node (snd kv) in
           Qs <- set_nth (fst acc) i (Q_of child) ;;
           Ns <- set_nth (snd acc) i (nat2q (N_of child)) ;;
           Ok (Qs, Ns))
        (children self)
        (repeat (0, 0) c, repeat 0 c).

(** [PUCT = c_PUCT * P * sqrt(sum(N)) / (N + 1)] followed by
    [PUCT = Q + PUCT[:, newaxis]]: the per-child score intervals. *)
Definition PUCT_scores (P : list Q) (Qs : list Interval) (Ns : list Q)
  : result (list Interval) :=
  PUCT <- bcast2 (fun p n => Constants.c_PUCT * p * np_sqrt (np_sum Ns) / (n + 1))
                 P Ns ;;
  bcast2 (fun (q : Interval) b => (fst q + b, snd q + b)) Qs PUCT.

(** The end of [computePUCT]: the indices whose upper bound reaches the
    greatest lower bound up to [1e-8]. *)
Definition candidates (PUCT : list Interval) : result (list nat) :=
  max_lower_bound_index <- np_argmax (map fst PUCT) ;;
  let max_lower_bound := nth max_lower_bound_index (map fst PUCT) 0 in
  Ok (np_where (fun s : Interval => Qle_bool (max_lower_bound - (1 # 100000000)) (snd s))
               PUCT).

(** [ActionNode.computePUCT] *)
Definition computePUCT (self : Node) : result (list Interval * list nat) :=
  '(Qs, Ns) <- scatter_children self ;;
  P <- opt_get (P_of self) ;;
  PUCT <- PUCT_scores P Qs Ns ;;
  idx <- candidates PUCT ;;
  Ok (Qs, idx).

(** [mask[action_indices] = 1] on [mask = zeros_like(P)] *)
Definition index_mask (len : nat) (action_indices : list nat) : result (list Q) :=
  foldM (fun mask i => set_nth mask i 1) action_indices (repeat 0 len).

(** [ActionNode.get_mixing_distribution] *)
Definition get_mixing_distribution (self : Node) (action_indices : list nat)
  : result (list Q) :=
  P0 <- opt_get (P_of self) ;;
  mask <- index_mask (length P0) action_indices ;;
  let P := zip_with Qmult P0 mask in
  let s := np_sum P in
  if Qltb 0 s then Ok (map (fun p => p / s) P) else Raise AssertionError.

(** [probs[child_keys]]: numpy indexing by an integer array (an empty key
    list gives a float array, which is not a valid index). *)
Definition take_keys (probs : list Q) (keys : list Z) : result (list Q) :=
  match keys with
  | [] => Raise IndexError
  | _ => foldM (fun acc k => p <- py_index probs k ;; Ok (acc ++ [p])) keys []
  end.

(** The values of a list without [None], if it has none. *)
Fixpoint all_some {A} (l : list (option A)) : option (list A) :=
  match l with
  | [] => Some []
  | Some x :: l' => match all_some l' with Some r => Some (x :: r) | None => None end
  | None :: _ => None
  end.

(** [Node.calc_union_interval].  A child that was never evaluated has
    [V = None]; the numeric helper has no value for it. *)
Definition calc_union_interval (self : Node) (probs : option (list Q))
  : result Interval :=
  let Vc := get_Vc self in
  let child_keys := map fst (children self) in
  probs <- opt_get probs ;;
  w <- take_keys probs child_keys ;;
  Vc <- opt_get (all_some Vc) ;;
  let Vc_intervals := map (fun v => (v, v)) Vc in
  Ok (perturb_prob_simplex Vc_intervals w Constants.EPS).

(** The three statements that end [spawned_visit], [unspawned_visit] and
    [SamplingNode.visit]:
      [union_interval = self.calc_union_interval(probs)]
      [self.Q = union_interval + child.residual_Q_to_V]
      [self.residual_Q_to_V =
         (self.residual_Q_to_V * (self.N - 1) + self.Q - self.V) / self.N] *)
Definition running_residual (r : IntervalLike) (N : nat) (q : Interval) (V : Q)
  : IntervalLike :=
  let r := to_interval r in
  let n1 := inject_Z (Z.of_nat N - 1) in
  Ival ((fst r * n1 + fst q - V) / nat2q N, (snd r * n1 + snd q - V) / nat2q N).

(** The three statements, for the visited [child] and the weights [probs]. *)
Definition update_Q (self : Node) (child : Node) (probs : option (list Q))
  : result Node :=
  union_interval <- calc_union_interval self probs ;;
  let q := interval_add union_interval (residual_of child) in
  let self := set_base self (with_Q (base self) q) in
  V <- opt_get (V_of self) ;;
  Ok (set_base self
        (with_residual (base self)
           (running_residual (residual_of self) (N_of self) (Q_of self) V))).

(** After [child.visit(model)] the edge at [key] refers to the visited child. *)
Fixpoint replace_child (d : dict (Edge IS)) (key : Z) (child : Node) : dict (Edge IS) :=
  match d with
  | [] => []
  | (k, e) :: d' =>
      if (key =? k)%Z then (k, mkEdge (index e) child) :: d'
      else (k, e) :: replace_child d' key child
  end.

(** [self.children[key]] *)
Definition child_at (self : Node) (key : Z) : result (Edge IS) :=
  match dict_get (children self) key with
  | Some e => Ok e
  | None => Raise KeyError
  end.

(** [self.N += 1] *)
Definition incr_N (self : Node) : Node :=
  set_base self (with_N (base self) (S (N_of self))).

(** [Tree.__init__]: the owner is the root's current player and is written
    back to the root; the identifier comes from the class-wide counter.  The
    registry [trees] and the visit counter only serve diagnostics and are
    left out. *)
Definition Tree_init (root : Node) : M Tree :=
  fun w =>
    let owner := get_current_player ops (info_set (base root)) in
    let root := set_base root (with_tree_owner (base root) (Some owner)) in
    Ok (mkTree root owner (next_id w), mkWorld (S (next_id w)) (draws w)).

(** The first half of [create_spawned_tree]: a clone in which the cards of
    every player but the current one are blanked. *)
Definition redact (s : IS) : IS :=
  let s := clone ops s in
  let cp := get_current_player ops s in
  fold_left (fun s i => if (Z.of_nat i =? cp)%Z then s else clear_card ops s i)
            (seq 0 (cards_len ops s)) s.

(** [SamplingNode.create_spawned_tree]: the root is built with the default
    [tree_owner = None] and [initQ = 0]. *)
Definition create_spawned_tree (s : IS) : M Tree :=
  let s := redact s in
  root <~ lift (ActionNode_init s None (Scalar 0)) ;;
  Tree_init root.

(** [node.spawned_tree = t] *)
Definition set_spawned_tree (n : Node) (t : option Tree) : Node :=
  match kind n with
  | KAction a _ => set_kind n (KAction a t)
  | KSampling _ => n
  end.

(** The child that the loop of [SamplingNode.expand] builds for the hidden
    state [h].  A [SamplingNode] child has no [spawned_tree] attribute, so
    reading it at the end of the iteration raises. *)
Definition SamplingNode_new_child (self : Node) (h : nat) : M Node :=
  let info_set' := instantiate_hidden_state ops (info_set (base self)) h in
  if has_hidden_info ops info_set'
  then
    if negb (cp (base self) =? get_current_player ops info_set')%Z
    then mraise AssertionError
    else
      Vc <~ lift (opt_get (Vc_of self)) ;;
      initQ <~ lift (py_index Vc (Z.of_nat h)) ;;
      child <~ lift (SamplingNode_init info_set' (tree_owner (base self)) (Scalar initQ)) ;;
      child <~ lift (if CHEAT then eval_model child else Ok child) ;;
      mraise AttributeError
  else
    Vc <~ lift (opt_get (Vc_of self)) ;;
    initQ <~ lift (py_index Vc (Z.of_nat h)) ;;
    child <~ lift (ActionNode_init info_set' (tree_owner (base self)) (Scalar initQ)) ;;
    t <~ create_spawned_tree info_set' ;;
    let child := set_spawned_tree child (Some t) in
    lift (if CHEAT then eval_model child else Ok child).

(** The body of the loop of [SamplingNode.expand]. *)
Definition SamplingNode_expand_child (self : Node) (h : nat) : M Node :=
  child <~ SamplingNode_new_child self h ;;
  mret (add_child self (Z.of_nat h) child).

(** [SamplingNode.expand] *)
Definition SamplingNode_expand (self : Node) : M Node :=
  self <~ lift (SamplingNode_eval_model self) ;;
  self <~ mfoldM SamplingNode_expand_child
                 (np_where (fun m : bool => m) (H_mask_of self)) self ;;
  mret (set_expanded self).

Section Visit.
(** [node.visit(model)] for the nodes below the current one. *)
Variable visit : Node -> M (Node * option Action).

(** The selection of [unspawned_visit]: the index of the chosen action. *)
Definition select_action_index (self : Node) : M nat :=
  '(_, action_indices) <~ lift (computePUCT self) ;;
  match action_indices with
  | [action_index] => mret action_index
  | _ =>
      mixing_distr <~ lift (get_mixing_distribution self action_indices) ;;
      P <~ lift (opt_get (P_of self)) ;;
      np_random_choice uniform (length P) mixing_distr
  end.

(** [child = self.children[key].node; child.visit(model)], followed by the
    update of [self.Q] and [self.residual_Q_to_V] with the weights [probs]. *)
Definition visit_child (self : Node) (key : Z) (probs : option (list Q)) : M Node :=
  edge <~ lift (child_at self key) ;;
  '(child, _) <~ visit (node edge) ;;
  let self := set_children self (replace_child (children self) key child) in
  lift (update_Q self child probs).

(** [ActionNode.unspawned_visit] *)
Definition unspawned_visit (self : Node) : M (Node * option Action) :=
  action_index <~ select_action_index self ;;
  action <~ lift (py_index (actions_of self) (Z.of_nat action_index)) ;;
  self <~ visit_child self action (P_of self) ;;
  mret (self, Some action).

(** [ActionNode.spawned_visit] *)
Definition spawned_visit (self : Node) (t : Tree) : M Node :=
  t <~ (if (N_of (root t) =? 0)%nat
        then '(r, _) <~ visit (root t) ;; mret (mkTree r (tree_owner_of t) (tree_id t))
        else mret t) ;;
  '(r, action) <~ visit (root t) ;;
  let t := mkTree r (tree_owner_of t) (tree_id t) in
  let self := set_spawned_tree self (Some t) in
  match action with
  | None => mraise KeyError
  | Some action => visit_child self action (P_of self)
  end.

(** [ActionNode.visit] *)
Definition ActionNode_visit (self : Node) : M (Node * option Action) :=
  let self := incr_N self in
  if terminal self then mret (self, None)
  else if negb (expanded_of self)
  then self <~ lift (ActionNode_expand self) ;; mret (self, None)
  else match spawned_tree_of self with
       | Some t => self <~ spawned_visit self t ;; mret (self, None)
       | None => unspawned_visit self
       end.

(** [SamplingNode.visit] *)
Definition SamplingNode_visit (self : Node) : M (Node * option Action) :=
  let self := incr_N self in
  self <~ (if negb (expanded_of self) then SamplingNode_expand self else mret self) ;;
  H <~ lift (opt_get (H_of self)) ;;
  h <~ np_random_choice uniform (length H) H ;;
  self <~ visit_child self (Z.of_nat h) (H_of self) ;;
  mret (self, None).

(** [self.visit(model)], dispatched on the class of [self]. *)
Definition visit_body (self : Node) : M (Node * option Action) :=
  if is_action self then ActionNode_visit self else SamplingNode_visit self.
End Visit.

(** [visit] with a bound on the depth of the recursion. *)
Fixpoint visit (fuel : nat) (self : Node) : M (Node * option Action) :=
  match fuel with
  | O => fun _ => OutOfFuel
  | S fuel' => visit_body (visit fuel') self
  end.

(** The loop of [Tree.get_visit_distribution], with a bound on the number
    of iterations. *)
Fixpoint visit_while (fuel : nat) (loops : nat) (r : Node) (n : Z) : M Node :=
  if (Z.of_nat (N_of r) <=? n)%Z
  then match loops with
       | O => fun _ => OutOfFuel
       | S loops' => '(r, _) <~ visit fuel r ;; visit_while fuel loops' r n
       end
  else mret r.

(** [childN / n_total] on Python integers. *)
Definition py_div (a b : Z) : result Q :=
  if (b =? 0)%Z then Raise ZeroDivisionError else Ok (inject_Z a / inject_Z b).

(** One entry [action: edge.node.N / n_total] of the resulting dictionary. *)
Definition add_fraction (n_total : Z) (d : dict Q) (kv : Z * Edge IS)
  : result (dict Q) :=
  f <- py_div (Z.of_nat (N_of (node (snd kv)))) n_total ;;
  Ok (dict_set d (fst kv) f).

(** [Tree.get_visit_distribution] *)
Definition get_visit_distribution (fuel loops : nat) (t : Tree) (n : Z)
  : M (dict Q * Tree) :=
  r <~ visit_while fuel loops (root t) n ;;
  let n_total := (Z.of_nat (N_of r) - 1)%Z in
  d <~ lift (foldM (add_fraction n_total) (children r) []) ;;
  mret (d, mkTree r (tree_owner_of t) (tree_id t)).

End Engine.

(** ** The perturbation helper *)

(** Minimum and maximum of two rationals. *)
Definition qmin (x y : Q) : Q := if Qle_bool x y then x else y.
Definition qmax (x y : Q) : Q := if Qle_bool x y then y else x.

(** Cells are pairs (value, capacity), kept sorted by value. *)
Fixpoint insert_by_value (x : Q * Q) (l : list (Q * Q)) : list (Q * Q) :=
  match l with
  | [] => [x]
  | y :: l' => if Qle_bool (fst x) (fst y) then x :: l else y :: insert_by_value x l'
  end.

(** Insertion sort of the cells by value. *)
Definition sort_by_value (l : list (Q * Q)) : list (Q * Q) :=
  fold_right insert_by_value [] l.

(** The value gained by pouring the mass [R] into the cells in order, each
    up to its capacity. *)
Fixpoint pour (R : Q) (cells : list (Q * Q)) : Q :=
  match cells with
  | [] => 0
  | (v, c) :: cells' => let d := qmin R c in d * v + pour (R - d) cells'
  end.

(** The mass that [pour] places. *)
Fixpoint mass (R : Q) (cells : list (Q * Q)) : Q :=
  match cells with
  | [] => 0
  | (_, c) :: cells' => let d := qmin R c in d + mass (R - d) cells'
  end.

(** The total capacity of the cells. *)
Definition total (cells : list (Q * Q)) : Q := np_sum (map snd cells).

(** Every capacity is non-negative. *)
Definition caps_nonneg (cells : list (Q * Q)) : Prop :=
  Forall (fun x => 0 <= snd x) cells.

(** The order of the cells. *)
Definition by_value (x y : Q * Q) : Prop := fst x <= fst y.

(** Modelled from the spec: [utils.perturb_prob_simplex], which
    [calc_union_interval] calls, is not part of [ISMCTS.py].  Following the
    design (section 4.4): each weight may move by at most [eps] while all
    weights stay in [[0, 1]] and sum to one; the lower bound shifts as much
    of the free mass as allowed toward the lowest-valued children, the upper
    bound toward the highest-valued ones. *)
Definition perturb_prob_simplex_spec (Vc : list Interval) (w : list Q) (eps : Q)
  : Interval :=
  let floors := map (fun p => qmax 0 (p - eps)) w in
  let caps := map (fun p => qmax 0 (qmin 1 (p + eps) - qmax 0 (p - eps))) w in
  let R := qmax 0 (1 - np_sum floors) in
  (Qred (np_sum (zip_with Qmult floors (map fst Vc))
         + pour R (sort_by_value (combine (map fst Vc) caps))),
   Qred (np_sum (zip_with Qmult floors (map snd Vc))
         + pour R (rev (sort_by_value (combine (map snd Vc) caps))))).

(** ** A concrete game and model, for evaluation

    Explicit game trees as information sets: a leaf carries its outcome, a
    decision lists the successors of the actions [0 .. k-1], a deal hides a
    state that [instantiate_hidden_state] resolves. *)

Module Toy.

Inductive Game : Type :=
| Leaf (outcome : Outcome)
| Move (player : Player) (succ : list Game)
| Deal (player : Player) (mask : list bool) (succ : list Game).

Definition toy_ops : InfoSetOps Game := {|
  get_current_player := fun g =>
    match g with Leaf _ => 0%Z | Move p _ => p | Deal p _ _ => p end;
  get_game_outcome := fun g =>
    match g with Leaf o => Some o | _ => None end;
  get_actions := fun g =>
    match g with
    | Move _ succ => map Z.of_nat (seq 0 (length succ))
    | _ => []
    end;
  apply := fun g a =>
    match g with
    | Move _ succ => nth (Z.to_nat a) succ g
    | _ => g
    end;
  has_hidden_info := fun g =>
    match g with Deal _ _ _ => true | _ => false end;
  get_H_mask := fun g =>
    match g with Deal _ mask _ => mask | _ => [] end;
  instantiate_hidden_state := fun g h =>
    match g with
    | Deal _ _ succ => nth h succ g
    | _ => g
    end;
  clone := fun g => g;
  cards_len := fun _ => 2%nat;
  clear_card := fun g _ => g
|}.

Definition width (g : Game) : nat :=
  match g with
  | Leaf _ => 0%nat
  | Move _ succ => length succ
  | Deal _ mask _ => length mask
  end.

(** A model with uniform priors, value one half and zero bootstraps. *)
Definition toy_model : Model Game := {|
  action_eval := fun _ g =>
    (repeat (1 / nat2q (width g)) (width g), 1 # 2, repeat 0 (width g));
  hidden_eval := fun _ g =>
    (repeat (1 / nat2q (width g)) (width g), 1 # 2, repeat 0 (width g))
|}.

(** A model whose priors are negative, of the wrong length and far from
    summing to one. *)
Definition bad_model : Model Game := {|
  action_eval := fun _ g => ([-1; 5; 3], 1 # 2, repeat 0 (width g));
  hidden_eval := fun _ g => ([-1; 5; 3], 1 # 2, repeat 0 (width g))
|}.

(** A model whose priors have the right length but contain a negative
    entry and sum to two. *)
Definition skewed_model : Model Game := {|
  action_eval := fun _ g => ([-1; 3], 1 # 2, repeat 0 (width g));
  hidden_eval := fun _ g => ([-1; 3], 1 # 2, repeat 0 (width g))
|}.

(** A model whose bootstrap values [Vc] are all one fifth. *)
Definition bootstrap_model : Model Game := {|
  action_eval := fun _ g =>
    (repeat (1 / nat2q (width g)) (width g), 1 # 2, repeat (1 # 5) (width g));
  hidden_eval := fun _ g =>
    (repeat (1 / nat2q (width g)) (width g), 1 # 2, repeat (1 # 5) (width g))
|}.

(** A rational approximation of the square root, to six decimals. *)
Definition sqrt6 (q : Q) : Q :=
  Z.sqrt (Qfloor (q * 1000000000000)) # 1000000.

(** A generator that always returns the sample [u]. *)
Definition const_uniform (u : Q) : nat -> Q := fun _ => u.

Definition w0 : World := mkWorld 0 0.

Definition win : Game := Leaf [(0%Z, 1); (1%Z, 0)].
Definition lose : Game := Leaf [(0%Z, 0); (1%Z, 1)].

(** The two-action decision of player 0 whose successors are terminal. *)
Definition g2 : Game := Move 0%Z [win; lose].

(** A two-action decision whose terminal successors are worth [1] and
    [1 - 1e-9] to player 0. *)
Definition g_close : Game :=
  Move 0%Z [Leaf [(0%Z, 1)]; Leaf [(0%Z, 999999999 # 1000000000)]].

(** A decision of player 0 followed by a hidden deal seen by player 1. *)
Definition g_hidden : Game :=
  Move 0%Z [Deal 1%Z [true; true; false]
                [Move 1%Z [win; lose]; Move 1%Z [lose; win]; lose];
          win].

Definition toy_visit :=
  visit toy_ops toy_model sqrt6 perturb_prob_simplex_spec (const_uniform (1 # 3)).

Definition fresh_root (g : Game) : result (Node Game * World) :=
  (r <~ lift (ActionNode_init toy_ops g None (Scalar 0)) ;;
   t <~ Tree_init toy_ops r ;;
   mret (root t)) w0.

(** [Tree(model, ActionNode(g))] in the initial world. *)
Definition fresh_tree (g : Game) : result (Tree Game * World) :=
  (r <~ lift (ActionNode_init toy_ops g None (Scalar 0)) ;;
   Tree_init toy_ops r) w0.

Definition toy_distribution :=
  get_visit_distribution toy_ops toy_model sqrt6 perturb_prob_simplex_spec
                         (const_uniform (1 # 3)).

(** A deal whose only hidden state is again a deal. *)
Definition g_chain : Game := Deal 1%Z [true] [Deal 1%Z [true] [win]].

(** A deal of player 1 with two legal hidden states out of three, each a
    decision of player 1. *)
Definition g_deal : Game :=
  Deal 1%Z [true; true; false] [Move 1%Z [win; lose]; Move 1%Z [lose; win]; lose].

(** [ActionNode(g, tree_owner=0)] and [SamplingNode(g, tree_owner=0)]. *)
Definition action_node (g : Game) : result (Node Game) :=
  ActionNode_init toy_ops g (Some 0%Z) (Scalar 0).
Definition sampling_node (g : Game) : result (Node Game) :=
  SamplingNode_init toy_ops g (Some 0%Z) (Scalar 0).

End Toy.

(** ** Predicates over every node of a tree *)

(** [P] holds of [n], of every node below it, and of every node of the
    spawned trees attached below it. *)
Fixpoint all_nodes {IS : Type} (P : Node IS -> Prop) (n : Node IS) {struct n} : Prop :=
  match n with
  | mkNode b ch k =>
      P (mkNode b ch k)
      /\ (fix go (l : dict (Edge IS)) : Prop :=
            match l with
            | [] => True
            | (_, mkEdge _ c) :: l' => all_nodes P c /\ go l'
            end) ch
      /\ match k with
         | KAction _ (Some (mkTree r _ _)) => all_nodes P r
         | _ => True
         end
  end.

(** The value interval and the residual of a node are ordered. *)
Definition Q_ordered {IS : Type} (n : Node IS) : Prop :=
  ordered (Q_of n) /\ ordered (to_interval (residual_of n)).

(** ** Predicates used in the statements *)

(** [H'] is a distribution supported on the legal entries of [mask]. *)
Definition masked_distribution (mask : list bool) (H' : list Q) : Prop :=
  length H' = length mask
  /\ (forall i x, nth_error mask i = Some false -> nth_error H' i = Some x -> x == 0)
  /\ np_sum H' == 1.

(** The uniform distribution over the legal entries of [mask]. *)
Definition uniform_over (mask : list bool) : list Q :=
  map (fun m => b2q m / np_sum (map b2q mask)) mask.

(** The keys of a dictionary, in insertion order. *)
Definition keys {V} (d : dict V) : list Z := map fst d.

(** A node as the constructors leave it: never visited, no children, no
    residual, a degenerate value interval, no spawned tree. *)
Definition fresh_leaf {IS} (n : Node IS) : Prop :=
  N_of n = 0%nat /\ children n = [] /\ residual_of n = Scalar 0
  /\ fst (Q_of n) = snd (Q_of n) /\ expanded_of n = false
  /\ spawned_tree_of n = None.

(** A node as [expand] leaves a new child: like [fresh_leaf], possibly with
    a spawned tree whose root was never visited. *)
Definition fresh {IS} (n : Node IS) : Prop :=
  N_of n = 0%nat /\ children n = [] /\ residual_of n = Scalar 0
  /\ fst (Q_of n) = snd (Q_of n) /\ expanded_of n = false
  /\ match spawned_tree_of n with
     | None => True
     | Some t => fresh_leaf (root t)
     end.

(** [n'] is [n] after [eval_model]: only [Q] and the model outputs change. *)
Definition evaluated_from {IS} (n n' : Node IS) : Prop :=
  children n' = children n /\ is_action n' = is_action n
  /\ expanded_of n' = expanded_of n /\ spawned_tree_of n' = spawned_tree_of n
  /\ actions_of n' = actions_of n /\ H_mask_of n' = H_mask_of n
  /\ (base n' = base n \/ exists V, base n' = with_Q (base n) (V, V)).

(** The dictionary built by [add_child] for the keys and children [kcs]. *)
Definition add_all {IS} (d : dict (Edge IS)) (kcs : list (Z * Node IS))
  : dict (Edge IS) :=
  fold_left (fun d kc => dict_set d (fst kc) (mkEdge (length d) (snd kc))) kcs d.

(** A summary of the edges of a node: key, edge index, whether the child is
    terminal, its value interval, its visit count and its number of
    children. *)
Definition edge_summary {IS} (n : Node IS)
  : list (Z * nat * bool * Interval * nat * nat) :=
  map (fun kv => (fst kv, index (snd kv), terminal (node (snd kv)),
                  Q_of (node (snd kv)), N_of (node (snd kv)),
                  length (children (node (snd kv)))))
      (children n).

(** The spawned tree after the bootstrap visit of [spawned_visit]: [t1] is
    [t] with its root visited once if it had never been visited. *)
Definition bootstrapped {IS} (vis : Node IS -> M (Node IS * option Action))
  (t t1 : Tree IS) (w w1 : World) : Prop :=
  (N_of (root t) = 0%nat
   /\ exists r0 a0, vis (root t) w = Ok (r0, a0, w1)
                    /\ t1 = mkTree r0 (tree_owner_of t) (tree_id t))
  \/ (N_of (root t) <> 0%nat /\ t1 = t /\ w1 = w).

(** The paths of [visit]. *)
Inductive visit_path {IS} (ops : InfoSetOps IS) (model : Model IS)
  (np_sqrt : Q -> Q)
  (perturb_prob_simplex : list Interval -> list Q -> Q -> Interval)
  (uniform : nat -> Q) (fuel : nat) (self self' : Node IS) (r : option Action)
  (w w' : World) : Prop :=
| path_terminal :
    is_action self = true -> terminal self = true ->
    self' = incr_N self -> r = None -> w' = w ->
    visit_path ops model np_sqrt perturb_prob_simplex uniform fuel self self' r w w'
| path_expand :
    is_action self = true -> terminal self = false -> expanded_of self = false ->
    ActionNode_expand ops model (incr_N self) = Ok self' -> r = None -> w' = w ->
    visit_path ops model np_sqrt perturb_prob_simplex uniform fuel self self' r w w'
| path_spawned (t : Tree IS) :
    is_action self = true -> terminal self = false -> expanded_of self = true ->
    spawned_tree_of self = Some t ->
    spawned_visit perturb_prob_simplex
                  (visit ops model np_sqrt perturb_prob_simplex uniform fuel)
                  (incr_N self) t w
    = Ok (self', w') ->
    r = None ->
    visit_path ops model np_sqrt perturb_prob_simplex uniform fuel self self' r w w'
| path_unspawned :
    is_action self = true -> terminal self = false -> expanded_of self = true ->
    spawned_tree_of self = None ->
    unspawned_visit np_sqrt perturb_prob_simplex uniform
                    (visit ops model np_sqrt perturb_prob_simplex uniform fuel)
                    (incr_N self) w
    = Ok (self', r, w') ->
    visit_path ops model np_sqrt perturb_prob_simplex uniform fuel self self' r w w'
| path_sampling :
    is_action self = false ->
    SamplingNode_visit ops model perturb_prob_simplex uniform
                       (visit ops model np_sqrt perturb_prob_simplex uniform fuel)
                       self w
    = Ok (self', r, w') ->
    visit_path ops model np_sqrt perturb_prob_simplex uniform fuel self self' r w w'.

(** Whether a visit of [self] recurses into a child. *)
Definition recursing {IS} (self : Node IS) : bool :=
  if is_action self then negb (terminal self) && expanded_of self else true.

(** A number of successive [visit] calls on one node. *)
Fixpoint visit_times {IS} (vis : Node IS -> M (Node IS * option Action)) (k : nat)
  (n : Node IS) : M (Node IS) :=
  match k with
  | O => mret n
  | S k' => '(n, _) <~ vis n ;; visit_times vis k' n
  end.

(** The visit counts of the children, in dictionary order, as floats. *)
Definition get_Nc {IS} (n : Node IS) : list Q :=
  map (fun kv => nat2q (N_of (node (snd kv)))) (children n).

(** The edge indices are [0 .. c-1] in dictionary order. *)
Definition edges_in_order {IS} (n : Node IS) : Prop :=
  map (fun kv => index (snd kv)) (children n) = seq 0 (length (children n)).

(** The exploration bonus of a child with prior [p] and visit count [n],
    [sumN] being the sum of the visit counts of all children. *)
Definition exploration_bonus (np_sqrt : Q -> Q) (p sumN n : Q) : Q :=
  Constants.c_PUCT * p * np_sqrt sumN / (n + 1).

(** The score intervals as the design words them: each child's [Q] with its
    bonus added to both bounds, in edge order. *)
Definition score_intervals {IS} (np_sqrt : Q -> Q) (self : Node IS) (P : list Q)
  : list Interval :=
  zip_with (fun (q : Interval) b => (fst q + b, snd q + b))
           (get_Qc self)
           (zip_with (fun p n => exploration_bonus np_sqrt p (np_sum (get_Nc self)) n)
                     P (get_Nc self)).

(** The tolerance of the candidate test of [computePUCT]. *)
Definition tie_tolerance : Q := 1 # 100000000.

(** The number of visits of the children of a node. *)
Definition sum_child_N {IS} (n : Node IS) : nat :=
  fold_right Nat.add 0%nat (map (fun kv => N_of (node (snd kv))) (children n)).

(** The count invariant of an [ActionNode]: once expanded, every visit but
    the first went into exactly one child. *)
Definition counted {IS} (n : Node IS) : Prop :=
  NoDup (keys (children n))
  /\ if terminal n then children n = []
     else if expanded_of n then N_of n = S (sum_child_N n)
          else N_of n = 0%nat /\ children n = [].

(** The entry of the visit distribution for one edge. *)
Definition fraction {IS} (n_total : Z) (kv : Z * Edge IS) : Z * Q :=
  (fst kv, inject_Z (Z.of_nat (N_of (node (snd kv)))) / inject_Z n_total).

(** The layout of the edges of a node: the keys with their edge indices, in
    dictionary order. *)
Definition edge_layout {IS} (n : Node IS) : list (Z * nat) :=
  map (fun kv => (fst kv, index (snd kv))) (children n).

(** What a node is about: its information set, current player, outcome and
    tree owner. *)
Definition identity_of {IS} (n : Node IS)
  : IS * Player * option Outcome * option Player :=
  (info_set (base n), cp (base n), game_outcome (base n), tree_owner (base n)).

(** What the constructor and the model stored in a node. *)
Definition model_data {IS} (n : Node IS)
  : option (list Q) * option (list Q) * option Q * option (list Q)
    * list Action * list bool :=
  (P_of n, H_of n, V_of n, Vc_of n, actions_of n, H_mask_of n).

(** The count invariant of a [SamplingNode]: every visit went into exactly
    one child, and an unexpanded node has no children. *)
Definition sampling_counted {IS} (n : Node IS) : Prop :=
  NoDup (keys (children n))
  /\ N_of n = sum_child_N n
  /\ (expanded_of n = false -> children n = []).

(** The visit count of the root of the spawned tree of a node, if it has
    one. *)
Definition spawned_root_N {IS} (n : Node IS) : option nat :=
  match spawned_tree_of n with
  | Some t => Some (N_of (root t))
  | None => None
  end.

(** The spawned root is visited twice on the second visit of its node and
    once on every later visit. *)
Definition spawn_synced {IS} (n : Node IS) : Prop :=
  match spawned_root_N n with
  | Some k => k = if (N_of n <=? 1)%nat then 0%nat else N_of n
  | None => True
  end.

(** The identifiers of the spawned trees of the children of a node, in
    dictionary order. *)
Definition spawned_ids {IS} (n : Node IS) : list (option nat) :=
  map (fun kv => option_map tree_id (spawned_tree_of (node (snd kv)))) (children n).

(** Whether the index [i] is among [idx]. *)
Definition among (idx : list nat) (i : nat) : bool := existsb (Nat.eqb i) idx.

(** The child that [SamplingNode.expand] builds for the hidden state [h]
    when the spawned tree gets the identifier [id]: an [ActionNode] for the
    instantiated state, owned like its parent, with a spawned tree whose
    root holds the redacted state and is owned by the player to move
    there. *)
Definition spawned_child {IS} (ops : InfoSetOps IS) (self : Node IS) (h id : nat)
  (c : Node IS) : Prop :=
  let s := instantiate_hidden_state ops (info_set (base self)) h in
  has_hidden_info ops s = false
  /\ is_action c = true /\ fresh c
  /\ info_set (base c) = s
  /\ tree_owner (base c) = tree_owner (base self)
  /\ exists t,
      spawned_tree_of c = Some t
      /\ tree_id t = id
      /\ info_set (base (root t)) = redact ops s
      /\ tree_owner_of t = get_current_player ops (redact ops s)
      /\ tree_owner (base (root t)) = Some (tree_owner_of t).

(** The children built for the hidden states [hs], the spawned trees being
    numbered from [id] on. *)
Fixpoint spawned_children {IS} (ops : InfoSetOps IS) (self : Node IS) (id : nat)
  (hs : list nat) (cs : list (Node IS)) : Prop :=
  match hs, cs with
  | [], [] => True
  | h :: hs', c :: cs' =>
      spawned_child ops self h id c /\ spawned_children ops self (S id) hs' cs'
  | _, _ => False
  end.

(** * Properties *)

(** ** Inversion of the monads *)

Lemma rbind_ok {A B} (r : result A) (k : A -> result B) (b : B) :
  rbind r k = Ok b -> exists a, r = Ok a /\ k a = Ok b.
Proof. destruct r; simpl; intros E; try discriminate; eauto. Qed.

Lemma mbind_ok {A B} (m : M A) (k : A -> M B) (w : World) (x : B * World) :
  mbind m k w = Ok x -> exists a w1, m w = Ok (a, w1) /\ k a w1 = Ok x.
Proof.
  unfold mbind; destruct (m w) as [[a w1]| |]; intros E; try discriminate; eauto.
Qed.

Lemma lift_ok {A} (r : result A) (w : World) (a : A) (w' : World) :
  lift r w = Ok (a, w') -> r = Ok a /\ w' = w.
Proof. destruct r; simpl; intros E; inversion E; auto. Qed.

Lemma mret_ok {A} (a b : A) (w w' : World) :
  mret a w = Ok (b, w') -> b = a /\ w' = w.
Proof. unfold mret; intros E; inversion E; auto. Qed.

Ltac inv_ok :=
  repeat match goal with
  | H : rbind _ _ = Ok _ |- _ =>
      let a := fresh "a" in let E := fresh "E" in
      apply rbind_ok in H; destruct H as (a & E & H)
  | H : mbind _ _ _ = Ok _ |- _ =>
      let a := fresh "a" in let w := fresh "w" in let E := fresh "E" in
      apply mbind_ok in H; destruct H as (a & w & E & H)
  | H : lift _ _ = Ok (_, _) |- _ =>
      let E := fresh "E" in
      apply lift_ok in H; destruct H as (H & E); try subst
  | H : mret _ _ = Ok (_, _) |- _ =>
      let E := fresh "E" in
      apply mret_ok in H; destruct H as (H & E); try subst
  | H : Ok _ = Ok _ |- _ => inversion H; clear H; try subst
  | H : Raise _ = Ok _ |- _ => discriminate H
  | H : OutOfFuel = Ok _ |- _ => discriminate H
  | H : mraise _ _ = Ok _ |- _ => discriminate H
  end.

(** ** Sums and elementwise operations *)

Lemma np_sum_map_div (l : list Q) (s : Q) :
  np_sum (map (fun h => h / s) l) == np_sum l / s.
Proof.
  induction l as [|x l IH]; simpl.
  - unfold Qdiv; ring.
  - rewrite IH; unfold Qdiv; ring.
Qed.

Lemma np_sum_mask_nonneg (mask : list bool) : 0 <= np_sum (map b2q mask).
Proof.
  induction mask as [|m mask IH]; simpl; [lra|].
  destruct m; simpl; lra.
Qed.

Lemma np_sum_mask_pos (mask : list bool) :
  existsb (fun m => m) mask = true -> 0 < np_sum (map b2q mask).
Proof.
  induction mask as [|m mask IH]; simpl; [discriminate|].
  pose proof (np_sum_mask_nonneg mask).
  destruct m; simpl; intros E; [lra|].
  specialize (IH E); lra.
Qed.

Lemma zip_with_length {A B C} (f : A -> B -> C) (xs : list A) (ys : list B) :
  length xs = length ys -> length (zip_with f xs ys) = length xs.
Proof.
  revert ys; induction xs as [|x xs IH]; intros [|y ys]; simpl; intros E;
    try discriminate; auto.
Qed.

Lemma Qltb_true (x y : Q) : Qltb x y = true <-> x < y.
Proof.
  unfold Qltb. rewrite negb_true_iff.
  destruct (Qle_bool y x) eqn:E.
  - apply Qle_bool_iff in E. split; [discriminate | lra].
  - split; auto. intros _. apply Qnot_le_lt. intros L.
    apply Qle_bool_iff in L. congruence.
Qed.

Lemma Qltb_false (x y : Q) : Qltb x y = false <-> y <= x.
Proof.
  unfold Qltb. rewrite negb_false_iff. apply Qle_bool_iff.
Qed.

(** ** The legality mask *)

Lemma masked_zero (H : list Q) (mask : list bool) (i : nat) (x : Q) :
  nth_error mask i = Some false ->
  nth_error (zip_with Qmult H (map b2q mask)) i = Some x -> x == 0.
Proof.
  revert mask i; induction H as [|h H IH]; intros [|m mask] [|i]; simpl;
    try discriminate.
  - intros E1 E2; inversion E1; inversion E2; subst; simpl; ring.
  - apply IH.
Qed.

Lemma uniform_over_masked (mask : list bool) :
  existsb (fun m => m) mask = true -> masked_distribution mask (uniform_over mask).
Proof.
  intros Hex; pose proof (np_sum_mask_pos mask Hex) as Hpos.
  unfold masked_distribution, uniform_over; repeat split.
  - apply length_map.
  - intros i x E1 E2. rewrite nth_error_map, E1 in E2; simpl in E2.
    inversion E2; subst. unfold Qdiv; simpl; ring.
  - rewrite <- (map_map b2q (fun q => q / np_sum (map b2q mask))).
    rewrite np_sum_map_div. field. lra.
Qed.

Lemma renormalised_masked (H : list Q) (mask : list bool) :
  length H = length mask ->
  ~ np_sum (zip_with Qmult H (map b2q mask)) < 1 # 1000000 ->
  masked_distribution mask
    (map (fun h => h / np_sum (zip_with Qmult H (map b2q mask)))
         (zip_with Qmult H (map b2q mask))).
Proof.
  intros Hlen Hs. unfold masked_distribution; repeat split.
  - rewrite length_map, zip_with_length; auto. now rewrite length_map.
  - intros i x E1 E2. rewrite nth_error_map in E2.
    destruct (nth_error (zip_with Qmult H (map b2q mask)) i) as [y|] eqn:E3;
      simpl in E2; [|discriminate].
    inversion E2; subst. rewrite (masked_zero _ _ _ _ E1 E3).
    unfold Qdiv; ring.
  - rewrite np_sum_map_div. field.
    intros Z. apply Hs. rewrite Z. reflexivity.
Qed.

Lemma apply_H_mask_eq (H : list Q) (mask : list bool) :
  length H = length mask ->
  apply_H_mask H mask =
  Ok (if Qltb (np_sum (zip_with Qmult H (map b2q mask))) (1 # 1000000)
      then uniform_over mask
      else map (fun h => h / np_sum (zip_with Qmult H (map b2q mask)))
               (zip_with Qmult H (map b2q mask))).
Proof.
  intros Hlen. unfold apply_H_mask, inplace2.
  rewrite length_map, Hlen, Nat.eqb_refl. simpl.
  destruct (Qltb _ _); reflexivity.
Qed.

(** C3. After the evaluation of a [SamplingNode] has applied the legality
    mask, [H] is exactly zero wherever [H_mask] is zero and sums to one; when
    the masked mass is below [1e-6], [H] is the uniform distribution over the
    legal entries.  With [H_mask = [1,1,0]] and a model that returns
    [H = [0,0,1]], the node ends with [H = [1/2, 1/2, 0]]. *)
Theorem C3_masked_H_is_a_distribution_on_the_mask :
  (forall (H : list Q) (mask : list bool),
      length H = length mask ->
      existsb (fun m => m) mask = true ->
      exists H',
        apply_H_mask H mask = Ok H'
        /\ masked_distribution mask H'
        /\ (np_sum (zip_with Qmult H (map b2q mask)) < 1 # 1000000 ->
            H' = uniform_over mask))
  /\ (forall (IS : Type) (model : Model IS) (self : Node IS) (s : SamplingData),
         kind self = KSampling s ->
         s_H s = None ->
         existsb (fun m => m) (H_mask s) = true ->
         length (fst (fst (hidden_eval model (tree_owner (base self))
                                       (info_set (base self)))))
         = length (H_mask s) ->
         exists self' H',
           SamplingNode_eval_model model self = Ok self'
           /\ H_of self' = Some H'
           /\ H_mask_of self' = H_mask s
           /\ masked_distribution (H_mask s) H')
  /\ (exists H',
         apply_H_mask [0; 0; 1] [true; true; false] = Ok H'
         /\ Forall2 Qeq H' [1 # 2; 1 # 2; 0]
         /\ H' = uniform_over [true; true; false]).
Proof.
  assert (G : forall (H : list Q) (mask : list bool),
             length H = length mask ->
             existsb (fun m => m) mask = true ->
             exists H',
               apply_H_mask H mask = Ok H'
               /\ masked_distribution mask H'
               /\ (np_sum (zip_with Qmult H (map b2q mask)) < 1 # 1000000 ->
                   H' = uniform_over mask)).
  { intros H mask Hlen Hex. rewrite (apply_H_mask_eq H mask Hlen).
    destruct (Qltb _ _) eqn:E; eexists; split; try reflexivity; split.
    - now apply uniform_over_masked.
    - reflexivity.
    - apply renormalised_masked; auto.
      intros L. apply Qltb_true in L. congruence.
    - intros L. apply Qltb_true in L. congruence. }
  split; [exact G|split].
  - intros IS model self s Hk HH Hex Hlen.
    unfold SamplingNode_eval_model. rewrite Hk, HH.
    destruct (hidden_eval model _ _) as [[H V] Vc]; simpl in Hlen.
    destruct (G H (H_mask s) Hlen Hex) as (H' & E & Hm & _).
    rewrite E; simpl. do 2 eexists; split; [reflexivity|].
    unfold H_of, H_mask_of; simpl. auto.
  - eexists; split; [vm_compute; reflexivity|]. split.
    + repeat constructor; reflexivity.
    + reflexivity.
Qed.

Lemma C3_witness :
  length [1 # 4; 1 # 4; 1 # 2] = length [true; true; false]
  /\ existsb (fun m => m) [true; true; false] = true
  /\ exists H',
      apply_H_mask [1 # 4; 1 # 4; 1 # 2] [true; true; false] = Ok H'
      /\ masked_distribution [true; true; false] H'
      /\ (np_sum (zip_with Qmult [1 # 4; 1 # 4; 1 # 2]
                           (map b2q [true; true; false])) < 1 # 1000000 ->
          H' = uniform_over [true; true; false]).
Proof.
  split; [reflexivity|split; [reflexivity|]].
  apply (proj1 C3_masked_H_is_a_distribution_on_the_mask); reflexivity.
Defined.

(** ** Construction of terminal nodes *)

Lemma ActionNode_init_terminal {IS} (ops : InfoSetOps IS) (s : IS)
  (owner : option Player) (initQ : IntervalLike) (o : Outcome) :
  get_game_outcome ops s = Some o ->
  ActionNode_init ops s owner initQ =
  (v <- outcome_lookup o owner ;;
   Ok (mkNode (mkBase s (get_current_player ops s) (Some o) (v, v) 0%nat owner
                      (Scalar 0))
              []
              (KAction (mkActionData (get_actions ops s) None (Some v) None false)
                       None))).
Proof.
  intros E. unfold ActionNode_init, Node_init; simpl. rewrite E. reflexivity.
Qed.

(** C9. A terminal [ActionNode] reads [game_outcome[tree_owner]] inside its
    constructor: construction succeeds exactly when the owner is a key of
    the outcome, and with the default owner [None] it raises.  The root of a
    spawned tree is built with the default owner, so [create_spawned_tree]
    fails on a terminal state before [Tree.__init__] can assign the owner. *)
Theorem C9_terminal_ActionNode_needs_owner_at_construction :
  forall (IS : Type) (ops : InfoSetOps IS) (s : IS) (o : Outcome),
    get_game_outcome ops s = Some o ->
    (forall initQ, ActionNode_init ops s None initQ = Raise KeyError)
    /\ (forall initQ owner,
           (exists n, ActionNode_init ops s owner initQ = Ok n)
           <-> (exists p v, owner = Some p /\ dict_get o p = Some v))
    /\ (forall initQ p v,
           dict_get o p = Some v ->
           exists n,
             ActionNode_init ops s (Some p) initQ = Ok n
             /\ V_of n = Some v /\ Q_of n = (v, v) /\ terminal n = true)
    /\ (forall s0 w,
           redact ops s0 = s -> create_spawned_tree ops s0 w = Raise KeyError).
Proof.
  intros IS ops s o E. repeat split.
  - intros initQ. rewrite (ActionNode_init_terminal ops s None initQ o E).
    reflexivity.
  - intros [n En]. rewrite (ActionNode_init_terminal ops s owner initQ o E) in En.
    destruct owner as [p|]; simpl in En; [|discriminate].
    destruct (dict_get o p) as [v|] eqn:Ev; [|discriminate]. eauto.
  - intros (p & v & -> & Ev).
    rewrite (ActionNode_init_terminal ops s (Some p) initQ o E). simpl.
    rewrite Ev; simpl. eauto.
  - intros initQ p v Ev.
    rewrite (ActionNode_init_terminal ops s (Some p) initQ o E). simpl.
    rewrite Ev; simpl. eexists; split; [reflexivity|].
    unfold V_of, Q_of, terminal; simpl. auto.
  - intros s0 w Es. unfold create_spawned_tree, mbind. rewrite Es.
    rewrite (ActionNode_init_terminal ops s None (Scalar 0) o E). reflexivity.
Qed.

Lemma C9_witness :
  get_game_outcome Toy.toy_ops Toy.win = Some [(0%Z, 1); (1%Z, 0)]
  /\ ActionNode_init Toy.toy_ops Toy.win None (Scalar 0) = Raise KeyError
  /\ create_spawned_tree Toy.toy_ops Toy.win Toy.w0 = Raise KeyError.
Proof.
  split; [reflexivity|].
  destruct (C9_terminal_ActionNode_needs_owner_at_construction
              Toy.Game Toy.toy_ops Toy.win [(0%Z, 1); (1%Z, 0)] eq_refl)
    as (H1 & _ & _ & H4).
  split; [apply H1 | apply H4; reflexivity].
Defined.

(** ** Accessors and setters *)

Section NodeFacts.
Context {IS : Type}.
Implicit Types (n self : Node IS) (b : Base IS) (c : dict (Edge IS)) (k : Kind IS).

Lemma base_set_base n b : base (set_base n b) = b.
Proof. destruct n; reflexivity. Qed.
Lemma children_set_base n b : children (set_base n b) = children n.
Proof. destruct n; reflexivity. Qed.
Lemma kind_set_base n b : kind (set_base n b) = kind n.
Proof. destruct n; reflexivity. Qed.
Lemma base_set_children n c : base (set_children n c) = base n.
Proof. destruct n; reflexivity. Qed.
Lemma children_set_children n c : children (set_children n c) = c.
Proof. destruct n; reflexivity. Qed.
Lemma kind_set_children n c : kind (set_children n c) = kind n.
Proof. destruct n; reflexivity. Qed.
Lemma base_set_kind n k : base (set_kind n k) = base n.
Proof. destruct n; reflexivity. Qed.
Lemma children_set_kind n k : children (set_kind n k) = children n.
Proof. destruct n; reflexivity. Qed.
Lemma kind_set_kind n k : kind (set_kind n k) = k.
Proof. destruct n; reflexivity. Qed.

Lemma base_add_child n key child : base (add_child n key child) = base n.
Proof. apply base_set_children. Qed.
Lemma kind_add_child n key child : kind (add_child n key child) = kind n.
Proof. apply kind_set_children. Qed.
Lemma children_add_child n key child :
  children (add_child n key child)
  = dict_set (children n) key (mkEdge (length (children n)) child).
Proof. apply children_set_children. Qed.

Lemma base_set_expanded n : base (set_expanded n) = base n.
Proof. unfold set_expanded; destruct (kind n); apply base_set_kind. Qed.
Lemma children_set_expanded n : children (set_expanded n) = children n.
Proof. unfold set_expanded; destruct (kind n); apply children_set_kind. Qed.
Lemma expanded_set_expanded n : expanded_of (set_expanded n) = true.
Proof.
  unfold set_expanded, expanded_of; destruct (kind n); rewrite kind_set_kind;
    reflexivity.
Qed.
Lemma is_action_set_expanded n : is_action (set_expanded n) = is_action n.
Proof.
  unfold set_expanded, is_action; destruct (kind n); rewrite kind_set_kind;
    reflexivity.
Qed.
Lemma terminal_set_expanded n : terminal (set_expanded n) = terminal n.
Proof. unfold terminal; now rewrite base_set_expanded. Qed.
Lemma actions_set_expanded n : actions_of (set_expanded n) = actions_of n.
Proof.
  unfold set_expanded, actions_of; destruct (kind n); rewrite kind_set_kind;
    reflexivity.
Qed.
Lemma spawned_set_expanded n : spawned_tree_of (set_expanded n) = spawned_tree_of n.
Proof.
  unfold set_expanded, spawned_tree_of; destruct (kind n); rewrite kind_set_kind;
    reflexivity.
Qed.
Lemma V_set_expanded n : V_of (set_expanded n) = V_of n.
Proof.
  unfold set_expanded, V_of; destruct (kind n); rewrite kind_set_kind;
    reflexivity.
Qed.

Lemma base_incr_N n : base (incr_N n) = with_N (base n) (S (N_of n)).
Proof. apply base_set_base. Qed.
Lemma children_incr_N n : children (incr_N n) = children n.
Proof. apply children_set_base. Qed.
Lemma kind_incr_N n : kind (incr_N n) = kind n.
Proof. apply kind_set_base. Qed.
Lemma N_incr_N n : N_of (incr_N n) = S (N_of n).
Proof. unfold N_of; now rewrite base_incr_N. Qed.

Lemma base_set_spawned n (t : option (Tree IS)) :
  base (set_spawned_tree n t) = base n.
Proof. unfold set_spawned_tree; destruct (kind n); auto using base_set_kind. Qed.
Lemma children_set_spawned n (t : option (Tree IS)) :
  children (set_spawned_tree n t) = children n.
Proof. unfold set_spawned_tree; destruct (kind n); auto using children_set_kind. Qed.
Lemma V_set_spawned n (t : option (Tree IS)) : V_of (set_spawned_tree n t) = V_of n.
Proof.
  unfold set_spawned_tree, V_of; destruct (kind n) eqn:E;
    [rewrite kind_set_kind | rewrite E]; reflexivity.
Qed.
Lemma is_action_set_spawned n (t : option (Tree IS)) :
  is_action (set_spawned_tree n t) = is_action n.
Proof.
  unfold set_spawned_tree, is_action; destruct (kind n) eqn:E;
    [rewrite kind_set_kind | rewrite E]; reflexivity.
Qed.
End NodeFacts.

Create Rewrite HintDb node.
#[export] Hint Rewrite
  @base_set_base @children_set_base @kind_set_base
  @base_set_children @children_set_children @kind_set_children
  @base_set_kind @children_set_kind @kind_set_kind
  @base_add_child @kind_add_child @children_add_child
  @base_set_expanded @children_set_expanded @expanded_set_expanded
  @is_action_set_expanded @terminal_set_expanded @actions_set_expanded
  @spawned_set_expanded @V_set_expanded
  @base_incr_N @children_incr_N @kind_incr_N @N_incr_N
  @base_set_spawned @children_set_spawned @V_set_spawned @is_action_set_spawned
  : node.

(** ** Dictionaries *)

Lemma keys_dict_set {V} (d : dict V) (k : Z) (v : V) :
  keys (dict_set d k v) = if in_dec Z.eq_dec k (keys d) then keys d else keys d ++ [k].
Proof.
  induction d as [|[k' v'] d IH]; simpl; [reflexivity|].
  destruct (Z.eqb_spec k k') as [->|Hne].
  - destruct (Z.eq_dec k' k'); [reflexivity | congruence].
  - simpl; rewrite IH. destruct (Z.eq_dec k' k); [congruence|].
    unfold keys. destruct (in_dec Z.eq_dec k (map fst d)); reflexivity.
Qed.

Lemma length_dict_set {V} (d : dict V) (k : Z) (v : V) :
  length (dict_set d k v)
  = if in_dec Z.eq_dec k (keys d) then length d else S (length d).
Proof.
  pose proof (keys_dict_set d k v) as E. apply (f_equal (@length Z)) in E.
  unfold keys in *. rewrite length_map in E. rewrite E.
  destruct (in_dec Z.eq_dec k (map fst d)); rewrite ?length_app, length_map;
    simpl; lia.
Qed.

Lemma NoDup_keys_dict_set {V} (d : dict V) (k : Z) (v : V) :
  NoDup (keys d) -> NoDup (keys (dict_set d k v)).
Proof.
  intros H. rewrite keys_dict_set.
  destruct (in_dec Z.eq_dec k (keys d)) as [|Hn]; [assumption|].
  apply NoDup_app; [assumption | repeat constructor; intros [] | ].
  intros x Hx [<-|[]]. contradiction.
Qed.

Lemma In_keys_dict_set {V} (d : dict V) (k : Z) (v : V) (x : Z) :
  In x (keys (dict_set d k v)) <-> x = k \/ In x (keys d).
Proof.
  rewrite keys_dict_set.
  destruct (in_dec Z.eq_dec k (keys d)) as [Hi|Hn].
  - split; [auto|]. intros [->|]; auto.
  - rewrite in_app_iff; simpl. intuition.
Qed.

Lemma dict_set_fresh {V} (d : dict V) (k : Z) (v : V) :
  ~ In k (keys d) -> dict_set d k v = d ++ [(k, v)].
Proof.
  induction d as [|[k' v'] d IH]; simpl; [reflexivity|].
  intros Hn. destruct (Z.eqb_spec k k') as [->|Hne]; [tauto|].
  f_equal. apply IH. tauto.
Qed.

Lemma In_dict_set {V} (d : dict V) (k : Z) (v : V) (kv : Z * V) :
  In kv (dict_set d k v) -> kv = (k, v) \/ In kv d.
Proof.
  induction d as [|[k' v'] d IH]; simpl; [intros [E|[]]; auto|].
  destruct (Z.eqb_spec k k') as [->|Hne]; simpl; intuition auto.
Qed.

Lemma foldM_inv {A B} (f : B -> A -> result B) (P : B -> Prop) (l : list A) :
  (forall b x b', In x l -> P b -> f b x = Ok b' -> P b') ->
  forall b b', P b -> foldM f l b = Ok b' -> P b'.
Proof.
  induction l as [|x l IH]; simpl; intros Hstep b b' Hb E.
  - inversion E; subst; assumption.
  - inv_ok. eapply IH; [| |exact E]; eauto.
Qed.

(** ** Freshly constructed nodes *)

Section Fresh.
Context {IS : Type}.
Variable ops : InfoSetOps IS.
Variable model : Model IS.

Lemma ActionNode_init_fresh s owner v (n : Node IS) :
  ActionNode_init ops s owner (Scalar v) = Ok n ->
  fresh_leaf n /\ is_action n = true /\ info_set (base n) = s
  /\ tree_owner (base n) = owner
  /\ (get_game_outcome ops s = None -> Q_of n = (v, v)).
Proof.
  unfold ActionNode_init, Node_init; simpl.
  destruct (get_game_outcome ops s) as [o|]; intros E; inv_ok;
    unfold fresh_leaf; simpl; repeat split; auto; discriminate.
Qed.

Lemma SamplingNode_init_fresh s owner v (n : Node IS) :
  SamplingNode_init ops s owner (Scalar v) = Ok n ->
  fresh_leaf n /\ is_action n = false /\ info_set (base n) = s
  /\ tree_owner (base n) = owner /\ Q_of n = (v, v).
Proof.
  unfold SamplingNode_init, Node_init; simpl.
  destruct (existsb _ _); intros E; inv_ok.
  unfold fresh_leaf; simpl; repeat split; auto.
Qed.

Lemma ActionNode_eval_model_from (n : Node IS) :
  evaluated_from n (ActionNode_eval_model model n).
Proof.
  unfold ActionNode_eval_model, evaluated_from.
  destruct n as [b c k]; simpl. destruct k as [a sp|s]; simpl.
  - destruct (a_P a); simpl; [intuition|].
    destruct (terminal _); simpl; [intuition|].
    destruct (action_eval model _ _) as [[P V] Vc]; simpl.
    repeat split; auto. right; eexists; reflexivity.
  - intuition.
Qed.

Lemma SamplingNode_eval_model_from (n n' : Node IS) :
  SamplingNode_eval_model model n = Ok n' -> evaluated_from n n'.
Proof.
  unfold SamplingNode_eval_model, evaluated_from.
  destruct n as [b c k]; simpl. destruct k as [a sp|s]; simpl.
  - intros E; inv_ok; intuition.
  - destruct (s_H s); simpl; [intros E; inv_ok; intuition|].
    destruct (hidden_eval model _ _) as [[H V] Vc]; simpl.
    intros E; inv_ok. simpl. repeat split; auto. right; eexists; reflexivity.
Qed.

Lemma eval_model_from (n n' : Node IS) : eval_model model n = Ok n' -> evaluated_from n n'.
Proof.
  unfold eval_model. destruct (is_action n).
  - intros E; inv_ok. apply ActionNode_eval_model_from.
  - apply SamplingNode_eval_model_from.
Qed.

Lemma evaluated_fresh_leaf (n n' : Node IS) :
  evaluated_from n n' -> fresh_leaf n -> fresh_leaf n'.
Proof.
  unfold evaluated_from, fresh_leaf, N_of, residual_of, Q_of.
  intros (Hc & Ha & He & Hs & _ & _ & Hb) (H1 & H2 & H3 & H4 & H5 & H6).
  rewrite Hc, He, Hs.
  destruct Hb as [->|[V ->]]; simpl; auto 10.
Qed.

Lemma ActionNode_construct_child_fresh (self : Node IS) a (c : Node IS) :
  ActionNode_construct_child ops self a = Ok c -> fresh_leaf c.
Proof.
  unfold ActionNode_construct_child. intros E; inv_ok.
  destruct (becomes_sampling _ _ _).
  - now apply SamplingNode_init_fresh in E.
  - now apply ActionNode_init_fresh in E.
Qed.

Lemma ActionNode_new_child_fresh (self : Node IS) a (c : Node IS) :
  ActionNode_new_child ops model self a = Ok c -> fresh_leaf c.
Proof.
  unfold ActionNode_new_child. intros E; inv_ok. simpl in E.
  apply eval_model_from in E.
  eauto using evaluated_fresh_leaf, ActionNode_construct_child_fresh.
Qed.

Lemma ActionNode_new_child_frame (self self' : Node IS) a :
  base self' = base self -> kind self' = kind self ->
  ActionNode_new_child ops model self' a = ActionNode_new_child ops model self a.
Proof.
  intros Hb Hk.
  unfold ActionNode_new_child, ActionNode_construct_child, becomes_sampling, Vc_of.
  now rewrite Hb, Hk.
Qed.

Lemma expand_loop_children acts : forall self self',
  foldM (ActionNode_expand_child ops model) acts self = Ok self' ->
  base self' = base self /\ kind self' = kind self
  /\ exists cs,
      Forall2 (fun a c => ActionNode_new_child ops model self a = Ok c) acts cs
      /\ children self' = add_all (children self) (combine acts cs).
Proof.
  induction acts as [|a acts IH]; simpl; intros self self' E.
  - inv_ok. repeat split; auto. exists []; split; [constructor | reflexivity].
  - inv_ok. unfold ActionNode_expand_child in E0. inv_ok.
    destruct (IH _ _ E) as (Hb & Hk & cs & Hcs & Hch).
    autorewrite with node in *.
    repeat split; auto.
    exists (a1 :: cs); split.
    + constructor; [assumption|].
      eapply Forall2_impl; [|exact Hcs]. simpl; intros x y Hxy.
      rewrite <- Hxy. symmetry. apply ActionNode_new_child_frame;
        autorewrite with node; reflexivity.
    + simpl. exact Hch.
Qed.

Lemma keys_add_all (kcs : list (Z * Node IS)) : forall d,
  NoDup (keys d) ->
  NoDup (keys (add_all d kcs))
  /\ (forall x, In x (keys (add_all d kcs)) <-> In x (keys d) \/ In x (map fst kcs)).
Proof.
  induction kcs as [|[k c] kcs IH]; simpl; intros d Hd.
  - split; [assumption | tauto].
  - destruct (IH (dict_set d k (mkEdge (length d) c))
                 (NoDup_keys_dict_set d k _ Hd)) as [H1 H2].
    split; [exact H1|]. intros x. rewrite H2, In_keys_dict_set.
    intuition (subst; auto).
Qed.

Lemma add_all_nodup (kcs : list (Z * Node IS)) : forall d,
  NoDup (keys d ++ map fst kcs) ->
  add_all d kcs
  = d ++ map (fun ikc => (fst (snd ikc), mkEdge (fst ikc) (snd (snd ikc))))
             (combine (seq (length d) (length kcs)) kcs).
Proof.
  induction kcs as [|[k c] kcs IH]; simpl; intros d Hd.
  - now rewrite app_nil_r.
  - assert (Hk : ~ In k (keys d)).
    { pose proof (NoDup_remove_2 _ _ _ Hd) as Hn. rewrite in_app_iff in Hn.
      intros Hi; apply Hn; auto. }
    rewrite (dict_set_fresh d k _ Hk), IH.
    + rewrite length_app; simpl. rewrite <- app_assoc; simpl.
      now rewrite Nat.add_1_r.
    + unfold keys in *. rewrite map_app; simpl. rewrite <- app_assoc; simpl.
      exact Hd.
Qed.

Lemma In_add_all (kcs : list (Z * Node IS)) : forall d kv,
  In kv (add_all d kcs) ->
  In kv d \/ exists c, In (fst kv, c) kcs /\ node (snd kv) = c.
Proof.
  induction kcs as [|[k c] kcs IH]; simpl; intros d kv Hin; [auto|].
  apply IH in Hin. destruct Hin as [Hin|(c' & Hc & E)].
  - apply In_dict_set in Hin. destruct Hin as [->|Hin]; [|auto].
    right; exists c; simpl; auto.
  - right; exists c'; auto.
Qed.
End Fresh.

(** ** Expansion of an [ActionNode] *)

Lemma dict_get_dict_set {V} (d : dict V) (k x : Z) (v : V) :
  dict_get (dict_set d k v) x = if (x =? k)%Z then Some v else dict_get d x.
Proof.
  induction d as [|[k' v'] d IH]; simpl; [reflexivity|].
  destruct (Z.eqb_spec k k') as [->|Hne]; simpl.
  - destruct (Z.eqb_spec x k'); reflexivity.
  - rewrite IH. destruct (Z.eqb_spec x k') as [->|]; [|reflexivity].
    destruct (Z.eqb_spec k' k); [congruence | reflexivity].
Qed.

Lemma dict_get_add_all {IS} (kcs : list (Z * Node IS)) : forall d a c,
  (forall c', In (a, c') kcs -> c' = c) ->
  In a (map fst kcs) \/ (exists i, dict_get d a = Some (mkEdge i c)) ->
  exists i, dict_get (add_all d kcs) a = Some (mkEdge i c).
Proof.
  induction kcs as [|[k c0] kcs IH]; simpl; intros d a c Hall Hin.
  - destruct Hin as [[]|Hin]; exact Hin.
  - apply IH; [intros c' Hc'; apply Hall; auto|].
    rewrite dict_get_dict_set.
    destruct (Z.eqb_spec a k) as [->|Hne].
    + right. rewrite (Hall c0) by auto. eauto.
    + destruct Hin as [[E|Hin]|Hin]; [congruence | auto | auto].
Qed.

Lemma with_Q_with_Q {IS} (b : Base IS) (q1 q2 : Interval) :
  with_Q (with_Q b q1) q2 = with_Q b q2.
Proof. reflexivity. Qed.

Lemma Forall2_In_l {A B} (R : A -> B -> Prop) (l : list A) (l' : list B) (a : A) :
  Forall2 R l l' -> In a l -> exists b, In (a, b) (combine l l') /\ R a b.
Proof.
  induction 1 as [|x y l l' Hxy HF IH]; simpl; [intros []|].
  intros [->|Hin]; [eauto|]. destruct (IH Hin) as (b & Hb & Hr); eauto.
Qed.

Lemma In_combine_Forall2 {A B} (R : A -> B -> Prop) (l : list A) (l' : list B)
  (a : A) (b : B) :
  Forall2 R l l' -> In (a, b) (combine l l') -> R a b.
Proof.
  induction 1 as [|x y l l' Hxy HF IH]; simpl; [intros []|].
  intros [E|Hin]; [inversion E; subst; assumption | auto].
Qed.

Lemma map_fst_combine_Forall2 {A B} (R : A -> B -> Prop) (l : list A) (l' : list B) :
  Forall2 R l l' -> map fst (combine l l') = l /\ length l' = length l.
Proof.
  induction 1 as [|x y l l' Hxy HF [IH1 IH2]]; simpl; [auto|].
  rewrite IH1, IH2; auto.
Qed.

Section Expand.
Context {IS : Type}.
Variable ops : InfoSetOps IS.
Variable model : Model IS.

(** What [ActionNode.expand] does to a non-terminal node. *)
Lemma ActionNode_expand_spec (self self' : Node IS) :
  terminal self = false ->
  ActionNode_expand ops model self = Ok self' ->
  let self1 := ActionNode_eval_model model (set_expanded self) in
  exists cs V,
    Forall2 (fun a c => ActionNode_new_child ops model self1 a = Ok c)
            (actions_of self) cs
    /\ children self' = add_all (children self) (combine (actions_of self) cs)
    /\ V_of self1 = Some V
    /\ base self' = with_Q (base self) (V, V)
    /\ kind self' = kind self1.
Proof.
  intros Ht E self1. unfold ActionNode_expand in E.
  rewrite terminal_set_expanded, Ht in E. fold self1 in E. inv_ok.
  destruct (ActionNode_eval_model_from model (set_expanded self))
    as (Hc & Ha & He & Hs & Hact & _ & Hb). fold self1 in Hc, Ha, He, Hs, Hact, Hb.
  autorewrite with node in *.
  apply expand_loop_children in E0. destruct E0 as (Hb' & Hk' & cs & Hcs & Hch).
  unfold reset_Q_to_V in E. inv_ok. autorewrite with node.
  rewrite Hact in Hcs, Hch. rewrite Hc in Hch.
  exists cs, a0. repeat split; auto.
  - unfold V_of in *. rewrite <- Hk'.
    destruct (match kind a with KAction a1 _ => a_V a1 | KSampling s => s_V s end);
      simpl in E0; inv_ok; reflexivity.
  - rewrite Hb'. destruct Hb as [->|[V ->]]; reflexivity.
Qed.

Lemma ActionNode_expand_terminal (self : Node IS) :
  terminal self = true ->
  ActionNode_expand ops model self = Ok (set_expanded self).
Proof.
  intros Ht. unfold ActionNode_expand. now rewrite terminal_set_expanded, Ht.
Qed.

Lemma ActionNode_expand_N (self self' : Node IS) :
  ActionNode_expand ops model self = Ok self' ->
  N_of self' = N_of self /\ residual_of self' = residual_of self
  /\ expanded_of self' = true /\ is_action self' = is_action self
  /\ terminal self' = terminal self
  /\ spawned_tree_of self' = spawned_tree_of self.
Proof.
  destruct (terminal self) eqn:Ht; intros E.
  - rewrite ActionNode_expand_terminal in E by assumption. inv_ok.
    unfold N_of, residual_of, terminal. autorewrite with node. auto 10.
  - destruct (ActionNode_expand_spec _ _ Ht E) as (cs & V & _ & _ & _ & Hb & Hk).
    destruct (ActionNode_eval_model_from model (set_expanded self))
      as (_ & Ha & He & Hs & _).
    autorewrite with node in *.
    unfold N_of, residual_of, terminal, expanded_of, is_action, spawned_tree_of in *.
    rewrite Hb, Hk; simpl. auto 10.
Qed.
End Expand.

Lemma opt_get_ok {A} (o : option A) (a : A) : opt_get o = Ok a -> o = Some a.
Proof. destruct o; simpl; intros E; inv_ok; reflexivity. Qed.

Lemma ActionNode_construct_child_inv {IS} (ops : InfoSetOps IS) (self c : Node IS)
  (a : Action) :
  ActionNode_construct_child ops self a = Ok c ->
  let info_set' := apply ops (info_set (base self)) a in
  let owner := tree_owner (base self) in
  exists Vc v,
    Vc_of self = Some Vc /\ py_index Vc a = Ok v
    /\ (if becomes_sampling ops self info_set'
        then SamplingNode_init ops info_set' owner (Scalar v) = Ok c
             /\ is_action c = false /\ Q_of c = (v, v)
        else ActionNode_init ops info_set' owner (Scalar v) = Ok c
             /\ is_action c = true /\ (terminal c = false -> Q_of c = (v, v))).
Proof.
  intros E info_set' owner. unfold ActionNode_construct_child in E.
  destruct (Vc_of self) as [Vc|]; simpl in E; [|discriminate].
  destruct (py_index Vc a) as [v| |] eqn:Ev; simpl in E; try discriminate.
  exists Vc, v. repeat split; auto. subst info_set' owner. revert E.
  destruct (becomes_sampling ops self _); intros E.
  - destruct (SamplingNode_init_fresh ops _ _ _ _ E) as (_ & Ha & _ & _ & HQ). auto.
  - destruct (ActionNode_init_fresh ops _ _ _ _ E) as (_ & Ha & _ & _ & HQ).
    repeat split; auto. intros Ht. apply HQ.
    unfold ActionNode_init, Node_init in E; simpl in E.
    destruct (get_game_outcome ops _) eqn:Eo; [|reflexivity].
    apply rbind_ok in E. destruct E as (x & _ & E). inversion E; subst.
    discriminate Ht.
Qed.

Lemma becomes_sampling_iff {IS} (ops : InfoSetOps IS) (self : Node IS) (s : IS) :
  becomes_sampling ops self s = true <->
  cp (base self) <> get_current_player ops s /\ has_hidden_info ops s = true.
Proof.
  unfold becomes_sampling. rewrite andb_true_iff, negb_true_iff, Z.eqb_neq.
  reflexivity.
Qed.

Lemma becomes_sampling_evaluated {IS} (ops : InfoSetOps IS) (model : Model IS)
  (self : Node IS) (a : Action) :
  let self1 := ActionNode_eval_model model (set_expanded self) in
  becomes_sampling ops self1 (apply ops (info_set (base self1)) a)
  = becomes_sampling ops self (apply ops (info_set (base self)) a).
Proof.
  intros self1. unfold becomes_sampling.
  destruct (ActionNode_eval_model_from model (set_expanded self))
    as (_ & _ & _ & _ & _ & _ & Hbase). fold self1 in Hbase.
  autorewrite with node in Hbase.
  destruct Hbase as [->|[V' ->]]; reflexivity.
Qed.

(** C6 (as stated) fails for a terminal successor: with [Vc[0] = 1/5] the
    child built for action [0], whose state is won by the tree owner, is an
    [ActionNode] constructed with [initQ = 1/5], yet it leaves the
    constructor with [Q = (1, 1)], the outcome, and keeps it in the
    expanded node. *)
Lemma C6_counterexample :
  exists root w self1 Vc child0 root' e,
    Toy.fresh_root Toy.g2 = Ok (root, w)
    /\ self1 = ActionNode_eval_model Toy.bootstrap_model (set_expanded root)
    /\ Vc_of self1 = Some Vc /\ py_index Vc 0%Z = Ok (1 # 5)
    /\ ActionNode_construct_child Toy.toy_ops self1 0%Z = Ok child0
    /\ is_action child0 = true /\ terminal child0 = true
    /\ Q_of child0 = (1, 1)
    /\ ~ fst (Q_of child0) == 1 # 5
    /\ ActionNode_expand Toy.toy_ops Toy.bootstrap_model root = Ok root'
    /\ dict_get (children root') 0%Z = Some e
    /\ Q_of (node e) = (1, 1).
Proof.
  do 7 eexists. split; [vm_compute; reflexivity|].
  split; [reflexivity|]. split; [vm_compute; reflexivity|].
  split; [vm_compute; reflexivity|]. split; [vm_compute; reflexivity|].
  split; [reflexivity|]. split; [reflexivity|]. split; [reflexivity|].
  split; [vm_compute; discriminate|]. split; [vm_compute; reflexivity|].
  split; [vm_compute; reflexivity | reflexivity].
Qed.

(** C6 (amended). In [ActionNode.expand], the child built for a legal
    action [a] is a [SamplingNode] exactly when the current player changes
    across [apply(a)] and the successor has hidden information, and an
    [ActionNode] otherwise; either constructor is called with
    [initQ = Vc[a]].  The constructed child has [Q = (Vc[a], Vc[a])] when it
    is a [SamplingNode] or its state is not terminal; a terminal
    [ActionNode] child instead leaves the constructor with [V] and [Q] set
    to the outcome for the tree owner.  The edge for [a] holds that child
    after its immediate evaluation. *)
Theorem C6_child_class_and_initial_Q :
  forall (IS : Type) (ops : InfoSetOps IS) (model : Model IS) (self : Node IS),
    (forall a self',
        ActionNode_expand_child ops model self a = Ok self' ->
        let info_set' := apply ops (info_set (base self)) a in
        let owner := tree_owner (base self) in
        exists Vc v child0 child,
          Vc_of self = Some Vc /\ py_index Vc a = Ok v
          /\ (is_action child0 = false <->
              cp (base self) <> get_current_player ops info_set'
              /\ has_hidden_info ops info_set' = true)
          /\ (is_action child0 = false ->
              SamplingNode_init ops info_set' owner (Scalar v) = Ok child0)
          /\ (is_action child0 = true ->
              ActionNode_init ops info_set' owner (Scalar v) = Ok child0)
          /\ (is_action child0 = false -> Q_of child0 = (v, v))
          /\ (terminal child0 = false -> Q_of child0 = (v, v))
          /\ (is_action child0 = true -> terminal child0 = true ->
              exists out o,
                get_game_outcome ops info_set' = Some out
                /\ outcome_lookup out owner = Ok o
                /\ V_of child0 = Some o /\ Q_of child0 = (o, o))
          /\ eval_model model child0 = Ok child
          /\ is_action child = is_action child0
          /\ self' = add_child self a child)
    /\ (forall self',
           terminal self = false ->
           ActionNode_expand ops model self = Ok self' ->
           let self1 := ActionNode_eval_model model (set_expanded self) in
           forall a, In a (actions_of self) ->
             exists e child0,
               dict_get (children self') a = Some e
               /\ ActionNode_construct_child ops self1 a = Ok child0
               /\ eval_model model child0 = Ok (node e)
               /\ (is_action (node e) = false <->
                   cp (base self)
                   <> get_current_player ops (apply ops (info_set (base self)) a)
                   /\ has_hidden_info ops (apply ops (info_set (base self)) a)
                      = true)).
Proof.
  intros IS ops model self. split.
  - intros a self' E info_set' owner.
    unfold ActionNode_expand_child, ActionNode_new_child in E.
    destruct (ActionNode_construct_child ops self a) as [child0| |] eqn:E0;
      simpl in E; try discriminate.
    destruct (eval_model model child0) as [child| |] eqn:E1; simpl in E;
      try discriminate.
    inversion E; subst self'; clear E.
    pose proof (eval_model_from _ _ _ E1) as (_ & Hact & _).
    destruct (ActionNode_construct_child_inv ops _ _ _ E0) as (Vc & v & HVc & Hv & Hc).
    fold info_set' owner in Hc.
    pose proof (becomes_sampling_iff ops self info_set') as Hcond.
    exists Vc, v, child0, child.
    split; [exact HVc|]. split; [exact Hv|].
    destruct (becomes_sampling ops self info_set').
    + destruct Hc as (Hi & Ha & HQ).
      split; [split; [intros _; apply Hcond; reflexivity | intros _; exact Ha]|].
      split; [intros _; exact Hi|]. split; [intros Hf; congruence|].
      split; [intros _; exact HQ|]. split; [intros _; exact HQ|].
      split; [intros Hf; congruence|].
      split; [exact E1|]. split; [exact Hact | reflexivity].
    + destruct Hc as (Hi & Ha & HQ).
      split; [split; [intros Hf; congruence
                     | intros Hf; apply Hcond in Hf; discriminate]|].
      split; [intros Hf; congruence|]. split; [intros _; exact Hi|].
      split; [intros Hf; congruence|]. split; [exact HQ|].
      split; [|split; [exact E1|]; split; [exact Hact | reflexivity]].
      intros _ Ht. unfold terminal in Ht.
      pose proof (ActionNode_init_fresh ops _ _ _ _ Hi) as (_ & _ & His & _).
      unfold ActionNode_init, Node_init in Hi. cbn [game_outcome] in Hi.
      destruct (get_game_outcome ops info_set') as [out|] eqn:Eo.
      * apply rbind_ok in Hi. destruct Hi as (o & Eo' & Hi).
        inversion Hi; subst child0. exists out, o.
        split; [reflexivity|]. split; [exact Eo'|]. split; reflexivity.
      * inversion Hi; subst child0. discriminate Ht.
  - intros self' Ht E self1 a Ha.
    destruct (ActionNode_expand_spec ops model _ _ Ht E)
      as (cs & V & Hcs & Hch & _ & Hb & Hk). fold self1 in Hcs, Hk.
    destruct (Forall2_In_l _ _ _ a Hcs Ha) as (c & Hin & Hc).
    destruct (dict_get_add_all (combine (actions_of self) cs) (children self) a c)
      as [i Hi].
    + intros c' Hc'. pose proof (In_combine_Forall2 _ _ _ _ _ Hcs Hc') as Hc2.
      simpl in Hc2. congruence.
    + left. pose proof (proj1 (map_fst_combine_Forall2 _ _ _ Hcs)) as Hm.
      exact (eq_ind_r (fun l => In a l) Ha Hm).
    + rewrite <- Hch in Hi.
      unfold ActionNode_new_child in Hc.
      destruct (ActionNode_construct_child ops self1 a) as [child0| |] eqn:E0;
        simpl in Hc; try discriminate.
      exists (mkEdge i c), child0. simpl.
      split; [exact Hi|]. split; [reflexivity|]. split; [exact Hc|].
      rewrite <- (becomes_sampling_iff ops self).
      rewrite <- (becomes_sampling_evaluated ops model self a). fold self1.
      pose proof (eval_model_from _ _ _ Hc) as (_ & Hact & _). rewrite Hact.
      destruct (ActionNode_construct_child_inv ops _ _ _ E0) as (Vc & v & _ & _ & Hx).
      destruct (becomes_sampling ops self1 _); destruct Hx as (_ & Hx & _);
        rewrite Hx; split; congruence.
Qed.

(** ** The first visit of an [ActionNode] *)

Section IncrN.
Context {IS : Type}.
Implicit Types (n : Node IS).

Lemma terminal_incr_N n : terminal (incr_N n) = terminal n.
Proof. unfold terminal; now rewrite base_incr_N. Qed.
Lemma expanded_incr_N n : expanded_of (incr_N n) = expanded_of n.
Proof. unfold expanded_of; now rewrite kind_incr_N. Qed.
Lemma is_action_incr_N n : is_action (incr_N n) = is_action n.
Proof. unfold is_action; now rewrite kind_incr_N. Qed.
Lemma spawned_incr_N n : spawned_tree_of (incr_N n) = spawned_tree_of n.
Proof. unfold spawned_tree_of; now rewrite kind_incr_N. Qed.
Lemma actions_incr_N n : actions_of (incr_N n) = actions_of n.
Proof. unfold actions_of; now rewrite kind_incr_N. Qed.
Lemma V_incr_N n : V_of (incr_N n) = V_of n.
Proof. unfold V_of; now rewrite kind_incr_N. Qed.
Lemma residual_incr_N n : residual_of (incr_N n) = residual_of n.
Proof. unfold residual_of; now rewrite base_incr_N. Qed.
Lemma Q_incr_N n : Q_of (incr_N n) = Q_of n.
Proof. unfold Q_of; now rewrite base_incr_N. Qed.
End IncrN.

#[export] Hint Rewrite
  @terminal_incr_N @expanded_incr_N @is_action_incr_N @spawned_incr_N
  @actions_incr_N @V_incr_N @residual_incr_N @Q_incr_N : node.

Section FirstVisit.
Context {IS : Type}.
Variable ops : InfoSetOps IS.
Variable model : Model IS.
Variable np_sqrt : Q -> Q.
Variable perturb_prob_simplex : list Interval -> list Q -> Q -> Interval.
Variable uniform : nat -> Q.

Local Abbreviation visit := (visit ops model np_sqrt perturb_prob_simplex uniform).

Lemma visit_expansion_only (fuel : nat) (self : Node IS) (w : World) :
  is_action self = true -> terminal self = false -> expanded_of self = false ->
  visit (S fuel) self w
  = (self' <- ActionNode_expand ops model (incr_N self) ;; Ok (self', None, w)).
Proof.
  intros Ha Ht He. simpl. unfold visit_body, ActionNode_visit.
  rewrite Ha. autorewrite with node. rewrite Ht, He. simpl.
  unfold mbind, lift, mret.
  destruct (ActionNode_expand ops model (incr_N self)); reflexivity.
Qed.

Lemma visit_terminal (fuel : nat) (self : Node IS) (w : World) :
  is_action self = true -> terminal self = true ->
  visit (S fuel) self w = Ok (incr_N self, None, w).
Proof.
  intros Ha Ht. simpl. unfold visit_body, ActionNode_visit.
  rewrite Ha. autorewrite with node. rewrite Ht. reflexivity.
Qed.

(** The children created by the expansion of a node without children. *)
Lemma expansion_children (self self' : Node IS) :
  terminal self = false -> children self = [] ->
  ActionNode_expand ops model self = Ok self' ->
  NoDup (keys (children self'))
  /\ (forall a, In a (keys (children self')) <-> In a (actions_of self))
  /\ (forall kv, In kv (children self') -> fresh_leaf (node (snd kv)))
  /\ (NoDup (actions_of self) ->
      keys (children self') = actions_of self
      /\ map (fun kv => index (snd kv)) (children self')
         = seq 0 (length (actions_of self))).
Proof.
  intros Ht Hch E.
  destruct (ActionNode_expand_spec ops model _ _ Ht E)
    as (cs & V & Hcs & Hch' & _ & _ & _).
  rewrite Hch in Hch'. rewrite Hch'.
  destruct (map_fst_combine_Forall2 _ _ _ Hcs) as [Hm Hl].
  destruct (keys_add_all (combine (actions_of self) cs) [] (NoDup_nil _)) as [H1 H2].
  split; [exact H1|]. split; [|split].
  - intros a. rewrite H2. simpl.
    split; [intros [[]|Hi] | intros Hi; right];
      [exact (eq_ind _ (fun l => In a l) Hi _ Hm)
      | exact (eq_ind_r (fun l => In a l) Hi Hm)].
  - intros kv Hin. apply In_add_all in Hin. destruct Hin as [[]|(c & Hc & <-)].
    pose proof (In_combine_Forall2 _ _ _ _ _ Hcs Hc) as Hn. simpl in Hn.
    eapply ActionNode_new_child_fresh; eauto.
  - intros Hnd.
    rewrite add_all_nodup by (simpl; exact (eq_ind_r (@NoDup Z) Hnd Hm)).
    simpl. rewrite length_combine, Hl, Nat.min_id.
    set (acts := actions_of self) in *. clearbody acts.
    clear - Hcs. unfold keys. rewrite !map_map. simpl.
    generalize 0%nat as i. induction Hcs as [|a c acts cs Hac HF IH]; intros i.
    + auto.
    + simpl. destruct (IH (S i)) as [IH1 IH2]. rewrite IH1, IH2. auto.
Qed.
End FirstVisit.

(** C5. The first [visit] of a non-terminal [ActionNode] that is not yet
    expanded only expands it: [N] is incremented, the result is [None], no
    random sample is drawn, every legal action gets exactly one child, and
    no child is visited.  For the two-action node whose successors are
    terminal with outcomes 1 and 0 for owner 0 (prior [[1/2, 1/2]]), the
    children are terminal with [Q = (1,1)] and [Q = (0,0)] and zero visits. *)
Theorem C5_first_visit_expands_only :
  (forall (IS : Type) (ops : InfoSetOps IS) (model : Model IS) (np_sqrt : Q -> Q)
          (perturb_prob_simplex : list Interval -> list Q -> Q -> Interval)
          (uniform : nat -> Q) (fuel : nat) (self self' : Node IS)
          (r : option Action) (w w' : World),
      is_action self = true -> terminal self = false ->
      expanded_of self = false -> children self = [] ->
      visit ops model np_sqrt perturb_prob_simplex uniform (S fuel) self w
      = Ok (self', r, w') ->
      r = None /\ w' = w
      /\ ActionNode_expand ops model (incr_N self) = Ok self'
      /\ N_of self' = S (N_of self)
      /\ expanded_of self' = true
      /\ NoDup (keys (children self'))
      /\ (forall a, In a (keys (children self')) <-> In a (actions_of self))
      /\ (NoDup (actions_of self) -> keys (children self') = actions_of self)
      /\ (forall kv, In kv (children self') ->
            N_of (node (snd kv)) = 0%nat /\ children (node (snd kv)) = []))
  /\ (exists root w root',
         Toy.fresh_root Toy.g2 = Ok (root, w)
         /\ tree_owner (base root) = Some 0%Z
         /\ Toy.toy_visit 1 root w = Ok (root', None, w)
         /\ P_of root' = Some [1 # 2; 1 # 2]
         /\ N_of root' = 1%nat
         /\ edge_summary root'
            = [(0%Z, 0%nat, true, (1, 1), 0%nat, 0%nat);
               (1%Z, 1%nat, true, (0, 0), 0%nat, 0%nat)]).
Proof.
  split.
  - intros IS ops model np_sqrt perturb uniform fuel self self' r w w'
           Ha Ht He Hch E.
    rewrite visit_expansion_only in E by assumption.
    destruct (ActionNode_expand ops model (incr_N self)) as [s1| |] eqn:Ex;
      simpl in E; try discriminate.
    inversion E; subst s1 r w'; clear E.
    assert (Ht' : terminal (incr_N self) = false) by now autorewrite with node.
    assert (Hch' : children (incr_N self) = []) by now autorewrite with node.
    destruct (expansion_children ops model _ _ Ht' Hch' Ex) as (H1 & H2 & H3 & H4).
    destruct (ActionNode_expand_N ops model _ _ Ex) as (HN & _ & Hexp & _).
    autorewrite with node in *.
    repeat split; auto.
    + apply H2.
    + apply H2.
    + intros Hnd. apply H4; assumption.
    + apply (H3 kv H).
    + apply (H3 kv H).
  - do 3 eexists. split; [vm_compute; reflexivity|].
    split; [reflexivity|]. split; [vm_compute; reflexivity|].
    split; [reflexivity|]. split; reflexivity.
Qed.

Lemma C5_witness :
  exists root w root',
    Toy.fresh_root Toy.g_hidden = Ok (root, w)
    /\ Toy.toy_visit 1 root w = Ok (root', None, w)
    /\ N_of root' = 1%nat
    /\ keys (children root') = [0%Z; 1%Z].
Proof.
  destruct (Toy.fresh_root Toy.g_hidden) as [[root w]| |] eqn:E;
    try (vm_compute in E; discriminate).
  destruct (Toy.toy_visit 1 root w) as [[[root' r] w']| |] eqn:Ev;
    try (inversion E; subst; vm_compute in Ev; discriminate).
  assert (Ha : is_action root = true) by (inversion E; reflexivity).
  assert (Ht : terminal root = false) by (inversion E; reflexivity).
  assert (He : expanded_of root = false) by (inversion E; reflexivity).
  assert (Hc : children root = []) by (inversion E; reflexivity).
  assert (HN : N_of root = 0%nat) by (inversion E; reflexivity).
  assert (Hacts : actions_of root = [0%Z; 1%Z]) by (inversion E; reflexivity).
  unfold Toy.toy_visit in Ev.
  destruct (proj1 C5_first_visit_expands_only _ _ _ _ _ _ _ _ _ _ _ _
                  Ha Ht He Hc Ev) as (-> & -> & _ & H4 & _ & _ & _ & H8 & _).
  exists root, w, root'. repeat split; auto.
  - congruence.
  - rewrite <- Hacts. apply H8. rewrite Hacts.
    repeat constructor; simpl; intuition discriminate.
Defined.

(** ** More accessor facts *)

Section NodeFacts2.
Context {IS : Type}.
Implicit Types (n : Node IS) (b : Base IS) (c : dict (Edge IS)).

Lemma V_set_base n b : V_of (set_base n b) = V_of n.
Proof. unfold V_of; now rewrite kind_set_base. Qed.
Lemma V_set_children n c : V_of (set_children n c) = V_of n.
Proof. unfold V_of; now rewrite kind_set_children. Qed.
Lemma is_action_set_base n b : is_action (set_base n b) = is_action n.
Proof. unfold is_action; now rewrite kind_set_base. Qed.
Lemma is_action_set_children n c : is_action (set_children n c) = is_action n.
Proof. unfold is_action; now rewrite kind_set_children. Qed.
Lemma expanded_set_base n b : expanded_of (set_base n b) = expanded_of n.
Proof. unfold expanded_of; now rewrite kind_set_base. Qed.
Lemma expanded_set_children n c : expanded_of (set_children n c) = expanded_of n.
Proof. unfold expanded_of; now rewrite kind_set_children. Qed.
Lemma spawned_set_base n b : spawned_tree_of (set_base n b) = spawned_tree_of n.
Proof. unfold spawned_tree_of; now rewrite kind_set_base. Qed.
Lemma spawned_set_children n c :
  spawned_tree_of (set_children n c) = spawned_tree_of n.
Proof. unfold spawned_tree_of; now rewrite kind_set_children. Qed.
Lemma P_set_base n b : P_of (set_base n b) = P_of n.
Proof. unfold P_of; now rewrite kind_set_base. Qed.
Lemma P_set_children n c : P_of (set_children n c) = P_of n.
Proof. unfold P_of; now rewrite kind_set_children. Qed.
Lemma expanded_set_spawned n (t : option (Tree IS)) :
  expanded_of (set_spawned_tree n t) = expanded_of n.
Proof.
  unfold set_spawned_tree, expanded_of; destruct (kind n) eqn:E;
    [rewrite kind_set_kind | rewrite E]; reflexivity.
Qed.
End NodeFacts2.

#[export] Hint Rewrite
  @V_set_base @V_set_children @is_action_set_base @is_action_set_children
  @expanded_set_base @expanded_set_children @spawned_set_base
  @spawned_set_children @P_set_base @P_set_children @expanded_set_spawned : node.

(** ** Case analysis of a visit that returns *)

Section VisitCases.
Context {IS : Type}.
Variable ops : InfoSetOps IS.
Variable model : Model IS.
Variable np_sqrt : Q -> Q.
Variable perturb_prob_simplex : list Interval -> list Q -> Q -> Interval.
Variable uniform : nat -> Q.

Local Abbreviation updQ := (update_Q perturb_prob_simplex).
Local Abbreviation vchild := (visit_child perturb_prob_simplex).
Local Abbreviation unspawned :=
  (unspawned_visit np_sqrt perturb_prob_simplex uniform).
Local Abbreviation spawned := (spawned_visit perturb_prob_simplex).
Local Abbreviation sampling :=
  (SamplingNode_visit ops model perturb_prob_simplex uniform).

Variable vis : Node IS -> M (Node IS * option Action).

Lemma update_Q_inv (self child self' : Node IS) (probs : option (list Q)) :
  updQ self child probs = Ok self' ->
  exists ui V,
    calc_union_interval perturb_prob_simplex self probs = Ok ui
    /\ V_of self = Some V
    /\ children self' = children self /\ kind self' = kind self
    /\ base self'
       = with_residual (with_Q (base self) (interval_add ui (residual_of child)))
           (running_residual (residual_of self) (N_of self)
              (interval_add ui (residual_of child)) V).
Proof.
  unfold update_Q.
  destruct (calc_union_interval _ self probs) as [ui| |]; simpl; try discriminate.
  rewrite V_set_base.
  destruct (V_of self) as [V|]; simpl; try discriminate.
  intros E; inversion E; subst self'; clear E.
  exists ui, V. autorewrite with node.
  unfold residual_of, N_of, Q_of. autorewrite with node. auto.
Qed.

Lemma visit_child_inv (self self' : Node IS) (key : Z) (probs : option (list Q))
  (w w' : World) :
  vchild vis self key probs w = Ok (self', w') ->
  exists e child r,
    dict_get (children self) key = Some e
    /\ vis (node e) w = Ok (child, r, w')
    /\ updQ (set_children self (replace_child (children self) key child))
                child probs = Ok self'.
Proof.
  unfold visit_child, child_at, mbind, lift.
  destruct (dict_get (children self) key) as [e|]; try discriminate.
  destruct (vis (node e) w) as [[[child r] w1]| |] eqn:Ev; try discriminate.
  destruct (update_Q _ _ child probs) as [s| |] eqn:Eu; try discriminate.
  intros E; inversion E; subst. exists e, child, r. auto.
Qed.

Lemma unspawned_visit_inv (self self' : Node IS) (r : option Action) (w w' : World) :
  unspawned vis self w = Ok (self', r, w') ->
  exists action_index action w1,
    select_action_index np_sqrt uniform self w = Ok (action_index, w1)
    /\ py_index (actions_of self) (Z.of_nat action_index) = Ok action
    /\ vchild vis self action (P_of self) w1 = Ok (self', w')
    /\ r = Some action.
Proof.
  unfold unspawned_visit, mbind, lift, mret.
  destruct (select_action_index np_sqrt uniform self w) as [[i w1]| |] eqn:Es;
    try discriminate.
  destruct (py_index (actions_of self) (Z.of_nat i)) as [a| |] eqn:Ep;
    try discriminate.
  destruct (visit_child _ vis self a (P_of self) w1) as [[s w2]| |] eqn:E;
    try discriminate.
  intros E'; inversion E'; subst. exists i, a, w1. auto.
Qed.

Lemma spawned_visit_inv (self self' : Node IS) (t : Tree IS) (w w' : World) :
  spawned vis self t w = Ok (self', w') ->
  exists t1 w1 r1 action w2,
    bootstrapped vis t t1 w w1
    /\ vis (root t1) w1 = Ok (r1, Some action, w2)
    /\ vchild vis
         (set_spawned_tree self (Some (mkTree r1 (tree_owner_of t1) (tree_id t1))))
         action
         (P_of (set_spawned_tree self
                  (Some (mkTree r1 (tree_owner_of t1) (tree_id t1)))))
         w2
       = Ok (self', w').
Proof.
  unfold spawned_visit, bootstrapped.
  intros E. apply mbind_ok in E. destruct E as (t1 & w1 & E1 & E).
  apply mbind_ok in E. destruct E as ([r1 action] & w2 & E2 & E).
  destruct action as [action|]; [|discriminate].
  exists t1, w1, r1, action, w2. split; [|split; assumption].
  destruct (N_of (root t) =? 0)%nat eqn:EN.
  - left. apply Nat.eqb_eq in EN. split; [assumption|].
    apply mbind_ok in E1. destruct E1 as ([r0 a0] & w0 & E0 & E1).
    apply mret_ok in E1. destruct E1 as [-> ->]. eauto.
  - right. apply Nat.eqb_neq in EN. apply mret_ok in E1. tauto.
Qed.

Lemma SamplingNode_visit_inv (self self' : Node IS) (r : option Action)
  (w w' : World) :
  sampling vis self w = Ok (self', r, w') ->
  r = None
  /\ exists self1 w1 H h w2,
      (if negb (expanded_of (incr_N self))
       then SamplingNode_expand ops model (incr_N self) w = Ok (self1, w1)
       else self1 = incr_N self /\ w1 = w)
      /\ H_of self1 = Some H
      /\ np_random_choice uniform (length H) H w1 = Ok (h, w2)
      /\ vchild vis self1 (Z.of_nat h) (H_of self1) w2 = Ok (self', w').
Proof.
  unfold SamplingNode_visit.
  intros E. apply mbind_ok in E. destruct E as (self1 & w1 & E1 & E).
  apply mbind_ok in E. destruct E as (H & w1' & E2 & E).
  apply lift_ok in E2. destruct E2 as [E2 ->]. apply opt_get_ok in E2.
  apply mbind_ok in E. destruct E as (h & w2 & E3 & E).
  apply mbind_ok in E. destruct E as (s & w3 & E4 & E).
  apply mret_ok in E. destruct E as [E ->]. inversion E; subst.
  split; [reflexivity|]. exists self1, w1, H, h, w2.
  repeat split; auto.
  destruct (negb (expanded_of (incr_N self))); [assumption|].
  apply mret_ok in E1. tauto.
Qed.

End VisitCases.

Section VisitInv.
Context {IS : Type}.
Variable ops : InfoSetOps IS.
Variable model : Model IS.
Variable np_sqrt : Q -> Q.
Variable perturb_prob_simplex : list Interval -> list Q -> Q -> Interval.
Variable uniform : nat -> Q.

Local Abbreviation visit' := (visit ops model np_sqrt perturb_prob_simplex uniform).

Lemma visit_inv (fuel : nat) (self self' : Node IS) (r : option Action)
  (w w' : World) :
  visit' fuel self w = Ok (self', r, w') ->
  exists fuel',
    fuel = S fuel'
    /\ visit_path ops model np_sqrt perturb_prob_simplex uniform fuel' self self'
                  r w w'.
Proof.
  destruct fuel as [|fuel']; [discriminate|]. intros E. exists fuel'.
  split; [reflexivity|]. simpl in E. unfold visit_body in E.
  destruct (is_action self) eqn:Ha; [|now apply path_sampling].
  unfold ActionNode_visit in E. autorewrite with node in E.
  destruct (terminal self) eqn:Ht.
  - apply mret_ok in E. destruct E as [E ->]. inversion E; subst.
    now apply path_terminal.
  - destruct (expanded_of self) eqn:He; simpl in E.
    + destruct (spawned_tree_of self) as [t|] eqn:Hs.
      * apply mbind_ok in E. destruct E as (s & w1 & E1 & E).
        apply mret_ok in E. destruct E as [E ->]. inversion E; subst.
        now apply path_spawned with (t := t).
      * now apply path_unspawned.
    + apply mbind_ok in E. destruct E as (s & w1 & E1 & E).
      apply lift_ok in E1. destruct E1 as [E1 ->].
      apply mret_ok in E. destruct E as [E ->]. inversion E; subst.
      now apply path_expand.
Qed.

Lemma py_index_In {A} (l : list A) (i : Z) (x : A) : py_index l i = Ok x -> In x l.
Proof.
  unfold py_index. destruct (_ && _)%bool; [|discriminate].
  destruct (nth_error l _) eqn:E; [|discriminate].
  intros E'; inversion E'; subst. eapply nth_error_In; eauto.
Qed.

(** The result of [visit] is an action exactly on the selection path. *)
Lemma visit_returns_action (fuel : nat) (self self' : Node IS)
  (r : option Action) (w w' : World) :
  visit' fuel self w = Ok (self', r, w') ->
  ((exists a, r = Some a) <->
   is_action self = true /\ terminal self = false
   /\ expanded_of self = true /\ spawned_tree_of self = None)
  /\ (forall a, r = Some a ->
        In a (actions_of self)
        /\ exists e, dict_get (children self) a = Some e).
Proof.
  intros E. apply visit_inv in E. destruct E as (fuel' & -> & [| |t| |]).
  - subst. split; [split; [intros [a Ha]; discriminate | intros (_ & Hf & _); congruence]
                  | intros a Ha; discriminate].
  - subst. split; [split; [intros [a Ha]; discriminate | intros (_ & _ & Hf & _); congruence]
                  | intros a Ha; discriminate].
  - subst. split; [split; [intros [a Ha]; discriminate | intros (_ & _ & _ & Hf); congruence]
                  | intros a Ha; discriminate].
  - apply unspawned_visit_inv in H3.
    destruct H3 as (i & a & w1 & _ & Hidx & Hvc & ->).
    apply visit_child_inv in Hvc. destruct Hvc as (e & child & r' & Hget & _).
    autorewrite with node in *.
    split; [split; eauto|].
    intros a' Ha'; inversion Ha'; subst. split; [eapply py_index_In; eauto | eauto].
  - apply SamplingNode_visit_inv in H0. destruct H0 as [-> _].
    split; [split; [intros [a Ha]; discriminate | intros (Hf & _); congruence]
           | intros a Ha; discriminate].
Qed.
End VisitInv.

(** C10. [ActionNode.visit] returns the selected action only when the node
    is not terminal, already expanded and has no spawned tree; on a terminal
    node, on the expansion-only visit and on the spawned path it returns
    [None], and [SamplingNode.visit] always returns [None].  Hence the
    lookup [self.children[action]] of [spawned_visit] succeeds only when the
    visit of the spawned root took the selection path; when that visit
    returns [None] the lookup raises [KeyError]. *)
Theorem C10_visit_returns_action_only_on_selection_path :
  forall (IS : Type) (ops : InfoSetOps IS) (model : Model IS) (np_sqrt : Q -> Q)
         (perturb_prob_simplex : list Interval -> list Q -> Q -> Interval)
         (uniform : nat -> Q),
    let visit := visit ops model np_sqrt perturb_prob_simplex uniform in
    (forall fuel self self' r w w',
        visit fuel self w = Ok (self', r, w') ->
        ((exists a, r = Some a) <->
         is_action self = true /\ terminal self = false
         /\ expanded_of self = true /\ spawned_tree_of self = None)
        /\ (is_action self = false -> r = None)
        /\ (forall a, r = Some a ->
              In a (actions_of self)
              /\ exists e, dict_get (children self) a = Some e))
    /\ (forall fuel self self' t w w',
           spawned_visit perturb_prob_simplex (visit fuel) self t w = Ok (self', w') ->
           exists t1 w1 r1 action w2,
             bootstrapped (visit fuel) t t1 w w1
             /\ visit fuel (root t1) w1 = Ok (r1, Some action, w2)
             /\ is_action (root t1) = true /\ terminal (root t1) = false
             /\ expanded_of (root t1) = true /\ spawned_tree_of (root t1) = None
             /\ exists e, dict_get (children self) action = Some e)
    /\ (forall fuel self t t1 w w1 r1 w2,
           bootstrapped (visit fuel) t t1 w w1 ->
           visit fuel (root t1) w1 = Ok (r1, None, w2) ->
           spawned_visit perturb_prob_simplex (visit fuel) self t w = Raise KeyError).
Proof.
  intros IS ops model np_sqrt perturb uniform visit. split; [|split].
  - intros fuel self self' r w w' E.
    destruct (visit_returns_action _ _ _ _ _ _ _ _ _ _ _ E) as [H1 H2].
    split; [exact H1|]. split; [|exact H2].
    intros Hf. destruct r as [a|]; [|reflexivity].
    destruct (proj1 H1 (ex_intro _ a eq_refl)) as (Ha & _). congruence.
  - intros fuel self self' t w w' E.
    apply spawned_visit_inv in E.
    destruct E as (t1 & w1 & r1 & action & w2 & Hb & Hv & Hc).
    exists t1, w1, r1, action, w2. split; [exact Hb|]. split; [exact Hv|].
    destruct (visit_returns_action _ _ _ _ _ _ _ _ _ _ _ Hv) as [H1 _].
    destruct (proj1 H1 (ex_intro _ action eq_refl)) as (Ha & Ht & He & Hs).
    repeat (split; [assumption|]).
    apply visit_child_inv in Hc. destruct Hc as (e & child & r' & Hget & _).
    autorewrite with node in Hget. eauto.
  - intros fuel self t t1 w w1 r1 w2 Hb Hv.
    unfold spawned_visit, mbind.
    destruct Hb as [(HN & r0 & a0 & Hv0 & ->)|(HN & -> & ->)].
    + rewrite HN; simpl. fold visit. rewrite Hv0. unfold mret. simpl in *.
      fold visit. rewrite Hv. reflexivity.
    + apply Nat.eqb_neq in HN. rewrite HN. unfold mret. fold visit.
      rewrite Hv. reflexivity.
Qed.

(** ** Expansion of a [SamplingNode] *)

Section SamplingExpand.
Context {IS : Type}.
Variable ops : InfoSetOps IS.
Variable model : Model IS.

Lemma fresh_leaf_fresh (n : Node IS) : fresh_leaf n -> fresh n.
Proof.
  unfold fresh_leaf, fresh. intros (H1 & H2 & H3 & H4 & H5 & H6).
  rewrite H6. auto 10.
Qed.

Lemma evaluated_fresh (n n' : Node IS) : evaluated_from n n' -> fresh n -> fresh n'.
Proof.
  unfold evaluated_from, fresh, N_of, residual_of, Q_of.
  intros (Hc & Ha & He & Hs & _ & _ & Hb) (H1 & H2 & H3 & H4 & H5 & H6).
  rewrite Hc, He, Hs.
  destruct Hb as [->|[V ->]]; simpl; auto 10.
Qed.

Lemma Tree_init_inv (r : Node IS) (t : Tree IS) (w w' : World) :
  Tree_init ops r w = Ok (t, w') ->
  root t = set_base r (with_tree_owner (base r)
                         (Some (get_current_player ops (info_set (base r)))))
  /\ tree_owner_of t = get_current_player ops (info_set (base r))
  /\ tree_id t = next_id w
  /\ w' = mkWorld (S (next_id w)) (draws w).
Proof. unfold Tree_init. intros E; inversion E; subst; simpl; auto. Qed.

Lemma create_spawned_tree_fresh (s : IS) (t : Tree IS) (w w' : World) :
  create_spawned_tree ops s w = Ok (t, w') ->
  fresh_leaf (root t) /\ is_action (root t) = true /\ draws w' = draws w.
Proof.
  unfold create_spawned_tree. intros E.
  apply mbind_ok in E. destruct E as (r & w1 & E1 & E).
  apply lift_ok in E1. destruct E1 as [E1 ->].
  apply ActionNode_init_fresh in E1. destruct E1 as (Hf & Ha & _).
  apply Tree_init_inv in E. destruct E as (-> & _ & _ & ->).
  unfold fresh_leaf, N_of, residual_of, Q_of in *.
  autorewrite with node. simpl. tauto.
Qed.

Lemma SamplingNode_new_child_fresh (self c : Node IS) (h : nat) (w w' : World) :
  SamplingNode_new_child ops model self h w = Ok (c, w') ->
  fresh c /\ draws w' = draws w.
Proof.
  unfold SamplingNode_new_child.
  destruct (has_hidden_info ops _).
  - destruct (negb _); [discriminate|]. intros E.
    apply mbind_ok in E. destruct E as (? & ? & _ & E).
    apply mbind_ok in E. destruct E as (? & ? & _ & E).
    apply mbind_ok in E. destruct E as (? & ? & _ & E).
    apply mbind_ok in E. destruct E as (? & ? & _ & E). discriminate.
  - intros E.
    apply mbind_ok in E. destruct E as (Vc & w1 & E1 & E).
    apply lift_ok in E1. destruct E1 as [_ ->].
    apply mbind_ok in E. destruct E as (v & w1 & E1 & E).
    apply lift_ok in E1. destruct E1 as [_ ->].
    apply mbind_ok in E. destruct E as (c0 & w1 & E1 & E).
    apply lift_ok in E1. destruct E1 as [E1 ->].
    apply mbind_ok in E. destruct E as (t & w1 & E2 & E).
    apply lift_ok in E. destruct E as [E ->]. simpl in E.
    apply create_spawned_tree_fresh in E2. destruct E2 as (Ht & _ & Hd).
    apply ActionNode_init_fresh in E1. destruct E1 as (Hf & Ha & _).
    apply eval_model_from in E. split; [|assumption].
    apply (evaluated_fresh _ _ E).
    unfold fresh_leaf, fresh, N_of, residual_of, Q_of, spawned_tree_of,
      expanded_of, set_spawned_tree, is_action in *.
    destruct (kind c0) eqn:Ek; [|discriminate].
    autorewrite with node. simpl.
    unfold fresh_leaf, N_of, residual_of, Q_of, expanded_of, spawned_tree_of.
    tauto.
Qed.

Lemma mfoldM_inv {A B} (f : B -> A -> M B) (P : B -> World -> Prop) (l : list A) :
  (forall b x b' w w', In x l -> P b w -> f b x w = Ok (b', w') -> P b' w') ->
  forall b b' w w', P b w -> mfoldM f l b w = Ok (b', w') -> P b' w'.
Proof.
  induction l as [|x l IH]; simpl; intros Hstep b b' w w' Hb E.
  - apply mret_ok in E. destruct E as [-> ->]. assumption.
  - apply mbind_ok in E. destruct E as (b1 & w1 & E1 & E).
    eapply IH; [| |exact E]; eauto.
Qed.

Lemma SamplingNode_expand_child_inv (self self' : Node IS) (h : nat) (w w' : World) :
  SamplingNode_expand_child ops model self h w = Ok (self', w') ->
  exists c, fresh c /\ self' = add_child self (Z.of_nat h) c /\ draws w' = draws w.
Proof.
  unfold SamplingNode_expand_child. intros E.
  apply mbind_ok in E. destruct E as (c & w1 & E1 & E).
  apply mret_ok in E. destruct E as [-> ->].
  apply SamplingNode_new_child_fresh in E1. exists c. tauto.
Qed.

(** What [SamplingNode.expand] changes. *)
Lemma SamplingNode_expand_inv (self self' : Node IS) (w w' : World) :
  SamplingNode_expand ops model self w = Ok (self', w') ->
  (base self' = base self \/ exists V, base self' = with_Q (base self) (V, V))
  /\ is_action self' = is_action self
  /\ expanded_of self' = true
  /\ draws w' = draws w
  /\ (forall kv, In kv (children self') ->
        In kv (children self) \/ fresh (node (snd kv)))
  /\ (NoDup (keys (children self)) -> NoDup (keys (children self')))
  /\ spawned_tree_of self' = spawned_tree_of self.
Proof.
  unfold SamplingNode_expand. intros E.
  apply mbind_ok in E. destruct E as (s1 & w1 & E1 & E).
  apply lift_ok in E1. destruct E1 as [E1 ->].
  apply mbind_ok in E. destruct E as (s2 & w2 & E2 & E).
  apply mret_ok in E. destruct E as [-> ->].
  apply SamplingNode_eval_model_from in E1.
  destruct E1 as (Hc & Ha & _ & Hsp & _ & _ & Hb).
  pose (P := fun (s : Node IS) (w1 : World) =>
               base s = base s1 /\ kind s = kind s1
               /\ draws w1 = draws w
               /\ (forall kv, In kv (children s) ->
                     In kv (children s1) \/ fresh (node (snd kv)))
               /\ (NoDup (keys (children s1)) -> NoDup (keys (children s)))).
  assert (HP : P s2 w2).
  { eapply (mfoldM_inv (SamplingNode_expand_child ops model) P); [| |exact E2].
    - intros b x b' wa wb _ (P1 & P2 & P3 & P4 & P5) Eb.
      apply SamplingNode_expand_child_inv in Eb.
      destruct Eb as (c & Hf & -> & Hd).
      unfold P. autorewrite with node.
      repeat split; auto; try congruence.
      + intros kv Hin. apply In_dict_set in Hin.
        destruct Hin as [->|Hin]; [right; exact Hf | auto].
      + intros Hnd. apply NoDup_keys_dict_set. auto.
    - unfold P. repeat split; auto. }
  destruct HP as (P1 & P2 & P3 & P4 & P5).
  autorewrite with node. rewrite P1, <- Hc, <- Ha, <- Hsp.
  unfold is_action, spawned_tree_of. rewrite P2.
  repeat split; auto.
Qed.
End SamplingExpand.

(** ** Visit counts and the residual *)

Section Counting.
Context {IS : Type}.
Variable ops : InfoSetOps IS.
Variable model : Model IS.
Variable np_sqrt : Q -> Q.
Variable perturb_prob_simplex : list Interval -> list Q -> Q -> Interval.
Variable uniform : nat -> Q.

Local Abbreviation visit' := (visit ops model np_sqrt perturb_prob_simplex uniform).

(** The effect of the common tail of the three recursing visits. *)
Lemma visit_child_frame (vis : Node IS -> M (Node IS * option Action))
  (self self' : Node IS) (key : Z) (probs : option (list Q)) (w w' : World) :
  visit_child perturb_prob_simplex vis self key probs w = Ok (self', w') ->
  exists e child r ui V,
    dict_get (children self) key = Some e
    /\ vis (node e) w = Ok (child, r, w')
    /\ children self' = replace_child (children self) key child
    /\ kind self' = kind self
    /\ N_of self' = N_of self
    /\ V_of self = Some V
    /\ calc_union_interval perturb_prob_simplex
         (set_children self (replace_child (children self) key child)) probs
       = Ok ui
    /\ Q_of self' = interval_add ui (residual_of child)
    /\ residual_of self'
       = running_residual (residual_of self) (N_of self) (Q_of self') V
    /\ info_set (base self') = info_set (base self)
    /\ game_outcome (base self') = game_outcome (base self)
    /\ tree_owner (base self') = tree_owner (base self).
Proof.
  intros E. apply visit_child_inv in E.
  destruct E as (e & child & r & Hget & Hv & Hu).
  apply update_Q_inv in Hu.
  destruct Hu as (ui & V & Hui & HV & Hc & Hk & Hb).
  autorewrite with node in *.
  exists e, child, r, ui, V.
  unfold N_of, Q_of, residual_of in *. autorewrite with node in *.
  rewrite Hb. simpl. repeat split; auto.
Qed.

(** Every visit that returns has incremented [N] by exactly one. *)
Lemma visit_N (fuel : nat) (self self' : Node IS) (r : option Action)
  (w w' : World) :
  visit' fuel self w = Ok (self', r, w') -> N_of self' = S (N_of self).
Proof.
  intros E. apply visit_inv in E. destruct E as (fuel' & -> & [| |t| |]).
  - subst. now autorewrite with node.
  - apply ActionNode_expand_N in H2. destruct H2 as (-> & _).
    now autorewrite with node.
  - apply spawned_visit_inv in H3.
    destruct H3 as (t1 & w1 & r1 & action & w2 & _ & _ & Hc).
    apply visit_child_frame in Hc.
    destruct Hc as (e & child & r' & ui & V & _ & _ & _ & _ & -> & _).
    unfold N_of. now autorewrite with node.
  - apply unspawned_visit_inv in H3.
    destruct H3 as (i & a & w1 & _ & _ & Hc & _).
    apply visit_child_frame in Hc.
    destruct Hc as (e & child & r' & ui & V & _ & _ & _ & _ & -> & _).
    now autorewrite with node.
  - apply SamplingNode_visit_inv in H0.
    destruct H0 as (_ & self1 & w1 & Hd & h & w2 & Hex & _ & _ & Hc).
    apply visit_child_frame in Hc.
    destruct Hc as (e & child & r' & ui & V & _ & _ & _ & _ & -> & _).
    destruct (negb (expanded_of (incr_N self))).
    + apply SamplingNode_expand_inv in Hex. destruct Hex as (Hb & _).
      unfold N_of in *. destruct Hb as [->|[V' ->]]; now autorewrite with node.
    + destruct Hex as [-> _]. now autorewrite with node.
Qed.

(** The residual after a visit. *)
Lemma visit_residual (fuel : nat) (self self' : Node IS) (r : option Action)
  (w w' : World) :
  visit' fuel self w = Ok (self', r, w') ->
  if recursing self
  then exists V,
      V_of self' = Some V
      /\ residual_of self'
         = running_residual (residual_of self) (N_of self') (Q_of self') V
  else residual_of self' = residual_of self.
Proof.
  intros E. pose proof (visit_N _ _ _ _ _ _ E) as HN.
  apply visit_inv in E. destruct E as (fuel' & -> & [| |t| |]); unfold recursing.
  - rewrite H, H0. subst. now autorewrite with node.
  - rewrite H, H0, H1. simpl.
    apply ActionNode_expand_N in H2. destruct H2 as (_ & -> & _).
    now autorewrite with node.
  - rewrite H, H0, H1. simpl.
    apply spawned_visit_inv in H3.
    destruct H3 as (t1 & w1 & r1 & action & w2 & _ & _ & Hc).
    apply visit_child_frame in Hc.
    destruct Hc as (e & child & r' & ui & V & _ & _ & _ & Hk & HN' & HV & _ & _ & Hr & _).
    exists V. unfold V_of in *. rewrite Hk. split; [exact HV|].
    rewrite Hr, <- HN'. unfold residual_of. now autorewrite with node.
  - rewrite H, H0, H1. simpl.
    apply unspawned_visit_inv in H3.
    destruct H3 as (i & a & w1 & _ & _ & Hc & _).
    apply visit_child_frame in Hc.
    destruct Hc as (e & child & r' & ui & V & _ & _ & _ & Hk & HN' & HV & _ & _ & Hr & _).
    exists V. unfold V_of in *. rewrite Hk. split; [exact HV|].
    rewrite Hr, <- HN'. now autorewrite with node.
  - rewrite H.
    apply SamplingNode_visit_inv in H0.
    destruct H0 as (_ & self1 & w1 & Hd & h & w2 & Hex & _ & _ & Hc).
    apply visit_child_frame in Hc.
    destruct Hc as (e & child & r' & ui & V & _ & _ & _ & Hk & HN' & HV & _ & _ & Hr & _).
    exists V. unfold V_of in *. rewrite Hk. split; [exact HV|].
    rewrite Hr, <- HN'. f_equal.
    destruct (negb (expanded_of (incr_N self))).
    + apply SamplingNode_expand_inv in Hex. destruct Hex as (Hb & _).
      unfold residual_of. destruct Hb as [->|[V' ->]]; now autorewrite with node.
    + destruct Hex as [-> _]. now autorewrite with node.
Qed.
End Counting.

(** C7 (as stated) fails: after the second visit of the two-action root,
    [residual_Q_to_V] is a pair of two different bounds, not a scalar. *)
Lemma C7_counterexample :
  exists root w root' w' lo hi,
    Toy.fresh_root Toy.g2 = Ok (root, w)
    /\ visit_times (Toy.toy_visit 10) 2 root w = Ok (root', w')
    /\ residual_of root' = Ival (lo, hi)
    /\ lo < hi
    /\ forall v, residual_of root' <> Scalar v.
Proof.
  do 6 eexists. split; [vm_compute; reflexivity|].
  split; [vm_compute; reflexivity|].
  split; [reflexivity|]. split; [reflexivity | discriminate].
Qed.

(** C7 (amended). [residual_Q_to_V] starts as the scalar 0.  A visit that
    recurses into a child replaces it by the pair obtained by applying
    [((N - 1) * residual + (Q - V)) / N] to both bounds, with [N] the visit
    count after the increment, [Q] the interval just recomputed and [V] the
    node's point estimate; a visit that does not recurse leaves it
    unchanged. *)
Theorem C7_residual_is_componentwise_running_mean :
  forall (IS : Type) (ops : InfoSetOps IS) (model : Model IS) (np_sqrt : Q -> Q)
         (perturb_prob_simplex : list Interval -> list Q -> Q -> Interval)
         (uniform : nat -> Q),
    (forall s owner initQ n,
        ActionNode_init ops s owner initQ = Ok n
        \/ SamplingNode_init ops s owner initQ = Ok n ->
        residual_of n = Scalar 0)
    /\ (forall fuel self self' r w w',
           visit ops model np_sqrt perturb_prob_simplex uniform fuel self w
           = Ok (self', r, w') ->
           if recursing self
           then exists V,
               V_of self' = Some V
               /\ residual_of self'
                  = Ival
                      ((fst (to_interval (residual_of self))
                        * inject_Z (Z.of_nat (N_of self') - 1)
                        + fst (Q_of self') - V) / nat2q (N_of self'),
                       (snd (to_interval (residual_of self))
                        * inject_Z (Z.of_nat (N_of self') - 1)
                        + snd (Q_of self') - V) / nat2q (N_of self'))
           else residual_of self' = residual_of self).
Proof.
  intros IS ops model np_sqrt perturb uniform. split.
  - intros s owner initQ n [E|E].
    + unfold ActionNode_init, Node_init in E; simpl in E.
      destruct (get_game_outcome ops s); [|inversion E; reflexivity].
      apply rbind_ok in E. destruct E as (v & _ & E). inversion E; reflexivity.
    + unfold SamplingNode_init, Node_init in E; simpl in E.
      destruct (existsb _ _); inversion E; reflexivity.
  - intros fuel self self' r w w' E.
    exact (visit_residual _ _ _ _ _ _ _ _ _ _ _ E).
Qed.

Lemma C7_witness :
  exists root w root1 root2 r w2 V,
    Toy.fresh_root Toy.g2 = Ok (root, w)
    /\ Toy.toy_visit 10 root w = Ok (root1, None, w)
    /\ residual_of root1 = residual_of root
    /\ Toy.toy_visit 10 root1 w = Ok (root2, r, w2)
    /\ V_of root2 = Some V
    /\ residual_of root2
       = Ival ((fst (to_interval (residual_of root1))
                * inject_Z (Z.of_nat (N_of root2) - 1)
                + fst (Q_of root2) - V) / nat2q (N_of root2),
               (snd (to_interval (residual_of root1))
                * inject_Z (Z.of_nat (N_of root2) - 1)
                + snd (Q_of root2) - V) / nat2q (N_of root2)).
Proof.
  destruct (Toy.fresh_root Toy.g2) as [[root w]| |] eqn:E;
    try (vm_compute in E; discriminate).
  destruct (Toy.toy_visit 10 root w) as [[[root1 r1] w1]| |] eqn:E1;
    try (inversion E; subst; vm_compute in E1; discriminate).
  destruct (Toy.toy_visit 10 root1 w1) as [[[root2 r] w2]| |] eqn:E2;
    try (inversion E; subst; vm_compute in E1; inversion E1; subst;
         vm_compute in E2; discriminate).
  assert (Er : r1 = None /\ w1 = w).
  { inversion E; subst. vm_compute in E1. inversion E1; auto. }
  destruct Er as [-> ->].
  assert (Hr0 : recursing root = false) by (inversion E; reflexivity).
  assert (Hr1 : recursing root1 = true).
  { inversion E; subst. vm_compute in E1. inversion E1; reflexivity. }
  pose proof (proj2 (C7_residual_is_componentwise_running_mean
                       _ Toy.toy_ops Toy.toy_model Toy.sqrt6
                       perturb_prob_simplex_spec (Toy.const_uniform (1 # 3))))
    as H.
  pose proof (H 10%nat root root1 None w w E1) as H0. rewrite Hr0 in H0.
  pose proof (H 10%nat root1 root2 r w w2 E2) as H1. rewrite Hr1 in H1.
  destruct H1 as (V & HV & HR).
  exists root, w, root1, root2, r, w2, V.
  split; [reflexivity|]. split; [exact E1|]. split; [exact H0|].
  split; [exact E2|]. split; [exact HV | exact HR].
Defined.

(** ** Ordered intervals everywhere *)

Section AllNodes.
Context {IS : Type}.
Variable P : Node IS -> Prop.

Lemma all_nodes_unfold (n : Node IS) :
  all_nodes P n <->
  P n
  /\ Forall (fun kv => all_nodes P (node (snd kv))) (children n)
  /\ match spawned_tree_of n with
     | Some t => all_nodes P (root t)
     | None => True
     end.
Proof.
  destruct n as [b ch k]. simpl.
  assert (Hch : (fix go (l : dict (Edge IS)) : Prop :=
                   match l with
                   | [] => True
                   | (_, mkEdge _ c) :: l' => all_nodes P c /\ go l'
                   end) ch
                <-> Forall (fun kv => all_nodes P (node (snd kv))) ch).
  { induction ch as [|[key [i c]] ch IH]; simpl.
    - split; auto.
    - rewrite IH. split.
      + intros [H1 H2]. constructor; assumption.
      + intros H. inversion H; subst. auto. }
  assert (Hk : match k with
               | KAction _ (Some (mkTree r _ _)) => all_nodes P r
               | _ => True
               end
               <-> match spawned_tree_of (mkNode b ch k) with
                   | Some t => all_nodes P (root t)
                   | None => True
                   end).
  { unfold spawned_tree_of; simpl. destruct k as [a [[r o i]|]|s]; simpl; tauto. }
  rewrite Hch, Hk. tauto.
Qed.

Lemma all_nodes_here (n : Node IS) : all_nodes P n -> P n.
Proof. intros H. apply all_nodes_unfold in H. tauto. Qed.
End AllNodes.

Lemma Forall_replace_child {IS} (R : Z * Edge IS -> Prop) (d : dict (Edge IS))
  (key : Z) (child : Node IS) :
  Forall R d ->
  (forall e, In (key, e) d -> R (key, mkEdge (index e) child)) ->
  Forall R (replace_child d key child).
Proof.
  induction d as [|[k e] d IH]; simpl; intros HF Hc; [constructor|].
  inversion HF; subst.
  destruct (Z.eqb_spec key k) as [->|Hne].
  - constructor; [apply Hc; auto | assumption].
  - constructor; [assumption | apply IH; auto].
Qed.

Lemma dict_get_In {V} (d : dict V) (k : Z) (v : V) :
  dict_get d k = Some v -> In (k, v) d.
Proof.
  induction d as [|[k' v'] d IH]; simpl; [discriminate|].
  destruct (Z.eqb_spec k k') as [->|Hne].
  - intros E; inversion E; auto.
  - auto.
Qed.

Lemma keys_replace_child {IS} (d : dict (Edge IS)) (key : Z) (child : Node IS) :
  keys (replace_child d key child) = keys d.
Proof.
  induction d as [|[k e] d IH]; simpl; [reflexivity|].
  destruct (Z.eqb_spec key k); simpl; [reflexivity | now rewrite IH].
Qed.

Lemma nat2q_pos (n : nat) : (0 < n)%nat -> 0 < nat2q n.
Proof.
  intros H. unfold nat2q, Qlt; simpl. lia.
Qed.

Lemma running_residual_ordered (r : IntervalLike) (N : nat) (q : Interval) (V : Q) :
  (0 < N)%nat -> ordered (to_interval r) -> ordered q ->
  ordered (to_interval (running_residual r N q V)).
Proof.
  unfold ordered, running_residual; simpl. intros HN Hr Hq.
  pose proof (nat2q_pos N HN) as Hpos.
  assert (Hn1 : 0 <= inject_Z (Z.of_nat N - 1)).
  { unfold Qle; simpl. lia. }
  apply Qmult_le_compat_r.
  - assert (fst (to_interval r) * inject_Z (Z.of_nat N - 1)
            <= snd (to_interval r) * inject_Z (Z.of_nat N - 1))
      by (apply Qmult_le_compat_r; assumption).
    lra.
  - apply Qlt_le_weak, Qinv_lt_0_compat. exact Hpos.
Qed.

Lemma interval_add_ordered (i : Interval) (x : IntervalLike) :
  ordered i -> ordered (to_interval x) -> ordered (interval_add i x).
Proof. unfold ordered, interval_add; simpl. lra. Qed.

Section OrderedEverywhere.
Context {IS : Type}.
Variable ops : InfoSetOps IS.
Variable model : Model IS.
Variable np_sqrt : Q -> Q.
Variable perturb_prob_simplex : list Interval -> list Q -> Q -> Interval.
Variable uniform : nat -> Q.

(** The contract of the helper: its result is an interval. *)
Hypothesis perturb_ordered :
  forall (Vc w : list Q),
    ordered (perturb_prob_simplex (map (fun v => (v, v)) Vc) w Constants.EPS).

Local Abbreviation visit' := (visit ops model np_sqrt perturb_prob_simplex uniform).
Local Abbreviation good := (all_nodes (@Q_ordered IS)).

Lemma degenerate_ordered (q : Interval) : fst q = snd q -> ordered q.
Proof. unfold ordered. intros ->. apply Qle_refl. Qed.

Lemma fresh_leaf_good (n : Node IS) : fresh_leaf n -> good n.
Proof.
  intros (H1 & H2 & H3 & H4 & H5 & H6). apply all_nodes_unfold.
  rewrite H2, H6. split; [|split; [constructor | exact I]].
  unfold Q_ordered. rewrite H3. split; [now apply degenerate_ordered|].
  unfold ordered; simpl; lra.
Qed.

Lemma fresh_good (n : Node IS) : fresh n -> good n.
Proof.
  intros (H1 & H2 & H3 & H4 & H5 & H6). apply all_nodes_unfold.
  rewrite H2. split; [|split; [constructor|]].
  - unfold Q_ordered. rewrite H3. split; [now apply degenerate_ordered|].
    unfold ordered; simpl; lra.
  - destruct (spawned_tree_of n); [now apply fresh_leaf_good | exact I].
Qed.

Lemma calc_union_interval_ordered (self : Node IS) (probs : option (list Q))
  (ui : Interval) :
  calc_union_interval perturb_prob_simplex self probs = Ok ui -> ordered ui.
Proof.
  unfold calc_union_interval. intros E.
  apply rbind_ok in E. destruct E as (p & _ & E).
  apply rbind_ok in E. destruct E as (w & _ & E).
  apply rbind_ok in E. destruct E as (Vc & _ & E).
  inversion E; subst. apply perturb_ordered.
Qed.

Lemma good_incr_N (n : Node IS) : good n -> good (incr_N n).
Proof.
  intros H. apply all_nodes_unfold in H. apply all_nodes_unfold.
  unfold Q_ordered in *. now autorewrite with node.
Qed.

Lemma visit_child_good (vis : Node IS -> M (Node IS * option Action))
  (self self' : Node IS) (key : Z) (probs : option (list Q)) (w w' : World) :
  (forall n w n' r w', good n -> vis n w = Ok (n', r, w') -> good n') ->
  good self -> (0 < N_of self)%nat ->
  visit_child perturb_prob_simplex vis self key probs w = Ok (self', w') ->
  good self'.
Proof.
  intros IH Hg HN E. apply visit_child_frame in E.
  destruct E as (e & child & r & ui & V & Hget & Hv & Hc & Hk & HN' & HV & Hui
                 & HQ & Hr & _).
  apply all_nodes_unfold in Hg. destruct Hg as ((Hq1 & Hq2) & Hch & Hsp).
  assert (Hchild : good child).
  { apply (IH _ _ _ _ _ (proj1 (Forall_forall _ _) Hch _ (dict_get_In _ _ _ Hget)) Hv). }
  pose proof (all_nodes_here _ _ Hchild) as (_ & Hcr).
  assert (HQ' : ordered (Q_of self')).
  { rewrite HQ. apply interval_add_ordered; [|exact Hcr].
    eapply calc_union_interval_ordered; eauto. }
  apply all_nodes_unfold. split; [split|split].
  - exact HQ'.
  - rewrite Hr. apply running_residual_ordered; assumption.
  - rewrite Hc. apply Forall_replace_child; [exact Hch|].
    intros e' _. exact Hchild.
  - unfold spawned_tree_of in *. rewrite Hk. exact Hsp.
Qed.

Lemma ActionNode_expand_good (self self' : Node IS) :
  good self -> ActionNode_expand ops model self = Ok self' -> good self'.
Proof.
  intros Hg E. pose proof (ActionNode_expand_N ops model _ _ E) as (_ & Hr & _ & _ & _ & Hs).
  apply all_nodes_unfold in Hg. destruct Hg as ((Hq1 & Hq2) & Hch & Hsp).
  destruct (terminal self) eqn:Ht.
  - rewrite ActionNode_expand_terminal in E by assumption. inversion E; subst.
    apply all_nodes_unfold. unfold Q_ordered, Q_of, residual_of.
    autorewrite with node. auto.
  - destruct (ActionNode_expand_spec ops model _ _ Ht E)
      as (cs & V & Hcs & Hch' & _ & Hb & _).
    apply all_nodes_unfold. rewrite Hs. split; [split|split; [|exact Hsp]].
    + unfold Q_of. rewrite Hb. unfold ordered; simpl. lra.
    + rewrite Hr. exact Hq2.
    + apply Forall_forall. intros kv Hin. rewrite Hch' in Hin.
      apply In_add_all in Hin. destruct Hin as [Hin|(c & Hc & <-)].
      * exact (proj1 (Forall_forall _ _) Hch _ Hin).
      * pose proof (In_combine_Forall2 _ _ _ _ _ Hcs Hc) as Hn. simpl in Hn.
        apply fresh_leaf_good. eapply ActionNode_new_child_fresh; eauto.
Qed.

Lemma SamplingNode_expand_good (self self' : Node IS) (w w' : World) :
  good self -> SamplingNode_expand ops model self w = Ok (self', w') ->
  good self' /\ N_of self' = N_of self.
Proof.
  intros Hg E. apply SamplingNode_expand_inv in E.
  destruct E as (Hb & Ha & _ & _ & Hch' & _ & Hs).
  apply all_nodes_unfold in Hg. destruct Hg as ((Hq1 & Hq2) & Hch & Hsp).
  split.
  - apply all_nodes_unfold. rewrite Hs. split; [split|split; [|exact Hsp]].
    + unfold Q_of in *. destruct Hb as [->|[V ->]]; [assumption|].
      unfold ordered; simpl; lra.
    + unfold residual_of in *. destruct Hb as [->|[V ->]]; assumption.
    + apply Forall_forall. intros kv Hin. destruct (Hch' kv Hin) as [Hi|Hf].
      * exact (proj1 (Forall_forall _ _) Hch _ Hi).
      * now apply fresh_good.
  - unfold N_of. destruct Hb as [->|[V ->]]; reflexivity.
Qed.
Lemma good_set_spawned (n r : Node IS) (o : Player) (i : nat) :
  good n -> good r -> good (set_spawned_tree n (Some (mkTree r o i))).
Proof.
  intros Hn Hr. apply all_nodes_unfold in Hn. destruct Hn as (Hq & Hch & Hsp).
  apply all_nodes_unfold. unfold Q_ordered, Q_of, residual_of in *.
  autorewrite with node. split; [exact Hq|split; [exact Hch|]].
  unfold spawned_tree_of, set_spawned_tree in *.
  destruct (kind n) eqn:Ek.
  - rewrite kind_set_kind. exact Hr.
  - rewrite Ek. exact I.
Qed.

Lemma N_set_spawned (n : Node IS) (t : option (Tree IS)) :
  N_of (set_spawned_tree n t) = N_of n.
Proof. unfold N_of. now rewrite base_set_spawned. Qed.

(** Every visit that returns keeps all intervals of the tree ordered. *)
Lemma visit_good (fuel : nat) : forall (self self' : Node IS) (r : option Action)
  (w w' : World),
  good self -> visit' fuel self w = Ok (self', r, w') -> good self'.
Proof.
  induction fuel as [|fuel IH]; intros self self' r w w' Hg E; [discriminate|].
  apply visit_inv in E. destruct E as (fuel' & Ef & Hp).
  inversion Ef; subst fuel'; clear Ef.
  assert (IH' : forall n w n' r w',
             good n -> visit' fuel n w = Ok (n', r, w') -> good n').
  { intros; eapply IH; eauto. }
  destruct Hp as [| |t| |].
  - subst. now apply good_incr_N.
  - eapply ActionNode_expand_good; [|eassumption]. now apply good_incr_N.
  - apply spawned_visit_inv in H3.
    destruct H3 as (t1 & w1 & r1 & action & w2 & Hb & Hv & Hc).
    assert (Ht : good (root t)).
    { apply all_nodes_unfold in Hg. rewrite H2 in Hg. tauto. }
    assert (Ht1 : good (root t1)).
    { destruct Hb as [(_ & r0 & a0 & Hv0 & ->)|(_ & -> & _)]; [|exact Ht].
      simpl. eapply IH'; eauto. }
    eapply visit_child_good; [exact IH' | | |exact Hc].
    + apply good_set_spawned; [now apply good_incr_N|]. eapply IH'; eauto.
    + rewrite N_set_spawned. autorewrite with node. lia.
  - apply unspawned_visit_inv in H3.
    destruct H3 as (i & a & w1 & _ & _ & Hc & _).
    eapply visit_child_good; [exact IH' | | |exact Hc].
    + now apply good_incr_N.
    + autorewrite with node. lia.
  - apply SamplingNode_visit_inv in H0.
    destruct H0 as (_ & self1 & w1 & Hd & h & w2 & Hex & _ & _ & Hc).
    assert (H1 : good self1 /\ N_of self1 = S (N_of self)).
    { destruct (negb (expanded_of (incr_N self))).
      - apply SamplingNode_expand_good in Hex; [|now apply good_incr_N].
        destruct Hex as [Hg1 ->]. now autorewrite with node.
      - destruct Hex as [-> _]. split; [now apply good_incr_N|].
        now autorewrite with node. }
    destruct H1 as [Hg1 HN1].
    eapply visit_child_good; [exact IH' | exact Hg1 | |exact Hc].
    rewrite HN1. lia.
Qed.
End OrderedEverywhere.

Lemma visit_times_inv {IS} (vis : Node IS -> M (Node IS * option Action))
  (R : Node IS -> Node IS -> Prop) :
  (forall n, R n n) ->
  (forall n1 n2 n3 r w w', vis n1 w = Ok (n2, r, w') -> R n2 n3 -> R n1 n3) ->
  forall k n n' w w', visit_times vis k n w = Ok (n', w') -> R n n'.
Proof.
  intros Hrefl Hstep. induction k as [|k IH]; simpl; intros n n' w w' E.
  - apply mret_ok in E. destruct E as [-> _]. apply Hrefl.
  - apply mbind_ok in E. destruct E as ([n1 r] & w1 & E1 & E).
    eapply Hstep; [exact E1|]. eapply IH; eauto.
Qed.

(** C8. [N] is 0 at construction and every [visit] call that returns has
    incremented the [N] of its node by exactly one, so after [k] calls on a
    node [N] has grown by [k]; and, the helper [perturb_prob_simplex]
    returning intervals, every node of the tree -- the nodes of spawned
    trees included -- keeps [Q.lower <= Q.upper] (and an ordered residual)
    through any sequence of visits. *)
Theorem C8_N_counts_visits_and_Q_stays_ordered :
  forall (IS : Type) (ops : InfoSetOps IS) (model : Model IS) (np_sqrt : Q -> Q)
         (perturb_prob_simplex : list Interval -> list Q -> Q -> Interval)
         (uniform : nat -> Q),
    (forall (Vc w : list Q),
        ordered (perturb_prob_simplex (map (fun v => (v, v)) Vc) w Constants.EPS)) ->
    let visit := visit ops model np_sqrt perturb_prob_simplex uniform in
    (forall s owner v n,
        ActionNode_init ops s owner (Scalar v) = Ok n
        \/ SamplingNode_init ops s owner (Scalar v) = Ok n ->
        N_of n = 0%nat /\ all_nodes Q_ordered n)
    /\ (forall fuel self self' r w w',
           visit fuel self w = Ok (self', r, w') ->
           N_of self' = S (N_of self)
           /\ (all_nodes Q_ordered self -> all_nodes Q_ordered self'))
    /\ (forall fuel k self self' w w',
           visit_times (visit fuel) k self w = Ok (self', w') ->
           N_of self' = (N_of self + k)%nat
           /\ (all_nodes Q_ordered self -> all_nodes Q_ordered self')).
Proof.
  intros IS ops model np_sqrt perturb uniform Hord visit. split; [|split].
  - intros s owner v n [E|E].
    + apply ActionNode_init_fresh in E. destruct E as (Hf & _).
      split; [apply Hf | now apply fresh_leaf_good].
    + apply SamplingNode_init_fresh in E. destruct E as (Hf & _).
      split; [apply Hf | now apply fresh_leaf_good].
  - intros fuel self self' r w w' E. split.
    + exact (visit_N _ _ _ _ _ _ _ _ _ _ _ E).
    + intros Hg. exact (visit_good _ _ _ _ _ Hord _ _ _ _ _ _ Hg E).
  - intros fuel k self self' w w' E. split.
    + revert self self' w w' E. induction k as [|k IH]; simpl; intros self self' w w' E.
      * apply mret_ok in E. destruct E as [-> _]. lia.
      * apply mbind_ok in E. destruct E as ([n1 r] & w1 & E1 & E).
        apply IH in E. apply visit_N in E1. lia.
    + revert E. apply (visit_times_inv (visit fuel)
                         (fun n n' => all_nodes Q_ordered n -> all_nodes Q_ordered n')).
      * auto.
      * intros n1 n2 n3 r w1 w2 E1 H23 H1. apply H23.
        exact (visit_good _ _ _ _ _ Hord _ _ _ _ _ _ H1 E1).
Qed.

(** *** The modelled helper returns intervals *)

Lemma qmin_cases (x y : Q) : (x <= y /\ qmin x y = x) \/ (y < x /\ qmin x y = y).
Proof.
  unfold qmin. destruct (Qle_bool x y) eqn:E.
  - left. apply Qle_bool_iff in E. auto.
  - right. split; [|reflexivity]. apply Qnot_le_lt. intros L.
    apply Qle_bool_iff in L. congruence.
Qed.

Lemma qmax_cases (x y : Q) : (x <= y /\ qmax x y = y) \/ (y < x /\ qmax x y = x).
Proof.
  unfold qmax. destruct (Qle_bool x y) eqn:E.
  - left. apply Qle_bool_iff in E. auto.
  - right. split; [|reflexivity]. apply Qnot_le_lt. intros L.
    apply Qle_bool_iff in L. congruence.
Qed.

Lemma qmin_proper (x x' c : Q) : x == x' -> qmin x c == qmin x' c.
Proof.
  intros E. destruct (qmin_cases x c) as [[? ->]|[? ->]],
                     (qmin_cases x' c) as [[? ->]|[? ->]]; lra.
Qed.

Lemma total_nonneg cells : caps_nonneg cells -> 0 <= total cells.
Proof.
  induction 1 as [|x l Hx Hl IH]; unfold total in *; simpl; lra.
Qed.

Lemma mass_total (cells : list (Q * Q)) :
  caps_nonneg cells -> forall R, 0 <= R -> mass R cells == qmin R (total cells).
Proof.
  induction cells as [|[v c] cells IH]; intros Hc R HR.
  - unfold total; simpl. destruct (qmin_cases R 0) as [[? ->]|[? ->]]; lra.
  - inversion Hc as [|? ? Hc0 Hc']; subst. simpl in Hc0.
    pose proof (total_nonneg _ Hc') as HT.
    cbn [mass]. change (total ((v, c) :: cells)) with (c + total cells).
    set (T := total cells) in *.
    assert (Hd : 0 <= R - qmin R c)
      by (destruct (qmin_cases R c) as [[? ->]|[? ->]]; lra).
    rewrite (IH Hc' _ Hd).
    destruct (qmin_cases R c) as [[? ->]|[? ->]];
      destruct (qmin_cases R (c + T)) as [[? ->]|[? ->]];
      match goal with |- context [qmin ?a T] =>
        destruct (qmin_cases a T) as [[? ->]|[? ->]] end; lra.
Qed.

(** More mass poured into cells worth at least [v] gains at least [v] per
    unit. *)
Lemma pour_gain (v : Q) (cells : list (Q * Q)) :
  Forall (fun x => v <= fst x) cells ->
  forall R1 R2, 0 <= R1 -> R1 <= R2 ->
    v * (mass R2 cells - mass R1 cells) <= pour R2 cells - pour R1 cells.
Proof.
  induction cells as [|[u c] cells IH]; intros Hv R1 R2 H1 H12.
  - simpl. lra.
  - inversion Hv as [|? ? Hv0 Hv']; subst. simpl in Hv0.
    cbn [pour mass].
    assert (Hd : 0 <= R1 - qmin R1 c /\ R1 - qmin R1 c <= R2 - qmin R2 c
                 /\ qmin R1 c <= qmin R2 c).
    { destruct (qmin_cases R1 c) as [[? ->]|[? ->]],
               (qmin_cases R2 c) as [[? ->]|[? ->]]; lra. }
    destruct Hd as (Hd1 & Hd2 & Hd3).
    specialize (IH Hv' _ _ Hd1 Hd2).
    set (d1 := qmin R1 c) in *. set (d2 := qmin R2 c) in *.
    set (m1 := mass (R1 - d1) cells) in *. set (m2 := mass (R2 - d2) cells) in *.
    set (p1 := pour (R1 - d1) cells) in *. set (p2 := pour (R2 - d2) cells) in *.
    nra.
Qed.

Lemma pour_proper (cells : list (Q * Q)) :
  forall R R', R == R' -> pour R cells == pour R' cells.
Proof.
  induction cells as [|[v c] cells IH]; intros R R' E; cbn [pour]; [reflexivity|].
  pose proof (qmin_proper R R' c E) as Ed.
  rewrite (IH (R - qmin R c) (R' - qmin R' c)) by (rewrite Ed, E; reflexivity).
  rewrite Ed. reflexivity.
Qed.

Lemma pour_snoc (cells : list (Q * Q)) (v c : Q) :
  forall R, pour R (cells ++ [(v, c)])
            == pour R cells + qmin (R - mass R cells) c * v.
Proof.
  induction cells as [|[u e] cells IH]; intros R; cbn [app pour mass].
  - assert (E : qmin (R - 0) c == qmin R c) by (apply qmin_proper; ring).
    rewrite E. ring.
  - rewrite IH.
    assert (E : qmin (R - (qmin R e + mass (R - qmin R e) cells)) c
                == qmin (R - qmin R e - mass (R - qmin R e) cells) c)
      by (apply qmin_proper; ring).
    rewrite E. ring.
Qed.

Lemma total_app (l1 l2 : list (Q * Q)) : total (l1 ++ l2) == total l1 + total l2.
Proof.
  unfold total. induction l1 as [|x l1 IH]; simpl; [ring|]. rewrite IH. ring.
Qed.

Lemma total_rev (l : list (Q * Q)) : total (rev l) == total l.
Proof.
  induction l as [|x l IH]; simpl; [reflexivity|].
  rewrite total_app, IH. unfold total; simpl. ring.
Qed.

(** Pouring into the cheapest cells first gains no more than pouring into
    the dearest first. *)
Lemma pour_ascending_le_descending (cells : list (Q * Q)) :
  StronglySorted by_value cells -> caps_nonneg cells ->
  forall R, 0 <= R -> pour R cells <= pour R (rev cells).
Proof.
  induction 1 as [|[v c] cells Hs IH Hall]; intros Hc R HR.
  - simpl. lra.
  - inversion Hc as [|? ? Hc0 Hc']; subst. simpl in Hc0.
    cbn [rev pour]. rewrite pour_snoc.
    assert (Hrc : caps_nonneg (rev cells)) by (apply Forall_rev; exact Hc').
    assert (Hrv : Forall (fun x => v <= fst x) (rev cells)).
    { apply Forall_rev. eapply Forall_impl; [|exact Hall]. intros a Ha. exact Ha. }
    assert (Hd : 0 <= R - qmin R c /\ R - qmin R c <= R)
      by (destruct (qmin_cases R c) as [[? ->]|[? ->]]; lra).
    destruct Hd as [Hd1 Hd2].
    pose proof (IH Hc' _ Hd1) as HIH.
    pose proof (pour_gain v (rev cells) Hrv _ _ Hd1 Hd2) as Hg.
    pose proof (mass_total _ Hrc R HR) as Hm2.
    pose proof (mass_total _ Hrc _ Hd1) as Hm1.
    pose proof (total_nonneg _ Hrc) as HT.
    set (T := total (rev cells)) in *.
    set (m2 := mass R (rev cells)) in *.
    set (m1 := mass (R - qmin R c) (rev cells)) in *.
    assert (Hid : m2 - m1 + qmin (R - m2) c - qmin R c == 0).
    { destruct (qmin_cases (R - m2) c) as [[? ->]|[? ->]];
        destruct (qmin_cases R T) as [[? E2]|[? E2]]; rewrite E2 in Hm2;
        destruct (qmin_cases R c) as [[? Ec]|[? Ec]]; rewrite Ec in *;
        match type of Hm1 with context [qmin ?a T] =>
          destruct (qmin_cases a T) as [[? E1]|[? E1]]; rewrite E1 in Hm1 end;
        lra. }
    set (x := qmin (R - m2) c) in *. set (d := qmin R c) in *.
    set (pa := pour (R - d) cells) in *. set (pb := pour (R - d) (rev cells)) in *.
    set (pc := pour R (rev cells)) in *.
    assert (Hv : v * (m2 - m1 + x - d) == 0) by (rewrite Hid; ring).
    nra.
Qed.

Lemma insert_sorted (x : Q * Q) (l : list (Q * Q)) :
  StronglySorted by_value l -> StronglySorted by_value (insert_by_value x l).
Proof.
  induction 1 as [|y l Hs IH Hall]; simpl.
  - constructor; constructor.
  - destruct (Qle_bool (fst x) (fst y)) eqn:E.
    + apply Qle_bool_iff in E. constructor; [constructor; assumption|].
      constructor; [exact E|]. eapply Forall_impl; [|exact Hall].
      intros a Ha. unfold by_value in *. lra.
    + assert (Hyx : fst y <= fst x).
      { apply Qlt_le_weak, Qnot_le_lt. intros L. apply Qle_bool_iff in L. congruence. }
      constructor; [exact IH|].
      clear - Hall Hyx. induction l as [|z l IHl]; simpl.
      * constructor; [exact Hyx | constructor].
      * inversion Hall; subst. destruct (Qle_bool (fst x) (fst z)).
        -- constructor; [exact Hyx|]. constructor; assumption.
        -- constructor; [assumption | apply IHl; assumption].
Qed.

Lemma sort_sorted (l : list (Q * Q)) : StronglySorted by_value (sort_by_value l).
Proof.
  induction l as [|x l IH]; simpl; [constructor | now apply insert_sorted].
Qed.

Lemma insert_caps (x : Q * Q) (l : list (Q * Q)) :
  0 <= snd x -> caps_nonneg l -> caps_nonneg (insert_by_value x l).
Proof.
  intros Hx. induction 1 as [|y l Hy Hl IH]; simpl.
  - constructor; [exact Hx | constructor].
  - destruct (Qle_bool (fst x) (fst y)).
    + constructor; [exact Hx|]. constructor; assumption.
    + constructor; assumption.
Qed.

Lemma sort_caps (l : list (Q * Q)) : caps_nonneg l -> caps_nonneg (sort_by_value l).
Proof.
  induction 1 as [|x l Hx Hl IH]; simpl; [constructor | now apply insert_caps].
Qed.

Lemma combine_caps (vs ps : list Q) (f : Q -> Q) :
  (forall p, 0 <= f p) -> caps_nonneg (combine vs (map f ps)).
Proof.
  intros Hf. revert ps. induction vs as [|v vs IH]; intros [|p ps]; simpl.
  - constructor.
  - constructor.
  - constructor.
  - constructor; [apply Hf | apply IH].
Qed.

Lemma qmax0_nonneg (x : Q) : 0 <= qmax 0 x.
Proof. destruct (qmax_cases 0 x) as [[? ->]|[? ->]]; lra. Qed.

(** On point values the helper returns an ordered interval. *)
Lemma perturb_prob_simplex_spec_ordered (Vc : list Q) (w : list Q) (eps : Q) :
  ordered (perturb_prob_simplex_spec (map (fun v => (v, v)) Vc) w eps).
Proof.
  unfold ordered, perturb_prob_simplex_spec. cbv zeta. cbn [fst snd].
  rewrite !Qred_correct, !map_map. cbn [fst snd].
  apply Qplus_le_r.
  apply pour_ascending_le_descending.
  - apply sort_sorted.
  - apply sort_caps, combine_caps. intros p. apply qmax0_nonneg.
  - apply qmax0_nonneg.
Qed.

Lemma C8_witness :
  (forall (Vc w : list Q),
      ordered (perturb_prob_simplex_spec (map (fun v => (v, v)) Vc) w Constants.EPS))
  /\ exists root w root' w',
      Toy.fresh_root Toy.g_hidden = Ok (root, w)
      /\ visit_times (Toy.toy_visit 10) 6 root w = Ok (root', w')
      /\ N_of root' = 6%nat
      /\ all_nodes Q_ordered root'.
Proof.
  split; [intros Vc w0; apply perturb_prob_simplex_spec_ordered|].
  destruct (Toy.fresh_root Toy.g_hidden) as [[root w]| |] eqn:E;
    try (vm_compute in E; discriminate).
  destruct (visit_times (Toy.toy_visit 10) 6 root w) as [[root' w']| |] eqn:Ev;
    try (inversion E; subst; vm_compute in Ev; discriminate).
  exists root, w, root', w'. split; [reflexivity|]. split; [exact Ev|].
  destruct (C8_N_counts_visits_and_Q_stays_ordered
              _ Toy.toy_ops Toy.toy_model Toy.sqrt6 perturb_prob_simplex_spec
              (Toy.const_uniform (1 # 3))
              (fun Vc w0 => perturb_prob_simplex_spec_ordered Vc w0 Constants.EPS))
    as (_ & _ & H3).
  destruct (H3 10%nat 6%nat root root' w w' Ev) as [HN Hg].
  split.
  - rewrite HN. inversion E; reflexivity.
  - apply Hg. inversion E; subst. apply fresh_leaf_good.
    unfold fresh_leaf; simpl. repeat split; reflexivity.
Defined.

(** ** The boundary with the model *)

(** C4 (as stated) fails: the model output [P = [-1, 5, 3]] for a two-action
    node -- wrong length, a negative entry, sum 7 -- is stored by
    [eval_model] without any error and the first visit returns normally;
    with [P = [-1, 3]] the expanded node goes on to select among its
    children from those priors. *)
Lemma C4_counterexample :
  exists root w root1 root2 root3 Qc idx,
    Toy.fresh_root Toy.g2 = Ok (root, w)
    /\ length (actions_of root) = 2%nat
    /\ eval_model Toy.bad_model root = Ok root1
    /\ P_of root1 = Some [-1; 5; 3]
    /\ visit Toy.toy_ops Toy.bad_model Toy.sqrt6 perturb_prob_simplex_spec
             (Toy.const_uniform (1 # 3)) 10 root w = Ok (root2, None, w)
    /\ P_of root2 = Some [-1; 5; 3]
    /\ visit Toy.toy_ops Toy.skewed_model Toy.sqrt6 perturb_prob_simplex_spec
             (Toy.const_uniform (1 # 3)) 10 root w = Ok (root3, None, w)
    /\ P_of root3 = Some [-1; 3]
    /\ computePUCT Toy.sqrt6 root3 = Ok (Qc, idx).
Proof.
  do 7 eexists. split; [vm_compute; reflexivity|].
  split; [reflexivity|]. split; [vm_compute; reflexivity|].
  split; [reflexivity|]. split; [vm_compute; reflexivity|].
  split; [reflexivity|]. split; [vm_compute; reflexivity|].
  split; [reflexivity|]. vm_compute; reflexivity.
Qed.

(** C4 (amended). The engine does not validate the model's output.  For
    float outputs, [ActionNode.eval_model] stores [P], [V] and [Vc] exactly
    as returned, whatever their length, sign or sum, and sets [Q = (V, V)].
    [SamplingNode.eval_model] stores [V] and [Vc] as returned and [H] after
    masking whenever the masking step completes, and that step completes
    for every [H] of the mask's length, whatever its sign or sum. *)
Theorem C4_model_output_is_not_validated :
  forall (IS : Type) (model : Model IS) (self : Node IS),
    (is_action self = true -> P_of self = None -> terminal self = false ->
     exists self',
       eval_model model self = Ok self'
       /\ (P_of self', V_of self', Vc_of self')
          = (let '(P, V, Vc) :=
               action_eval model (tree_owner (base self)) (info_set (base self)) in
             (Some P, Some V, Some Vc))
       /\ (exists V, V_of self' = Some V /\ Q_of self' = (V, V)))
    /\ (is_action self = false -> H_of self = None ->
        let '(H, V, Vc) :=
          hidden_eval model (tree_owner (base self)) (info_set (base self)) in
        (forall H',
            apply_H_mask H (H_mask_of self) = Ok H' ->
            exists self',
              eval_model model self = Ok self'
              /\ H_of self' = Some H' /\ V_of self' = Some V
              /\ Vc_of self' = Some Vc /\ Q_of self' = (V, V))
        /\ (length H = length (H_mask_of self) ->
            exists H', apply_H_mask H (H_mask_of self) = Ok H')).
Proof.
  intros IS model [b c k]. split.
  - unfold eval_model, is_action, P_of, terminal, ActionNode_eval_model; simpl.
    destruct k as [a sp|s]; simpl; [|discriminate].
    intros _ -> Ht. unfold terminal; simpl. rewrite Ht.
    destruct (action_eval model _ _) as [[P V] Vc].
    eexists; split; [reflexivity|]. split; [reflexivity|].
    exists V; split; reflexivity.
  - unfold eval_model, is_action, H_of, H_mask_of, SamplingNode_eval_model; simpl.
    destruct k as [a sp|s]; simpl; [discriminate|].
    intros _ ->.
    destruct (hidden_eval model _ _) as [[H V] Vc]. split.
    + intros H' E. rewrite E; simpl. eexists; split; [reflexivity|].
      repeat split; reflexivity.
    + intros Hlen. rewrite (apply_H_mask_eq H (H_mask s) Hlen). eauto.
Qed.

Lemma C4_witness :
  exists root w self',
    Toy.fresh_root Toy.g2 = Ok (root, w)
    /\ eval_model Toy.skewed_model root = Ok self'
    /\ P_of self' = Some [-1; 3].
Proof.
  destruct (Toy.fresh_root Toy.g2) as [[root w]| |] eqn:E;
    try (vm_compute in E; discriminate).
  assert (Ha : is_action root = true) by (inversion E; reflexivity).
  assert (HP : P_of root = None) by (inversion E; reflexivity).
  assert (Ht : terminal root = false) by (inversion E; reflexivity).
  destruct (proj1 (C4_model_output_is_not_validated _ Toy.skewed_model root)
                  Ha HP Ht) as (self' & E1 & E2 & _).
  exists root, w, self'. split; [reflexivity|]. split; [exact E1|].
  inversion E; subst. simpl in E2. congruence.
Defined.

(** ** PUCT selection *)

Lemma set_nth_app {A} (l1 l2 : list A) (x v : A) :
  set_nth (l1 ++ x :: l2) (length l1) v = Ok (l1 ++ v :: l2).
Proof.
  induction l1 as [|y l1 IH]; simpl; [reflexivity|]. now rewrite IH.
Qed.

Lemma scatter_fold {IS} (rest : dict (Edge IS)) :
  forall (doneQ : list Interval) (doneN : list Q),
    length doneN = length doneQ ->
    map (fun kv => index (snd kv)) rest = seq (length doneQ) (length rest) ->
    foldM (fun (acc : list Interval * list Q) (kv : Z * Edge IS) =>
             let i := index (snd kv) in
             let child := node (snd kv) in
             Qs <- set_nth (fst acc) i (Q_of child) ;;
             Ns <- set_nth (snd acc) i (nat2q (N_of child)) ;;
             Ok (Qs, Ns))
          rest
          (doneQ ++ repeat (0, 0) (length rest), doneN ++ repeat 0 (length rest))
    = Ok (doneQ ++ map (fun kv => Q_of (node (snd kv))) rest,
          doneN ++ map (fun kv => nat2q (N_of (node (snd kv)))) rest).
Proof.
  induction rest as [|[k e] rest IH]; simpl; intros doneQ doneN Hlen Hidx.
  - reflexivity.
  - inversion Hidx as [[Hi Hrest]]. rewrite Hi.
    rewrite set_nth_app. simpl. rewrite <- Hlen, set_nth_app. simpl.
    replace (doneQ ++ Q_of (node e) :: repeat (0, 0) (length rest))
      with ((doneQ ++ [Q_of (node e)]) ++ repeat (0, 0) (length rest))
      by (rewrite <- app_assoc; reflexivity).
    replace (doneN ++ nat2q (N_of (node e)) :: repeat 0 (length rest))
      with ((doneN ++ [nat2q (N_of (node e))]) ++ repeat 0 (length rest))
      by (rewrite <- app_assoc; reflexivity).
    rewrite IH.
    + rewrite <- !app_assoc. reflexivity.
    + rewrite !length_app; simpl. lia.
    + rewrite length_app; simpl. rewrite Nat.add_1_r, <- Hi. exact Hrest.
Qed.

Lemma scatter_children_in_order {IS} (self : Node IS) :
  edges_in_order self ->
  scatter_children self = Ok (get_Qc self, get_Nc self).
Proof.
  intros H. unfold scatter_children.
  exact (scatter_fold (children self) [] [] eq_refl H).
Qed.

Lemma argmax_from_spec (l : list Q) : forall (pre : list Q) (best : Q) (besti : nat),
  (besti < length pre)%nat ->
  nth besti pre 0 = best ->
  (forall x, In x pre -> x <= best) ->
  let m := argmax_from best besti (length pre) l in
  (m < length (pre ++ l))%nat
  /\ forall x, In x (pre ++ l) -> x <= nth m (pre ++ l) 0.
Proof.
  induction l as [|y l IH]; simpl; intros pre best besti Hlt Hnth Hmax.
  - rewrite app_nil_r. split; [assumption|]. rewrite Hnth. exact Hmax.
  - replace (pre ++ y :: l) with ((pre ++ [y]) ++ l)
      by (rewrite <- app_assoc; reflexivity).
    replace (S (length pre)) with (length (pre ++ [y]))
      by (rewrite length_app; simpl; lia).
    destruct (Qltb best y) eqn:E.
    + apply Qltb_true in E. apply IH.
      * rewrite !length_app; simpl; lia.
      * rewrite app_nth2 by lia. now rewrite Nat.sub_diag.
      * intros x Hx. apply in_app_iff in Hx. destruct Hx as [Hx|[<-|[]]].
        -- specialize (Hmax x Hx). lra.
        -- lra.
    + apply Qltb_false in E. apply IH.
      * rewrite length_app; simpl; lia.
      * rewrite app_nth1 by lia. exact Hnth.
      * intros x Hx. apply in_app_iff in Hx. destruct Hx as [Hx|[<-|[]]]; auto.
Qed.

Lemma np_argmax_spec (l : list Q) :
  l <> [] ->
  exists m,
    np_argmax l = Ok m /\ (m < length l)%nat
    /\ forall x, In x l -> x <= nth m l 0.
Proof.
  destruct l as [|x l]; [congruence|]. intros _. simpl.
  eexists; split; [reflexivity|].
  apply (argmax_from_spec l [x] x 0%nat); simpl; auto.
  intros y [<-|[]]. lra.
Qed.

Lemma In_where_from {A} (p : A -> bool) (l : list A) : forall (k i : nat),
  In i (where_from p k l) <->
  (k <= i)%nat /\ exists x, nth_error l (i - k) = Some x /\ p x = true.
Proof.
  induction l as [|y l IH]; simpl; intros k i.
  - split; [intros [] | intros (_ & x & E & _)]. destruct (i - k)%nat; discriminate.
  - assert (Hrest : In i (where_from p (S k) l) <->
                    (k < i)%nat /\ exists x, nth_error l (i - S k) = Some x /\ p x = true).
    { rewrite IH. reflexivity. }
    destruct (p y) eqn:Ey; simpl; rewrite ?Hrest.
    + split.
      * intros [<-|(Hlt & x & E & Hp)].
        -- split; [lia|]. rewrite Nat.sub_diag. simpl. eauto.
        -- split; [lia|]. replace (i - k)%nat with (S (i - S k)) by lia. simpl. eauto.
      * intros (Hle & x & E & Hp).
        destruct (Nat.eq_dec k i) as [->|Hne]; [auto|]. right.
        split; [lia|]. replace (i - k)%nat with (S (i - S k)) in E by lia.
        simpl in E. eauto.
    + split.
      * intros (Hlt & x & E & Hp).
        split; [lia|]. replace (i - k)%nat with (S (i - S k)) by lia. simpl. eauto.
      * intros (Hle & x & E & Hp).
        destruct (Nat.eq_dec k i) as [->|Hne].
        -- rewrite Nat.sub_diag in E. simpl in E. inversion E; subst. congruence.
        -- split; [lia|]. replace (i - k)%nat with (S (i - S k)) in E by lia.
           simpl in E. eauto.
Qed.

Lemma In_np_where {A} (p : A -> bool) (l : list A) (i : nat) :
  In i (np_where p l) <-> exists x, nth_error l i = Some x /\ p x = true.
Proof.
  unfold np_where. rewrite In_where_from, Nat.sub_0_r.
  split; [tauto | intros H; split; [lia | exact H]].
Qed.

Lemma where_from_none {A} (p : A -> bool) (l : list A) (k : nat) :
  (forall x, In x l -> p x = false) -> where_from p k l = [].
Proof.
  revert k; induction l as [|y l IH]; simpl; intros k H; [reflexivity|].
  rewrite (H y) by auto. apply IH. auto.
Qed.

Lemma where_from_single {A} (p : A -> bool) (l : list A) : forall (k j : nat),
  (j < length l)%nat ->
  (forall i x, nth_error l i = Some x -> (p x = true <-> i = j)) ->
  where_from p k l = [(k + j)%nat].
Proof.
  induction l as [|y l IH]; simpl; intros k j Hj H; [lia|].
  destruct j as [|j].
  - rewrite (proj2 (H 0%nat y eq_refl) eq_refl).
    rewrite Nat.add_0_r. f_equal. apply where_from_none.
    intros x Hx. apply In_nth_error in Hx. destruct Hx as [i Hi].
    destruct (p x) eqn:Ep; [|reflexivity].
    pose proof (proj1 (H (S i) x Hi) Ep). discriminate.
  - destruct (p y) eqn:Ep.
    + pose proof (proj1 (H 0%nat y eq_refl) Ep). discriminate.
    + rewrite (IH (S k) j); [f_equal; lia | lia |].
      intros i x Hi. rewrite (H (S i) x Hi). split; [intros E; inversion E; auto | auto].
Qed.

Lemma computePUCT_in_order {IS} (np_sqrt : Q -> Q) (self : Node IS) (P : list Q) :
  P_of self = Some P -> length P = length (children self) ->
  edges_in_order self ->
  computePUCT np_sqrt self
  = (idx <- candidates (score_intervals np_sqrt self P) ;; Ok (get_Qc self, idx)).
Proof.
  intros HP Hlen Hord. unfold computePUCT.
  rewrite (scatter_children_in_order self Hord). simpl. rewrite HP. simpl.
  unfold PUCT_scores, bcast2, get_Nc, get_Qc.
  rewrite length_map, Hlen, Nat.eqb_refl. simpl.
  rewrite zip_with_length by (now rewrite length_map).
  rewrite length_map, Hlen, Nat.eqb_refl. simpl. reflexivity.
Qed.

Lemma In_zip_with {A B C} (f : A -> B -> C) (xs : list A) (ys : list B) (c : C) :
  In c (zip_with f xs ys) -> exists a b, In a xs /\ In b ys /\ c = f a b.
Proof.
  revert ys; induction xs as [|x xs IH]; intros [|y ys]; simpl; try tauto.
  intros [<-|H]; [exists x, y; auto|].
  destruct (IH ys H) as (a & b & Ha & Hb & ->). exists a, b; auto.
Qed.

(** C2 (as stated) fails: with child values [1] and [1 - 1e-9] and no
    visits yet, the lower bound of the first score interval strictly exceeds
    the upper bound of the second, yet both children are candidates. *)
Lemma C2_counterexample :
  exists root w root' P Qc s0 s1,
    Toy.fresh_root Toy.g_close = Ok (root, w)
    /\ Toy.toy_visit 1 root w = Ok (root', None, w)
    /\ P_of root' = Some P
    /\ score_intervals Toy.sqrt6 root' P = [s0; s1]
    /\ snd s1 < fst s0
    /\ computePUCT Toy.sqrt6 root' = Ok (Qc, [0%nat; 1%nat])
    /\ length [0%nat; 1%nat] <> 1%nat.
Proof.
  do 7 eexists. split; [vm_compute; reflexivity|].
  split; [vm_compute; reflexivity|]. split; [reflexivity|].
  split; [vm_compute; reflexivity|]. split; [reflexivity|].
  split; [vm_compute; reflexivity | discriminate].
Qed.

(** C2 (amended). For an expanded node (edge indices in dictionary order,
    one prior per child), [computePUCT] returns the children's [Q] and the
    candidate set: every child whose score-interval upper bound is at least
    [bestLower - 1e-8], where the score interval is the child's [Q] with the
    bonus [c_PUCT * P[a] * sqrt(sum N) / (N_c + 1)] added to both bounds and
    [bestLower] is the greatest lower bound.  The set is a single child
    whenever that child's lower bound exceeds every other child's upper
    bound by more than [1e-8] (the children's intervals being ordered). *)
Theorem C2_PUCT_candidates :
  forall (IS : Type) (np_sqrt : Q -> Q) (self : Node IS) (P : list Q),
    P_of self = Some P -> length P = length (children self) ->
    edges_in_order self -> children self <> [] ->
    let S := score_intervals np_sqrt self P in
    exists idx bestLower,
      computePUCT np_sqrt self = Ok (get_Qc self, idx)
      /\ In bestLower (map fst S)
      /\ (forall s, In s S -> fst s <= bestLower)
      /\ (forall i, In i idx <->
                    exists s, nth_error S i = Some s
                              /\ bestLower - tie_tolerance <= snd s)
      /\ (forall j sj,
             nth_error S j = Some sj ->
             Forall (fun kv => ordered (Q_of (node (snd kv)))) (children self) ->
             (forall i si, i <> j -> nth_error S i = Some si ->
                           snd si < fst sj - tie_tolerance) ->
             idx = [j]).
Proof.
  intros IS np_sqrt self P HP Hlen Hord Hne S.
  rewrite (computePUCT_in_order np_sqrt self P HP Hlen Hord). fold S.
  assert (HlenS : length S = length (children self)).
  { unfold S, score_intervals, get_Qc, get_Nc.
    rewrite zip_with_length; rewrite ?length_map; auto.
    rewrite zip_with_length; rewrite ?length_map; auto. }
  assert (Hsord : Forall (fun kv => ordered (Q_of (node (snd kv)))) (children self) ->
                  forall s, In s S -> fst s <= snd s).
  { intros Hq s Hs. apply In_zip_with in Hs. destruct Hs as (q & b & Hq' & _ & ->).
    unfold get_Qc in Hq'. apply in_map_iff in Hq'. destruct Hq' as (kv & <- & Hkv).
    pose proof (proj1 (Forall_forall _ _) Hq kv Hkv) as Ho.
    unfold ordered in Ho. simpl. lra. }
  clearbody S.
  assert (HS : map fst S <> []).
  { intros E. destruct S; [|discriminate E].
    destruct (children self); [congruence | discriminate HlenS]. }
  destruct (np_argmax_spec (map fst S) HS) as (m & Em & Hm & Hmax).
  unfold candidates. rewrite Em. simpl.
  set (bestLower := nth m (map fst S) 0) in *.
  set (cand := fun s : Interval => Qle_bool (bestLower - (1 # 100000000)) (snd s)).
  exists (np_where cand S), bestLower.
  split; [reflexivity|]. split; [apply nth_In; exact Hm|]. split; [|split].
  - intros s Hs. apply Hmax. now apply in_map.
  - intros i. rewrite In_np_where. unfold cand, tie_tolerance.
    split; intros (s & E & Hc); exists s; split; auto; now apply Qle_bool_iff.
  - intros j sj Hj Hq Hgap. specialize (Hsord Hq).
    assert (Hbj : fst sj <= bestLower).
    { apply Hmax. apply in_map. eapply nth_error_In; eauto. }
    assert (Hjl : (j < length S)%nat).
    { apply nth_error_Some. congruence. }
    assert (Hbest : bestLower = fst sj).
    { destruct (nth_error S m) as [sm|] eqn:Esm.
      - assert (Hbm : bestLower = fst sm).
        { unfold bestLower. apply nth_error_nth.
          apply (map_nth_error fst _ _ Esm). }
        destruct (Nat.eq_dec m j) as [->|Hmj]; [congruence|].
        pose proof (Hgap m sm Hmj Esm) as Hg.
        pose proof (Hsord sm (nth_error_In _ _ Esm)) as Hom.
        unfold tie_tolerance in Hg. exfalso. rewrite Hbm in Hbj. 
        assert (fst sm < fst sm) by (unfold tie_tolerance in *; lra).
        apply (Qlt_irrefl _ H).
      - apply nth_error_None in Esm. rewrite length_map in Hm.
        unfold Interval in *. lia. }
    unfold np_where. rewrite (where_from_single cand S 0 j Hjl); [reflexivity|].
    intros i x Hi. unfold cand. rewrite Qle_bool_iff, Hbest. split.
    + intros Hc. destruct (Nat.eq_dec i j) as [|Hij]; [assumption|].
      pose proof (Hgap i x Hij Hi) as Hg. unfold tie_tolerance in Hg. lra.
    + intros ->. rewrite Hj in Hi. inversion Hi; subst.
      pose proof (Hsord x (nth_error_In _ _ Hj)). lra.
Qed.

(** ** The visit distribution *)

Lemma sum_replace_child {IS} (d : dict (Edge IS)) (key : Z) (e : Edge IS)
  (child : Node IS) :
  dict_get d key = Some e ->
  (fold_right Nat.add 0 (map (fun kv => N_of (node (snd kv)))
                             (replace_child d key child)) + N_of (node e)
   = fold_right Nat.add 0 (map (fun kv => N_of (node (snd kv))) d) + N_of child)%nat.
Proof.
  induction d as [|[k e'] d IH]; simpl; [discriminate|].
  destruct (Z.eqb_spec key k) as [->|Hne]; simpl.
  - intros E; inversion E; subst. lia.
  - intros E. specialize (IH E). lia.
Qed.

Section Distribution.
Context {IS : Type}.
Variable ops : InfoSetOps IS.
Variable model : Model IS.
Variable np_sqrt : Q -> Q.
Variable perturb_prob_simplex : list Interval -> list Q -> Q -> Interval.
Variable uniform : nat -> Q.

Local Abbreviation visit' := (visit ops model np_sqrt perturb_prob_simplex uniform).

Lemma visit_child_counted (vis : Node IS -> M (Node IS * option Action))
  (self self' : Node IS) (key : Z) (probs : option (list Q)) (w w' : World) :
  (forall n w n' r w', vis n w = Ok (n', r, w') -> N_of n' = S (N_of n)) ->
  visit_child perturb_prob_simplex vis self key probs w = Ok (self', w') ->
  NoDup (keys (children self)) ->
  NoDup (keys (children self'))
  /\ sum_child_N self' = S (sum_child_N self)
  /\ N_of self' = N_of self
  /\ terminal self' = terminal self
  /\ kind self' = kind self.
Proof.
  intros HN E Hnd. apply visit_child_frame in E.
  destruct E as (e & child & r & ui & V & Hget & Hv & Hc & Hk & HN' & _ & _ & _ & _
                 & _ & Hgo & _).
  unfold sum_child_N, terminal. rewrite Hc, Hgo, keys_replace_child.
  repeat split; auto.
  pose proof (sum_replace_child (children self) key e child Hget) as Hs.
  apply HN in Hv. lia.
Qed.

Lemma fresh_sum_zero (ch : dict (Edge IS)) :
  (forall kv, In kv ch -> fresh_leaf (node (snd kv))) ->
  fold_right Nat.add 0%nat (map (fun kv => N_of (node (snd kv))) ch) = 0%nat.
Proof.
  induction ch as [|kv ch IH]; intros H; [reflexivity|].
  cbn [map fold_right]. rewrite IH by (intros; apply H; right; assumption).
  destruct (H kv (or_introl eq_refl)) as (E & _).
  exact (f_equal (fun x => (x + 0)%nat) E).
Qed.

(** A visit of an [ActionNode] preserves the count invariant. *)
Lemma visit_counted (fuel : nat) (self self' : Node IS) (r : option Action)
  (w w' : World) :
  is_action self = true -> counted self ->
  visit' fuel self w = Ok (self', r, w') ->
  counted self' /\ terminal self' = terminal self /\ is_action self' = true.
Proof.
  intros Ha [Hnd Hc] E. pose proof (visit_N _ _ _ _ _ _ _ _ _ _ _ E) as HS.
  apply visit_inv in E. destruct E as (fuel' & -> & [| |t| |]).
  - subst. unfold counted. autorewrite with node. rewrite H0 in *. auto.
  - rewrite H0, H1 in Hc. destruct Hc as [HN0 Hch].
    assert (Ht' : terminal (incr_N self) = false) by now autorewrite with node.
    assert (Hch' : children (incr_N self) = []) by now autorewrite with node.
    destruct (expansion_children ops model _ _ Ht' Hch' H2) as (H1' & _ & H3' & _).
    destruct (ActionNode_expand_N ops model _ _ H2) as (HN & _ & Hexp & Hia & Hter & _).
    autorewrite with node in *.
    unfold counted. rewrite Hter, H0, Hexp, Hia. repeat split; auto.
    rewrite HN, HN0. unfold sum_child_N. now rewrite fresh_sum_zero.
  - rewrite H0, H1 in Hc.
    apply spawned_visit_inv in H3.
    destruct H3 as (t1 & w1 & r1 & action & w2 & _ & _ & Hvc).
    apply visit_child_counted in Hvc;
      [|intros; eapply visit_N; eauto | now autorewrite with node].
    destruct Hvc as (Hnd' & Hsum & HN & Hter & Hk).
    assert (Hexp : expanded_of self' = true).
    { unfold expanded_of at 1. rewrite Hk. fold (expanded_of (set_spawned_tree (incr_N self)
        (Some (mkTree r1 (tree_owner_of t1) (tree_id t1))))).
      now autorewrite with node. }
    assert (Hia : is_action self' = true).
    { unfold is_action at 1. rewrite Hk. fold (is_action (set_spawned_tree (incr_N self)
        (Some (mkTree r1 (tree_owner_of t1) (tree_id t1))))).
      now autorewrite with node. }
    unfold terminal in Hter. autorewrite with node in Hter. simpl in Hter.
    fold (terminal self) in Hter. fold (terminal self') in Hter.
    unfold counted. rewrite Hter, Hexp, H0.
    repeat split; auto.
    rewrite HS, Hsum. unfold sum_child_N in *. autorewrite with node. lia.
  - rewrite H0, H1 in Hc.
    apply unspawned_visit_inv in H3.
    destruct H3 as (i & a & w1 & _ & _ & Hvc & _).
    apply visit_child_counted in Hvc;
      [|intros; eapply visit_N; eauto | now autorewrite with node].
    destruct Hvc as (Hnd' & Hsum & HN & Hter & Hk).
    assert (Hexp : expanded_of self' = true).
    { unfold expanded_of at 1. rewrite Hk. fold (expanded_of (incr_N self)).
      now autorewrite with node. }
    assert (Hia : is_action self' = true).
    { unfold is_action at 1. rewrite Hk. fold (is_action (incr_N self)).
      now autorewrite with node. }
    autorewrite with node in Hter.
    unfold counted. rewrite Hter, Hexp, H0.
    repeat split; auto.
    rewrite HS, Hsum. unfold sum_child_N in *. autorewrite with node. lia.
  - congruence.
Qed.
End Distribution.

Section Loop.
Context {IS : Type}.
Variable ops : InfoSetOps IS.
Variable model : Model IS.
Variable np_sqrt : Q -> Q.
Variable perturb_prob_simplex : list Interval -> list Q -> Q -> Interval.
Variable uniform : nat -> Q.

Local Abbreviation visit' := (visit ops model np_sqrt perturb_prob_simplex uniform).
Local Abbreviation visit_while' :=
  (visit_while ops model np_sqrt perturb_prob_simplex uniform).

Lemma visit_while_inv (fuel : nat) (n : Z) (loops : nat) :
  forall (r r' : Node IS) (w w' : World),
    visit_while' fuel loops r n w = Ok (r', w') ->
    exists k,
      visit_times (visit' fuel) k r w = Ok (r', w')
      /\ (n < Z.of_nat (N_of r'))%Z
      /\ ((Z.of_nat (N_of r) <= n)%Z -> Z.of_nat (N_of r') = (n + 1)%Z)
      /\ ((n < Z.of_nat (N_of r))%Z -> r' = r /\ w' = w).
Proof.
  induction loops as [|loops IH]; intros r r' w w' E; simpl in E;
    destruct (Z.leb_spec (Z.of_nat (N_of r)) n) as [Hle|Hgt].
  - discriminate.
  - apply mret_ok in E. destruct E as [-> ->].
    exists 0%nat. simpl. repeat split; auto; lia.
  - apply mbind_ok in E. destruct E as ([r1 a] & w1 & E1 & E).
    pose proof (visit_N _ _ _ _ _ _ _ _ _ _ _ E1) as HN.
    destruct (IH _ _ _ _ E) as (k & Hk & H1 & H2 & H3).
    exists (S k). simpl. unfold mbind at 1. rewrite E1.
    split; [exact Hk|]. split; [exact H1|]. split; [|lia].
    intros _. destruct (Z.le_gt_cases (Z.of_nat (N_of r1)) n) as [Hl|Hg].
    + auto.
    + destruct (H3 Hg) as [-> _]. lia.
  - apply mret_ok in E. destruct E as [-> ->].
    exists 0%nat. simpl. repeat split; auto; lia.
Qed.

Lemma visit_while_enough (fuel : nat) (n : Z) (k : nat) :
  forall (loops : nat) (r r' : Node IS) (w w' : World),
    visit_times (visit' fuel) k r w = Ok (r', w') ->
    Z.of_nat k = Z.max 0 (n + 1 - Z.of_nat (N_of r)) ->
    (k <= loops)%nat ->
    visit_while' fuel loops r n w = Ok (r', w').
Proof.
  induction k as [|k IH]; intros loops r r' w w' E Hk Hl.
  - simpl in E. apply mret_ok in E. destruct E as [-> ->].
    destruct loops; simpl;
      destruct (Z.leb_spec (Z.of_nat (N_of r)) n); try reflexivity; lia.
  - destruct loops as [|loops]; [lia|]. simpl in *.
    destruct (Z.leb_spec (Z.of_nat (N_of r)) n); [|lia].
    apply mbind_ok in E. destruct E as ([r1 a] & w1 & E1 & E).
    pose proof (visit_N _ _ _ _ _ _ _ _ _ _ _ E1) as HN.
    unfold mbind at 1. rewrite E1. apply IH; [exact E | lia | lia].
Qed.

Lemma distribution_fold (n_total : Z) (ch : dict (Edge IS)) :
  n_total <> 0%Z ->
  forall acc : dict Q,
    NoDup (keys acc ++ keys ch) ->
    foldM (add_fraction n_total) ch acc = Ok (acc ++ map (fraction n_total) ch).
Proof.
  intros Hn. induction ch as [|[k e] ch IH]; intros acc Hnd.
  - simpl. now rewrite app_nil_r.
  - cbn [foldM]. unfold add_fraction at 1, py_div.
    destruct (Z.eqb_spec n_total 0); [contradiction|]. cbn [rbind fst snd].
    rewrite dict_set_fresh.
    + rewrite IH.
      * rewrite <- app_assoc. reflexivity.
      * unfold keys in *. rewrite map_app, <- app_assoc. exact Hnd.
    + pose proof (NoDup_remove_2 _ _ _ Hnd) as Hx. rewrite in_app_iff in Hx. tauto.
Qed.

Lemma distribution_raises (ch : dict (Edge IS)) (acc : dict Q) :
  ch <> [] ->
  foldM (add_fraction 0) ch acc = Raise ZeroDivisionError.
Proof. destruct ch; [congruence | reflexivity]. Qed.

Lemma np_sum_fractions (n_total : Z) (ch : dict (Edge IS)) :
  np_sum (map snd (map (fraction n_total) ch))
  == inject_Z (Z.of_nat (fold_right Nat.add 0%nat
                           (map (fun kv => N_of (node (snd kv))) ch)))
     / inject_Z n_total.
Proof.
  unfold np_sum, Edge in *. induction ch as [|kv ch IH]; cbn [map fold_right].
  - unfold Qdiv. change (inject_Z (Z.of_nat 0)) with 0. ring.
  - rewrite IH. unfold fraction at 1. cbn [snd].
    rewrite Nat2Z.inj_add, inject_Z_plus. unfold Qdiv, Edge. ring.
Qed.
End Loop.

(** C1 (as stated) fails for [n = 0]: the single visit only expands the
    fresh root, so [root.N - 1 = 0] and the division raises. *)
Lemma C1_counterexample :
  exists t w,
    Toy.fresh_tree Toy.g2 = Ok (t, w)
    /\ N_of (root t) = 0%nat
    /\ Toy.toy_distribution 10 10 t 0 w = Raise ZeroDivisionError.
Proof.
  do 2 eexists. split; [vm_compute; reflexivity|].
  split; [reflexivity | vm_compute; reflexivity].
Qed.

(** C1 (amended). For [n >= 1] and a non-terminal root that satisfies the
    count invariant (a freshly constructed root does),
    [get_visit_distribution(n)] visits the root while [root.N <= n]; when it
    returns, [root.N > n], the result maps every child action to
    [childN / (rootN - 1)], and the fractions sum to one.  It returns as soon
    as the [n + 1 - root.N] visits return, whatever the iteration bound. *)
Theorem C1_visit_distribution_sums_to_one :
  forall (IS : Type) (ops : InfoSetOps IS) (model : Model IS) (np_sqrt : Q -> Q)
         (perturb_prob_simplex : list Interval -> list Q -> Q -> Interval)
         (uniform : nat -> Q) (fuel loops : nat) (t : Tree IS) (n : Z) (w : World),
    is_action (root t) = true -> terminal (root t) = false ->
    counted (root t) -> (1 <= n)%Z ->
    let visit := visit ops model np_sqrt perturb_prob_simplex uniform in
    let distribution :=
      get_visit_distribution ops model np_sqrt perturb_prob_simplex uniform in
    (forall d t' w',
        distribution fuel loops t n w = Ok (d, t', w') ->
        (exists k, visit_times (visit fuel) k (root t) w = Ok (root t', w'))
        /\ (n < Z.of_nat (N_of (root t')))%Z
        /\ ((Z.of_nat (N_of (root t)) <= n)%Z ->
            Z.of_nat (N_of (root t')) = (n + 1)%Z)
        /\ d = map (fun kv =>
                      (fst kv,
                       inject_Z (Z.of_nat (N_of (node (snd kv))))
                       / inject_Z (Z.of_nat (N_of (root t')) - 1)))
                   (children (root t'))
        /\ np_sum (map snd d) == 1)
    /\ (forall r' w',
           visit_times (visit fuel) (Z.to_nat (n + 1 - Z.of_nat (N_of (root t))))
                       (root t) w = Ok (r', w') ->
           (Z.to_nat (n + 1 - Z.of_nat (N_of (root t))) <= loops)%nat ->
           exists d,
             distribution fuel loops t n w
             = Ok (d, mkTree r' (tree_owner_of t) (tree_id t), w')).
Proof.
  intros IS ops model np_sqrt perturb uniform fuel loops t n w Ha Ht Hc Hn
         visit distribution.
  assert (Hinv : forall k r' w',
             visit_times (visit fuel) k (root t) w = Ok (r', w') ->
             counted r' /\ terminal r' = false /\ is_action r' = true).
  { intros k r' w' E.
    refine (visit_times_inv (visit fuel)
              (fun a b => is_action a = true -> terminal a = false -> counted a ->
                          counted b /\ terminal b = false /\ is_action b = true)
              _ _ k (root t) r' w w' E Ha Ht Hc).
    - auto.
    - intros n1 n2 n3 r w1 w2 E1 H23 Ha1 Ht1 Hc1.
      destruct (visit_counted _ _ _ _ _ _ _ _ _ _ _ Ha1 Hc1 E1) as (Hc2 & Ht2 & Ha2).
      apply H23; auto. congruence. }
  assert (Hdist : forall r', counted r' -> terminal r' = false ->
                    (n < Z.of_nat (N_of r'))%Z ->
                    foldM (add_fraction (Z.of_nat (N_of r') - 1)) (children r') []
                    = Ok (map (@fraction IS (Z.of_nat (N_of r') - 1)) (children r'))
                    /\ np_sum (map snd (map (@fraction IS (Z.of_nat (N_of r') - 1))
                                            (children r'))) == 1).
  { intros r' [Hnd Hc'] Ht' HN. rewrite Ht' in Hc'.
    destruct (expanded_of r'); [|destruct Hc' as [H0 _]; lia].
    assert (Hne : (Z.of_nat (N_of r') - 1 <> 0)%Z) by lia.
    split.
    - rewrite distribution_fold; auto.
    - rewrite np_sum_fractions. unfold sum_child_N in Hc'.
      replace (Z.of_nat (N_of r') - 1)%Z
        with (Z.of_nat (fold_right Nat.add 0%nat
                          (map (fun kv => N_of (node (snd kv))) (children r'))))
        by lia.
      field. intros E. unfold Qeq in E. simpl in E. unfold Edge in *. lia. }
  split.
  - intros d t' w' E. unfold distribution, get_visit_distribution in E.
    apply mbind_ok in E. destruct E as (r' & w1 & E1 & E).
    apply mbind_ok in E. destruct E as (d' & w2 & E2 & E).
    apply lift_ok in E2. destruct E2 as [E2 ->].
    apply mret_ok in E. destruct E as [E ->]. inversion E; subst d' t'; clear E.
    simpl. apply visit_while_inv in E1. destruct E1 as (k & Hk & H1 & H2 & _).
    destruct (Hinv _ _ _ Hk) as (Hc' & Ht' & _).
    destruct (Hdist r' Hc' Ht' H1) as [Hd Hs].
    rewrite Hd in E2. inversion E2; subst d; clear E2.
    split; [eauto|]. split; [exact H1|]. split; [exact H2|].
    split; [reflexivity | exact Hs].
  - intros r' w' Hk Hl.
    destruct (Hinv _ _ _ Hk) as (Hc' & Ht' & _).
    assert (Hw : visit_while ops model np_sqrt perturb uniform fuel loops (root t) n w
                 = Ok (r', w')).
    { eapply visit_while_enough; [exact Hk | lia | exact Hl]. }
    pose proof (visit_while_inv _ _ _ _ _ _ _ _ _ _ _ _ Hw) as (_ & _ & H1 & _).
    destruct (Hdist r' Hc' Ht' H1) as [Hd _].
    eexists. unfold distribution, get_visit_distribution, mbind.
    rewrite Hw. unfold lift. rewrite Hd. reflexivity.
Qed.

Lemma C1_witness :
  exists t w d t' w',
    Toy.fresh_tree Toy.g_hidden = Ok (t, w)
    /\ is_action (root t) = true /\ terminal (root t) = false
    /\ counted (root t) /\ (1 <= 5)%Z
    /\ Toy.toy_distribution 10 10 t 5 w = Ok (d, t', w')
    /\ Z.of_nat (N_of (root t')) = 6%Z
    /\ np_sum (map snd d) == 1.
Proof.
  destruct (Toy.fresh_tree Toy.g_hidden) as [[t w]| |] eqn:E;
    try (vm_compute in E; discriminate).
  destruct (Toy.toy_distribution 10 10 t 5 w) as [[[d t'] w']| |] eqn:Ed;
    try (inversion E; subst; vm_compute in Ed; discriminate).
  assert (Ha : is_action (root t) = true) by (inversion E; reflexivity).
  assert (Ht : terminal (root t) = false) by (inversion E; reflexivity).
  assert (Hc : counted (root t)).
  { inversion E; subst. split; [constructor | simpl; auto]. }
  assert (HN : N_of (root t) = 0%nat) by (inversion E; reflexivity).
  exists t, w, d, t', w'.
  destruct (proj1 (C1_visit_distribution_sums_to_one
                     _ Toy.toy_ops Toy.toy_model Toy.sqrt6 perturb_prob_simplex_spec
                     (Toy.const_uniform (1 # 3)) 10 10 t 5 w Ha Ht Hc
                     ltac:(lia))
                  d t' w' Ed) as (_ & _ & H3 & _ & H5).
  split; [reflexivity|]. split; [exact Ha|]. split; [exact Ht|].
  split; [exact Hc|]. split; [lia|]. split; [exact Ed|].
  split; [apply H3; rewrite HN; simpl; lia | exact H5].
Defined.

Lemma C2_witness :
  exists root w root' P idx,
    Toy.fresh_root Toy.g2 = Ok (root, w)
    /\ Toy.toy_visit 1 root w = Ok (root', None, w)
    /\ P_of root' = Some P /\ length P = length (children root')
    /\ edges_in_order root' /\ children root' <> []
    /\ computePUCT Toy.sqrt6 root' = Ok (get_Qc root', idx)
    /\ idx = [0%nat].
Proof.
  destruct (Toy.fresh_root Toy.g2) as [[root w]| |] eqn:E;
    try (vm_compute in E; discriminate).
  destruct (Toy.toy_visit 1 root w) as [[[root' r] w']| |] eqn:Ev;
    try (inversion E; subst; vm_compute in Ev; discriminate).
  assert (Er : r = None /\ w' = w).
  { inversion E; subst. vm_compute in Ev. inversion Ev; auto. }
  destruct Er as [-> ->].
  assert (HP : P_of root' = Some [1 # 2; 1 # 2]).
  { inversion E; subst. vm_compute in Ev. inversion Ev; reflexivity. }
  assert (Hl : length [1 # 2; 1 # 2] = length (children root')).
  { inversion E; subst. vm_compute in Ev. inversion Ev; reflexivity. }
  assert (Ho : edges_in_order root').
  { inversion E; subst. vm_compute in Ev. inversion Ev; reflexivity. }
  assert (Hn : children root' <> []).
  { inversion E; subst. vm_compute in Ev. inversion Ev; discriminate. }
  destruct (C2_PUCT_candidates _ Toy.sqrt6 root' _ HP Hl Ho Hn)
    as (idx & best & Hc & _ & _ & _ & Hone).
  exists root, w, root', [1 # 2; 1 # 2], idx.
  repeat (split; [first [reflexivity | assumption]|]).
  assert (HS : score_intervals Toy.sqrt6 root' [1 # 2; 1 # 2]
               = [(1 + 1 * (1 # 2) * Toy.sqrt6 (0 + (0 + 0)) / (0 + 1),
                   1 + 1 * (1 # 2) * Toy.sqrt6 (0 + (0 + 0)) / (0 + 1));
                  (0 + 1 * (1 # 2) * Toy.sqrt6 (0 + (0 + 0)) / (0 + 1),
                   0 + 1 * (1 # 2) * Toy.sqrt6 (0 + (0 + 0)) / (0 + 1))]).
  { inversion E; subst. vm_compute in Ev. inversion Ev; reflexivity. }
  apply (Hone 0%nat _ ltac:(rewrite HS; reflexivity)).
  - inversion E; subst. vm_compute in Ev. inversion Ev; subst.
    repeat constructor; vm_compute; discriminate.
  - intros i si Hi Hsi. rewrite HS in Hsi.
    destruct i as [|[|i]]; [congruence| |destruct i; discriminate].
    simpl in Hsi. inversion Hsi; subst. vm_compute. reflexivity.
Defined.

Lemma C6_witness :
  exists root w root' e0 e1,
    Toy.fresh_root Toy.g_hidden = Ok (root, w)
    /\ ActionNode_expand Toy.toy_ops Toy.toy_model root = Ok root'
    /\ dict_get (children root') 0%Z = Some e0 /\ is_action (node e0) = false
    /\ dict_get (children root') 1%Z = Some e1 /\ is_action (node e1) = true.
Proof.
  destruct (Toy.fresh_root Toy.g_hidden) as [[root w]| |] eqn:E;
    try (vm_compute in E; discriminate).
  destruct (ActionNode_expand Toy.toy_ops Toy.toy_model root) as [root'| |] eqn:Ex;
    try (inversion E; subst; vm_compute in Ex; discriminate).
  assert (Ht : terminal root = false) by (inversion E; reflexivity).
  pose proof (proj2 (C6_child_class_and_initial_Q _ Toy.toy_ops Toy.toy_model root)
                    root' Ht Ex) as H.
  destruct (H 0%Z) as (e0 & c0 & G0 & _ & _ & I0);
    [inversion E; subst; simpl; auto|].
  destruct (H 1%Z) as (e1 & c1 & G1 & _ & _ & I1);
    [inversion E; subst; simpl; auto|].
  exists root, w, root', e0, e1.
  split; [reflexivity|]. split; [exact Ex|]. split; [exact G0|].
  split; [apply I0; inversion E; subst; simpl; split; [discriminate | reflexivity]|].
  split; [exact G1|].
  destruct (is_action (node e1)) eqn:Ea; [reflexivity|].
  destruct (proj1 I1 eq_refl) as [_ Hh]. inversion E; subst. discriminate Hh.
Defined.

Lemma C10_witness :
  exists root w root1 root2 r w2,
    Toy.fresh_root Toy.g2 = Ok (root, w)
    /\ Toy.toy_visit 10 root w = Ok (root1, None, w)
    /\ Toy.toy_visit 10 root1 w = Ok (root2, r, w2)
    /\ (exists a, r = Some a).
Proof.
  destruct (Toy.fresh_root Toy.g2) as [[root w]| |] eqn:E;
    try (vm_compute in E; discriminate).
  destruct (Toy.toy_visit 10 root w) as [[[root1 r1] w1]| |] eqn:E1;
    try (inversion E; subst; vm_compute in E1; discriminate).
  destruct (Toy.toy_visit 10 root1 w1) as [[[root2 r] w2]| |] eqn:E2;
    try (inversion E; subst; vm_compute in E1; inversion E1; subst;
         vm_compute in E2; discriminate).
  assert (Er : r1 = None /\ w1 = w).
  { inversion E; subst. vm_compute in E1. inversion E1; auto. }
  destruct Er as [-> ->].
  exists root, w, root1, root2, r, w2.
  split; [reflexivity|]. split; [exact E1|]. split; [exact E2|].
  unfold Toy.toy_visit in E2.
  apply (proj1 (proj1 (C10_visit_returns_action_only_on_selection_path
                         _ Toy.toy_ops Toy.toy_model Toy.sqrt6 perturb_prob_simplex_spec
                         (Toy.const_uniform (1 # 3)))
                      10%nat root1 root2 r w w2 E2)).
  inversion E; subst. vm_compute in E1. inversion E1; subst.
  repeat split; reflexivity.
Defined.

(** * Further properties of the engine *)

(** ** Arrays written by index *)

Lemma set_nth_inv {A} (l : list A) : forall (i : nat) (v : A) (l' : list A),
  set_nth l i v = Ok l' ->
  (i < length l)%nat /\ length l' = length l
  /\ forall (j : nat) (d : A), nth j l' d = if (j =? i)%nat then v else nth j l d.
Proof.
  induction l as [|x l IH]; intros [|i] v l' E; simpl in E; try discriminate.
  - inversion E; subst. simpl. split; [lia|]. split; [reflexivity|].
    intros [|j] d; reflexivity.
  - apply rbind_ok in E. destruct E as (l1 & E1 & E). inversion E; subst.
    destruct (IH _ _ _ E1) as (H1 & H2 & H3). simpl.
    split; [lia|]. split; [now rewrite H2|].
    intros [|j] d; [reflexivity | apply H3].
Qed.

Lemma set_nth_ok {A} (l : list A) : forall (i : nat) (v : A),
  (i < length l)%nat -> exists l', set_nth l i v = Ok l'.
Proof.
  induction l as [|x l IH]; intros [|i] v H; simpl in *; try lia.
  - eauto.
  - destruct (IH i v ltac:(lia)) as (l' & ->). simpl. eauto.
Qed.

Lemma set_nth_raises {A} (l : list A) : forall (i : nat) (v : A),
  (length l <= i)%nat -> set_nth l i v = Raise IndexError.
Proof.
  induction l as [|x l IH]; intros [|i] v H; simpl in *; try lia; try reflexivity.
  now rewrite IH by lia.
Qed.

(** One edge whose index is not below the number of children makes the
    scatter loop of [computePUCT] raise. *)
Lemma scatter_fold_raises {IS} (c : nat) (rest : dict (Edge IS)) :
  forall acc : list Interval * list Q,
    length (fst acc) = c -> length (snd acc) = c ->
    (exists kv, In kv rest /\ (c <= index (snd kv))%nat) ->
    foldM (fun (acc : list Interval * list Q) (kv : Z * Edge IS) =>
             let i := index (snd kv) in
             let child := node (snd kv) in
             Qs <- set_nth (fst acc) i (Q_of child) ;;
             Ns <- set_nth (snd acc) i (nat2q (N_of child)) ;;
             Ok (Qs, Ns))
          rest acc
    = Raise IndexError.
Proof.
  induction rest as [|kv0 rest IH]; intros acc HQ HN (kv & Hin & Hbad).
  - destruct Hin.
  - cbn [foldM]. cbv zeta.
    destruct (Nat.lt_ge_cases (index (snd kv0)) c) as [Hlt|Hge].
    + destruct (set_nth_ok (fst acc) (index (snd kv0)) (Q_of (node (snd kv0))))
        as (Qs & EQ); [lia|].
      destruct (set_nth_ok (snd acc) (index (snd kv0)) (nat2q (N_of (node (snd kv0)))))
        as (Ns & EN); [lia|].
      rewrite EQ. cbn [rbind]. rewrite EN. cbn [rbind].
      apply set_nth_inv in EQ. apply set_nth_inv in EN.
      apply IH; cbn [fst snd]; [lia | lia |].
      destruct Hin as [->|Hin]; [lia|]. eauto.
    + rewrite set_nth_raises by lia. reflexivity.
Qed.

(** ** [Node.add_child] *)

(** X1. After [add_child(key, node)] the lookup [children[key]] yields an
    edge to [node] whose index is the number of children before the call;
    every other key is untouched.  A new key is appended at the end of the
    dictionary, an existing key keeps its place and the number of children
    does not grow. *)
Theorem X1_add_child_then_lookup :
  forall (IS : Type) (n : Node IS) (key : Z) (child : Node IS),
    child_at (add_child n key child) key
    = Ok (mkEdge (length (children n)) child)
    /\ (forall k, k <> key -> child_at (add_child n key child) k = child_at n k)
    /\ (~ In key (keys (children n)) ->
        children (add_child n key child)
        = children n ++ [(key, mkEdge (length (children n)) child)])
    /\ (In key (keys (children n)) ->
        keys (children (add_child n key child)) = keys (children n))
    /\ base (add_child n key child) = base n
    /\ kind (add_child n key child) = kind n.
Proof.
  intros IS n key child. unfold child_at. autorewrite with node.
  split; [|split; [|split; [|split; [|split]]]]; try reflexivity.
  - rewrite dict_get_dict_set, Z.eqb_refl. reflexivity.
  - intros k Hk. rewrite dict_get_dict_set.
    destruct (Z.eqb_spec k key); [contradiction | reflexivity].
  - intros Hn. now apply dict_set_fresh.
  - intros Hi. rewrite keys_dict_set.
    destruct (in_dec Z.eq_dec key (keys (children n))); [reflexivity | contradiction].
Qed.

Lemma dict_set_In {V} (d : dict V) (k : Z) (v : V) : In (k, v) (dict_set d k v).
Proof.
  induction d as [|[k' v'] d IH]; simpl; [auto|].
  destruct (Z.eqb_spec k k'); simpl; auto.
Qed.

(** X2. Adding a child under a key that is already present leaves an edge
    whose index equals the number of children, which is out of range for
    the arrays of [computePUCT]: the call raises [IndexError]. *)
Theorem X2_overwritten_key_breaks_computePUCT :
  forall (IS : Type) (np_sqrt : Q -> Q) (n : Node IS) (key : Z) (child : Node IS),
    In key (keys (children n)) ->
    computePUCT np_sqrt (add_child n key child) = Raise IndexError.
Proof.
  intros IS np_sqrt n key child Hin.
  unfold computePUCT, scatter_children.
  rewrite (scatter_fold_raises (length (children (add_child n key child)))).
  - reflexivity.
  - cbn [fst]. apply repeat_length.
  - cbn [snd]. apply repeat_length.
  - exists (key, mkEdge (length (children n)) child). split.
    + autorewrite with node. apply dict_set_In.
    + autorewrite with node. rewrite length_dict_set.
      destruct (in_dec Z.eq_dec key (keys (children n))); [|contradiction].
      cbn [snd index]. lia.
Qed.

Lemma X2_witness :
  exists n child,
    Toy.action_node Toy.g2 = Ok n /\ Toy.action_node Toy.win = Ok child
    /\ In 7%Z (keys (children (add_child n 7 child)))
    /\ computePUCT Toy.sqrt6 (add_child (add_child n 7 child) 7 child)
       = Raise IndexError.
Proof.
  destruct (Toy.action_node Toy.g2) as [n| |] eqn:E1;
    try (vm_compute in E1; discriminate).
  destruct (Toy.action_node Toy.win) as [child| |] eqn:E2;
    try (vm_compute in E2; discriminate).
  assert (Hin : In 7%Z (keys (children (add_child n 7 child)))).
  { inversion E1; subst. simpl. left; reflexivity. }
  exists n, child. split; [reflexivity|]. split; [reflexivity|].
  split; [exact Hin|].
  exact (X2_overwritten_key_breaks_computePUCT _ Toy.sqrt6
           (add_child n 7 child) 7%Z child Hin).
Defined.

(** ** [ActionNode.get_mixing_distribution] *)

Lemma index_mask_fold (idx : list nat) : forall (m0 mask : list Q),
  foldM (fun mask i => set_nth mask i 1) idx m0 = Ok mask ->
  length mask = length m0
  /\ (forall i, In i idx -> (i < length m0)%nat)
  /\ forall i, nth i mask 0 = if among idx i then 1 else nth i m0 0.
Proof.
  induction idx as [|a idx IH]; intros m0 mask E; cbn [foldM] in E.
  - inversion E; subst. split; [reflexivity|]. split; [intros i []|]. reflexivity.
  - apply rbind_ok in E. destruct E as (m1 & E1 & E).
    apply set_nth_inv in E1. destruct E1 as (Ha & Hl & Hn).
    destruct (IH _ _ E) as (H1 & H2 & H3).
    split; [congruence|]. split.
    + intros i [<-|Hi]; [assumption|]. rewrite <- Hl. auto.
    + intros i. rewrite H3, Hn. unfold among. cbn [existsb].
      destruct (existsb (Nat.eqb i) idx); [now rewrite orb_true_r|].
      rewrite orb_false_r. reflexivity.
Qed.

Lemma index_mask_inv (len : nat) (idx : list nat) (mask : list Q) :
  index_mask len idx = Ok mask ->
  length mask = len
  /\ (forall i, In i idx -> (i < len)%nat)
  /\ forall i, nth i mask 0 = if among idx i then 1 else 0.
Proof.
  unfold index_mask. intros E. apply index_mask_fold in E.
  rewrite repeat_length in E. destruct E as (H1 & H2 & H3).
  split; [assumption|]. split; [assumption|].
  intros i. rewrite H3. destruct (among idx i); [reflexivity|].
  destruct (Nat.lt_ge_cases i len).
  - now rewrite nth_repeat_lt.
  - apply nth_overflow. now rewrite repeat_length.
Qed.

Lemma index_mask_fold_ok (idx : list nat) : forall m0 : list Q,
  (forall i, In i idx -> (i < length m0)%nat) ->
  exists mask, foldM (fun mask i => set_nth mask i 1) idx m0 = Ok mask.
Proof.
  induction idx as [|a idx IH]; intros m0 H; cbn [foldM]; [eauto|].
  destruct (set_nth_ok m0 a 1) as (m1 & E1); [apply H; left; reflexivity|].
  rewrite E1. cbn [rbind]. apply IH.
  apply set_nth_inv in E1. destruct E1 as (_ & -> & _).
  intros i Hi. apply H. right; assumption.
Qed.

Lemma index_mask_fold_raises (idx : list nat) : forall m0 : list Q,
  (exists i, In i idx /\ (length m0 <= i)%nat) ->
  foldM (fun mask i => set_nth mask i 1) idx m0 = Raise IndexError.
Proof.
  induction idx as [|a idx IH]; intros m0 (i & Hi & Hbad); [destruct Hi|].
  cbn [foldM]. destruct (Nat.lt_ge_cases a (length m0)) as [Hlt|Hge].
  - destruct (set_nth_ok m0 a 1 Hlt) as (m1 & E1). rewrite E1. cbn [rbind].
    apply set_nth_inv in E1. destruct E1 as (_ & Hl & _).
    apply IH. exists i. rewrite Hl. destruct Hi as [->|Hi]; [lia | auto].
  - now rewrite set_nth_raises.
Qed.

Lemma nth_zip_with_mult (xs : list Q) : forall (ys : list Q) (i : nat),
  length xs = length ys ->
  nth i (zip_with Qmult xs ys) 0 == nth i xs 0 * nth i ys 0.
Proof.
  induction xs as [|x xs IH]; intros [|y ys] i E; simpl in E; try discriminate.
  - destruct i; simpl; ring.
  - destruct i as [|i]; simpl; [reflexivity|]. apply IH. lia.
Qed.

Lemma nth_map_div (l : list Q) (s : Q) : forall i : nat,
  nth i (map (fun p => p / s) l) 0 == nth i l 0 / s.
Proof.
  induction l as [|x l IH]; intros [|i]; simpl; try reflexivity;
    try (unfold Qdiv; ring). apply IH.
Qed.

Lemma np_sum_nonpos (l : list Q) : (forall i, nth i l 0 <= 0) -> np_sum l <= 0.
Proof.
  induction l as [|x l IH]; intros H; simpl; [lra|].
  pose proof (H 0%nat) as H0. simpl in H0.
  assert (np_sum l <= 0) by (apply IH; intros i; exact (H (S i))).
  unfold np_sum in *. lra.
Qed.

Lemma among_In (idx : list nat) (i : nat) : among idx i = true <-> In i idx.
Proof.
  unfold among. rewrite existsb_exists. split.
  - intros (x & Hx & E). apply Nat.eqb_eq in E. now subst.
  - intros H. exists i. split; [assumption | apply Nat.eqb_refl].
Qed.

Lemma get_mixing_distribution_inv :
  forall (IS : Type) (self : Node IS) (action_indices : list nat) (d : list Q),
    get_mixing_distribution self action_indices = Ok d ->
    exists P s,
      P_of self = Some P
      /\ 0 < s
      /\ length d = length P
      /\ (forall i, In i action_indices -> (i < length P)%nat)
      /\ (forall i, In i action_indices -> nth i d 0 == nth i P 0 / s)
      /\ (forall i, ~ In i action_indices -> nth i d 0 == 0)
      /\ np_sum d == 1.
Proof.
  intros IS self idx d E. unfold get_mixing_distribution in E.
  apply rbind_ok in E. destruct E as (P & EP & E). apply opt_get_ok in EP.
  apply rbind_ok in E. destruct E as (mask & Em & E).
  apply index_mask_inv in Em. destruct Em as (Hl & Hr & Hm).
  destruct (Qltb 0 (np_sum (zip_with Qmult P mask))) eqn:Es; [|discriminate].
  apply Qltb_true in Es. inversion E; subst d; clear E.
  exists P, (np_sum (zip_with Qmult P mask)).
  split; [assumption|]. split; [assumption|].
  split; [rewrite length_map; apply zip_with_length; congruence|].
  split; [assumption|]. split; [|split].
  - intros i Hi. rewrite nth_map_div, nth_zip_with_mult by congruence.
    rewrite Hm. apply among_In in Hi. rewrite Hi. unfold Qdiv. ring.
  - intros i Hi. rewrite nth_map_div, nth_zip_with_mult by congruence.
    rewrite Hm. destruct (among idx i) eqn:Ea; [apply among_In in Ea; contradiction|].
    unfold Qdiv. ring.
  - rewrite np_sum_map_div. field. lra.
Qed.

(** X3. When [get_mixing_distribution] returns, the result has the length
    of [P], is zero outside the candidate indices, is proportional to [P]
    on them (with one positive factor) and sums to one; all candidate
    indices were in range. *)
Theorem X3_mixing_distribution_is_P_renormalised_on_the_candidates :
  forall (IS : Type) (self : Node IS) (action_indices : list nat) (d : list Q),
    get_mixing_distribution self action_indices = Ok d ->
    exists P s,
      P_of self = Some P
      /\ 0 < s
      /\ length d = length P
      /\ (forall i, In i action_indices -> (i < length P)%nat)
      /\ (forall i, In i action_indices -> nth i d 0 == nth i P 0 / s)
      /\ (forall i, ~ In i action_indices -> nth i d 0 == 0)
      /\ np_sum d == 1.
Proof. exact get_mixing_distribution_inv. Qed.

(** X4. The failures of [get_mixing_distribution] on an evaluated node: an
    index outside [P] raises [IndexError]; with all indices in range, the
    assertion [s > 0] fails as soon as no candidate has a positive prior,
    in particular for an empty candidate list. *)
Theorem X4_mixing_distribution_failures :
  forall (IS : Type) (self : Node IS) (action_indices : list nat) (P : list Q),
    P_of self = Some P ->
    ((exists i, In i action_indices /\ (length P <= i)%nat) ->
     get_mixing_distribution self action_indices = Raise IndexError)
    /\ ((forall i, In i action_indices -> (i < length P)%nat /\ nth i P 0 <= 0) ->
        get_mixing_distribution self action_indices = Raise AssertionError).
Proof.
  intros IS self idx P HP. unfold get_mixing_distribution, index_mask.
  rewrite HP. cbn [opt_get rbind]. split.
  - intros Hbad. rewrite index_mask_fold_raises; [reflexivity|].
    now rewrite repeat_length.
  - intros Hall.
    destruct (index_mask_fold_ok idx (repeat 0 (length P))) as (mask & Em).
    { rewrite repeat_length. intros i Hi. now apply Hall. }
    rewrite Em. cbn [rbind].
    apply (index_mask_inv (length P)) in Em. destruct Em as (Hl & _ & Hm).
    assert (Hs : np_sum (zip_with Qmult P mask) <= 0).
    { apply np_sum_nonpos. intros i.
      rewrite nth_zip_with_mult by congruence. rewrite Hm.
      destruct (among idx i) eqn:Ea.
      - apply among_In in Ea. destruct (Hall i Ea) as [_ Hle]. lra.
      - lra. }
    apply Qltb_false in Hs. now rewrite Hs.
Qed.

Lemma X3_witness :
  exists n d,
    Toy.action_node Toy.g2 = Ok n
    /\ get_mixing_distribution (ActionNode_eval_model Toy.toy_model n) [0; 1]%nat = Ok d
    /\ length d = 2%nat /\ np_sum d == 1.
Proof.
  destruct (Toy.action_node Toy.g2) as [n| |] eqn:E1;
    try (vm_compute in E1; discriminate).
  destruct (get_mixing_distribution (ActionNode_eval_model Toy.toy_model n) [0; 1]%nat)
    as [d| |] eqn:E2; try (inversion E1; subst; vm_compute in E2; discriminate).
  exists n, d. split; [reflexivity|]. split; [exact E2|].
  destruct (X3_mixing_distribution_is_P_renormalised_on_the_candidates _ _ _ _ E2)
    as (P & s & HP & _ & Hl & _ & _ & _ & Hs).
  split; [|exact Hs]. rewrite Hl. inversion E1; subst.
  vm_compute in HP. inversion HP; reflexivity.
Defined.

Lemma X4_witness :
  exists n P,
    Toy.action_node Toy.g2 = Ok n
    /\ P_of (ActionNode_eval_model Toy.toy_model n) = Some P
    /\ get_mixing_distribution (ActionNode_eval_model Toy.toy_model n) [5]%nat
       = Raise IndexError
    /\ get_mixing_distribution (ActionNode_eval_model Toy.toy_model n) []
       = Raise AssertionError.
Proof.
  destruct (Toy.action_node Toy.g2) as [n| |] eqn:E1;
    try (vm_compute in E1; discriminate).
  destruct (P_of (ActionNode_eval_model Toy.toy_model n)) as [P|] eqn:E2;
    try (inversion E1; subst; vm_compute in E2; discriminate).
  exists n, P. split; [reflexivity|]. split; [exact E2|].
  assert (HP : length P = 2%nat).
  { inversion E1; subst. vm_compute in E2. inversion E2; reflexivity. }
  split.
  - apply (proj1 (X4_mixing_distribution_failures _ _ [5]%nat P E2)).
    exists 5%nat. split; [left; reflexivity | lia].
  - apply (proj2 (X4_mixing_distribution_failures _ _ [] P E2)).
    intros i [].
Defined.

(** ** [eval_model] *)

(** X5. [eval_model] is idempotent: on a node that was evaluated once, a
    second call changes nothing and does not consult its model, whatever
    that model is. *)
Theorem X5_eval_model_twice_is_eval_model_once :
  forall (IS : Type) (model model2 : Model IS) (n n' : Node IS),
    eval_model model n = Ok n' -> eval_model model2 n' = Ok n'.
Proof.
  intros IS model model2 [b c [a sp|s]] n'; unfold eval_model; simpl.
  - intros E; inversion E; subst n'; clear E.
    unfold ActionNode_eval_model; simpl.
    destruct (a_P a) eqn:EP; simpl; [now rewrite EP|].
    destruct (terminal (mkNode b c (KAction a sp))) eqn:Et; simpl.
    + now rewrite EP, Et.
    + destruct (action_eval model _ _) as [[P V] Vc]. reflexivity.
  - unfold SamplingNode_eval_model; simpl.
    destruct (s_H s) eqn:EH.
    + intros E; inversion E; subst n'. simpl. now rewrite EH.
    + destruct (hidden_eval model _ _) as [[H V] Vc].
      destruct (apply_H_mask H (H_mask s)) as [H'| |]; simpl; try discriminate.
      intros E; inversion E; subst n'. reflexivity.
Qed.

Lemma X5_witness :
  exists n n',
    Toy.sampling_node Toy.g_deal = Ok n
    /\ eval_model Toy.toy_model n = Ok n'
    /\ n' <> n
    /\ eval_model Toy.bad_model n' = Ok n'.
Proof.
  destruct (Toy.sampling_node Toy.g_deal) as [n| |] eqn:E1;
    try (vm_compute in E1; discriminate).
  destruct (eval_model Toy.toy_model n) as [n'| |] eqn:E2;
    try (inversion E1; subst; vm_compute in E2; discriminate).
  exists n, n'. split; [reflexivity|]. split; [exact E2|]. split.
  - inversion E1; subst. vm_compute in E2. inversion E2; subst. discriminate.
  - exact (X5_eval_model_twice_is_eval_model_once _ Toy.toy_model Toy.bad_model n n' E2).
Defined.

(** ** What a visit leaves alone *)

Lemma with_N_same {IS} (b : Base IS) : with_N b (node_N b) = b.
Proof. destruct b; reflexivity. Qed.

Lemma set_base_same {IS} (n : Node IS) : set_base n (base n) = n.
Proof. destruct n; reflexivity. Qed.

Lemma edge_layout_replace_child {IS} (n : Node IS) (key : Z) (child : Node IS) :
  edge_layout (set_children n (replace_child (children n) key child)) = edge_layout n.
Proof.
  unfold edge_layout. autorewrite with node.
  induction (children n) as [|[k e] d IH]; simpl; [reflexivity|].
  destruct (Z.eqb_spec key k); simpl; [reflexivity | now rewrite IH].
Qed.

Lemma model_data_kind {IS} (n n' : Node IS) :
  kind n' = kind n -> model_data n' = model_data n.
Proof.
  unfold model_data, P_of, H_of, V_of, Vc_of, actions_of, H_mask_of.
  now intros ->.
Qed.

Lemma model_data_set_spawned {IS} (n : Node IS) (t : option (Tree IS)) :
  model_data (set_spawned_tree n t) = model_data n.
Proof. destruct n as [b c [a sp|s]]; reflexivity. Qed.

Lemma model_data_set_expanded {IS} (n : Node IS) :
  actions_of (set_expanded n) = actions_of n
  /\ H_mask_of (set_expanded n) = H_mask_of n
  /\ P_of (set_expanded n) = P_of n /\ H_of (set_expanded n) = H_of n.
Proof. destruct n as [b c [a sp|s]]; simpl; auto. Qed.

Lemma model_data_fixed {IS} (n n' : Node IS) :
  model_data n' = model_data n ->
  actions_of n' = actions_of n /\ H_mask_of n' = H_mask_of n.
Proof. unfold model_data. intros E. inversion E. auto. Qed.

Section Static.
Context {IS : Type}.
Variable ops : InfoSetOps IS.
Variable model : Model IS.
Variable np_sqrt : Q -> Q.
Variable perturb_prob_simplex : list Interval -> list Q -> Q -> Interval.
Variable uniform : nat -> Q.

Local Abbreviation visit' := (visit ops model np_sqrt perturb_prob_simplex uniform).

(** The common tail of the recursing visits leaves the class data, the
    identity and the layout of the edges alone. *)
Lemma visit_child_static (vis : Node IS -> M (Node IS * option Action))
  (self self' : Node IS) (key : Z) (probs : option (list Q)) (w w' : World) :
  visit_child perturb_prob_simplex vis self key probs w = Ok (self', w') ->
  identity_of self' = identity_of self
  /\ kind self' = kind self
  /\ edge_layout self' = edge_layout self.
Proof.
  intros E. apply visit_child_inv in E.
  destruct E as (e & child & r & _ & _ & Hu).
  apply update_Q_inv in Hu. destruct Hu as (ui & V & _ & _ & Hc & Hk & Hb).
  autorewrite with node in *.
  split; [unfold identity_of; now rewrite Hb|]. split; [assumption|].
  rewrite <- (edge_layout_replace_child self key child).
  unfold edge_layout. autorewrite with node. now rewrite Hc.
Qed.

(** [SamplingNode.expand] evaluates the node, adds children and sets the
    flag; the class data are those of the evaluated node. *)
Lemma SamplingNode_expand_kind (self self' : Node IS) (w w' : World) :
  SamplingNode_expand ops model self w = Ok (self', w') ->
  exists s1,
    SamplingNode_eval_model model self = Ok s1
    /\ base self' = base s1
    /\ kind self' = kind (set_expanded s1).
Proof.
  unfold SamplingNode_expand. intros E.
  apply mbind_ok in E. destruct E as (s1 & w1 & E1 & E).
  apply lift_ok in E1. destruct E1 as [E1 ->].
  apply mbind_ok in E. destruct E as (s2 & w2 & E2 & E).
  apply mret_ok in E. destruct E as [-> ->].
  exists s1. split; [assumption|].
  assert (HP : base s2 = base s1 /\ kind s2 = kind s1).
  { eapply (mfoldM_inv (SamplingNode_expand_child ops model)
              (fun (s : Node IS) (_ : World) => base s = base s1 /\ kind s = kind s1));
      [| |exact E2].
    - intros b x b' wa wb _ [P1 P2] Eb.
      apply SamplingNode_expand_child_inv in Eb. destruct Eb as (c & _ & -> & _).
      now autorewrite with node.
    - auto. }
  destruct HP as [P1 P2]. autorewrite with node. split; [assumption|].
  destruct s2 as [b2 c2 k2], s1 as [b1 c1 k1]. simpl in *. subst.
  destruct k1; reflexivity.
Qed.

Lemma identity_incr_N (n : Node IS) : identity_of (incr_N n) = identity_of n.
Proof. unfold identity_of. now autorewrite with node. Qed.

Lemma identity_set_spawned (n : Node IS) (t : option (Tree IS)) :
  identity_of (set_spawned_tree n t) = identity_of n.
Proof. unfold identity_of. now autorewrite with node. Qed.

Lemma edge_layout_set_spawned (n : Node IS) (t : option (Tree IS)) :
  edge_layout (set_spawned_tree n t) = edge_layout n.
Proof. unfold edge_layout. now autorewrite with node. Qed.

Lemma model_data_incr_N (n : Node IS) : model_data (incr_N n) = model_data n.
Proof. apply model_data_kind. now autorewrite with node. Qed.

Lemma visit_static (fuel : nat) (self self' : Node IS) (r : option Action)
  (w w' : World) :
  visit' fuel self w = Ok (self', r, w') ->
  identity_of self' = identity_of self
  /\ is_action self' = is_action self
  /\ actions_of self' = actions_of self
  /\ H_mask_of self' = H_mask_of self
  /\ expanded_of self'
     = (if is_action self && terminal self then expanded_of self else true)
  /\ (expanded_of self = true ->
      edge_layout self' = edge_layout self /\ model_data self' = model_data self).
Proof.
  intros E. apply visit_inv in E.
  destruct E as (fuel' & -> & [Ha Ht -> _ _ | Ha Ht He Hx _ _ | t Ha Ht He Hs Hx _
                              | Ha Ht He Hs Hx | Ha Hx]).
  - rewrite Ha, Ht, identity_incr_N, model_data_incr_N. simpl.
    unfold edge_layout, H_mask_of. autorewrite with node. auto 10.
  - rewrite Ha, Ht, He. simpl.
    assert (Ht' : terminal (incr_N self) = false) by now autorewrite with node.
    destruct (ActionNode_expand_spec ops model _ _ Ht' Hx) as (cs & V & _ & _ & _ & Hb & Hk).
    destruct (ActionNode_expand_N ops model _ _ Hx) as (_ & _ & Hexp & Hia & _).
    destruct (ActionNode_eval_model_from model (set_expanded (incr_N self)))
      as (_ & _ & _ & _ & Hact & Hm & _).
    autorewrite with node in *.
    unfold identity_of. rewrite Hb. autorewrite with node. cbn [info_set cp game_outcome tree_owner with_Q with_N].
    split; [reflexivity|]. split; [congruence|].
    split; [|split; [|split; [assumption | discriminate]]].
    + unfold actions_of at 1. rewrite Hk. fold (actions_of (ActionNode_eval_model model (set_expanded (incr_N self)))).
      rewrite Hact. now autorewrite with node.
    + unfold H_mask_of at 1. rewrite Hk. fold (H_mask_of (ActionNode_eval_model model (set_expanded (incr_N self)))).
      rewrite Hm. destruct (model_data_set_expanded (incr_N self)) as (_ & -> & _).
      unfold H_mask_of. now autorewrite with node.
  - rewrite Ha, Ht, He. simpl.
    apply spawned_visit_inv in Hx.
    destruct Hx as (t1 & w1 & r1 & action & w2 & _ & _ & Hc).
    apply visit_child_static in Hc. destruct Hc as (Hi & Hk & Hl).
    rewrite identity_set_spawned, identity_incr_N in Hi.
    rewrite edge_layout_set_spawned in Hl.
    pose proof (model_data_kind _ _ Hk) as Hm.
    rewrite model_data_set_spawned, model_data_incr_N in Hm.
    unfold edge_layout in Hl. autorewrite with node in Hl. fold (edge_layout self) in Hl.
    assert (He' : expanded_of self' = true).
    { unfold expanded_of at 1. rewrite Hk.
      fold (expanded_of (set_spawned_tree (incr_N self)
              (Some (mkTree r1 (tree_owner_of t1) (tree_id t1))))).
      now autorewrite with node. }
    assert (Ha' : is_action self' = true).
    { unfold is_action at 1. rewrite Hk.
      fold (is_action (set_spawned_tree (incr_N self)
              (Some (mkTree r1 (tree_owner_of t1) (tree_id t1))))).
      now autorewrite with node. }
    destruct (model_data_fixed _ _ Hm) as [Hy1 Hy2]. auto 10.
  - rewrite Ha, Ht, He. simpl.
    apply unspawned_visit_inv in Hx. destruct Hx as (i & a & w1 & _ & _ & Hc & _).
    apply visit_child_static in Hc. destruct Hc as (Hi & Hk & Hl).
    rewrite identity_incr_N in Hi.
    pose proof (model_data_kind _ _ Hk) as Hm. rewrite model_data_incr_N in Hm.
    unfold edge_layout in Hl. autorewrite with node in Hl. fold (edge_layout self) in Hl.
    assert (He' : expanded_of self' = true).
    { unfold expanded_of at 1. rewrite Hk. fold (expanded_of (incr_N self)).
      now autorewrite with node. }
    assert (Ha' : is_action self' = true).
    { unfold is_action at 1. rewrite Hk. fold (is_action (incr_N self)).
      now autorewrite with node. }
    destruct (model_data_fixed _ _ Hm) as [Hy1 Hy2]. auto 10.
  - rewrite Ha. simpl.
    apply SamplingNode_visit_inv in Hx.
    destruct Hx as (_ & self1 & w1 & H & h & w2 & Hex & _ & _ & Hc).
    apply visit_child_static in Hc. destruct Hc as (Hi & Hk & Hl).
    pose proof (model_data_kind _ _ Hk) as Hm.
    autorewrite with node in Hex.
    destruct (expanded_of self) eqn:He; simpl in Hex.
    + destruct Hex as [-> _].
      rewrite identity_incr_N in Hi. rewrite model_data_incr_N in Hm.
      unfold edge_layout in Hl. autorewrite with node in Hl. fold (edge_layout self) in Hl.
      assert (He' : expanded_of self' = true).
      { unfold expanded_of at 1. rewrite Hk. fold (expanded_of (incr_N self)).
        now autorewrite with node. }
      assert (Ha' : is_action self' = false).
      { unfold is_action at 1. rewrite Hk. fold (is_action (incr_N self)).
        now autorewrite with node. }
      destruct (model_data_fixed _ _ Hm) as [Hy1 Hy2]. auto 10.
    + pose proof (SamplingNode_expand_inv _ _ _ _ _ _ Hex) as (_ & Hia & Hexp & _).
      apply SamplingNode_expand_kind in Hex.
      destruct Hex as (s1 & Es & Hb1 & Hk1).
      apply SamplingNode_eval_model_from in Es.
      destruct Es as (_ & _ & _ & _ & Hact & Hmask & Hb).
      autorewrite with node in *.
      assert (He' : expanded_of self' = true).
      { unfold expanded_of at 1. rewrite Hk. exact Hexp. }
      assert (Ha' : is_action self' = false).
      { unfold is_action at 1. rewrite Hk. fold (is_action self1). congruence. }
      destruct (model_data_set_expanded s1) as (Hx1 & Hx2 & _).
      split; [|split; [congruence|split; [|split; [|split; [assumption|discriminate]]]]].
      * rewrite Hi. unfold identity_of. rewrite Hb1.
        destruct Hb as [->|[V ->]]; now autorewrite with node.
      * destruct (model_data_fixed _ _ Hm) as [Hy _]. rewrite Hy.
        unfold actions_of at 1. rewrite Hk1. fold (actions_of (set_expanded s1)).
        rewrite Hx1, Hact. unfold actions_of. now autorewrite with node.
      * destruct (model_data_fixed _ _ Hm) as [_ Hy]. rewrite Hy.
        unfold H_mask_of at 1. rewrite Hk1. fold (H_mask_of (set_expanded s1)).
        rewrite Hx2, Hmask. unfold H_mask_of. now autorewrite with node.
Qed.
End Static.

Lemma visit_times_terminal :
  forall (IS : Type) (ops : InfoSetOps IS) (model : Model IS) (np_sqrt : Q -> Q)
         (perturb_prob_simplex : list Interval -> list Q -> Q -> Interval)
         (uniform : nat -> Q) (fuel k : nat) (self : Node IS) (w : World),
    is_action self = true -> terminal self = true ->
    visit_times (visit ops model np_sqrt perturb_prob_simplex uniform (S fuel)) k self w
    = Ok (set_base self (with_N (base self) (k + N_of self)), w).
Proof.
  intros IS ops model np_sqrt perturb uniform fuel k.
  induction k as [|k IH]; intros self w Ha Ht.
  - simpl. unfold N_of. now rewrite with_N_same, set_base_same.
  - cbn [visit_times]. unfold mbind at 1.
    rewrite visit_terminal by assumption.
    rewrite IH by now autorewrite with node.
    autorewrite with node. rewrite Nat.add_succ_r.
    destruct self as [b c kd]. reflexivity.
Qed.

(** X6. Visits of a terminal [ActionNode] only count: [k] visits return,
    leave the generator and the tree counter alone, and change nothing but
    [N], which grows by [k].  In particular the node is never expanded and
    its [Q] stays the outcome for the tree owner. *)
Theorem X6_visits_of_a_terminal_node_only_count :
  forall (IS : Type) (ops : InfoSetOps IS) (model : Model IS) (np_sqrt : Q -> Q)
         (perturb_prob_simplex : list Interval -> list Q -> Q -> Interval)
         (uniform : nat -> Q) (fuel k : nat) (self : Node IS) (w : World),
    is_action self = true -> terminal self = true ->
    visit_times (visit ops model np_sqrt perturb_prob_simplex uniform (S fuel)) k self w
    = Ok (set_base self (with_N (base self) (k + N_of self)), w).
Proof. exact visit_times_terminal. Qed.

Lemma X6_witness :
  exists n n',
    Toy.action_node Toy.win = Ok n
    /\ is_action n = true /\ terminal n = true
    /\ visit_times (Toy.toy_visit 1) 5 n Toy.w0 = Ok (n', Toy.w0)
    /\ N_of n' = 5%nat /\ Q_of n' = (1, 1) /\ children n' = []
    /\ expanded_of n' = false.
Proof.
  destruct (Toy.action_node Toy.win) as [n| |] eqn:E1;
    try (vm_compute in E1; discriminate).
  assert (Ha : is_action n = true) by (inversion E1; reflexivity).
  assert (Ht : terminal n = true) by (inversion E1; reflexivity).
  exists n, (set_base n (with_N (base n) (5 + N_of n))).
  split; [reflexivity|]. split; [exact Ha|]. split; [exact Ht|].
  split; [exact (X6_visits_of_a_terminal_node_only_count
                   _ Toy.toy_ops Toy.toy_model Toy.sqrt6 perturb_prob_simplex_spec
                   (Toy.const_uniform (1 # 3)) 0 5 n Toy.w0 Ha Ht)|].
  inversion E1; subst. repeat split; reflexivity.
Defined.

(** X7. A visit that returns never changes what the node is about: the
    information set, the current player, the outcome, the tree owner, the
    class, the action list and the legality mask are those from before.
    Afterwards the node is expanded, unless it is a terminal [ActionNode],
    whose flag stays as it was. *)
Theorem X7_visit_keeps_the_identity_and_expands :
  forall (IS : Type) (ops : InfoSetOps IS) (model : Model IS) (np_sqrt : Q -> Q)
         (perturb_prob_simplex : list Interval -> list Q -> Q -> Interval)
         (uniform : nat -> Q) (fuel : nat) (self self' : Node IS)
         (r : option Action) (w w' : World),
    visit ops model np_sqrt perturb_prob_simplex uniform fuel self w
    = Ok (self', r, w') ->
    identity_of self' = identity_of self
    /\ is_action self' = is_action self
    /\ actions_of self' = actions_of self
    /\ H_mask_of self' = H_mask_of self
    /\ expanded_of self'
       = (if is_action self && terminal self then expanded_of self else true).
Proof.
  intros IS ops model np_sqrt perturb uniform fuel self self' r w w' E.
  destruct (visit_static _ _ _ _ _ _ _ _ _ _ _ E) as (H1 & H2 & H3 & H4 & H5 & _).
  auto.
Qed.

Lemma X7_witness :
  exists n w n' r w',
    Toy.fresh_root Toy.g_hidden = Ok (n, w)
    /\ Toy.toy_visit 10 n w = Ok (n', r, w')
    /\ identity_of n' = identity_of n
    /\ expanded_of n = false /\ expanded_of n' = true.
Proof.
  destruct (Toy.fresh_root Toy.g_hidden) as [[n w]| |] eqn:E1;
    try (vm_compute in E1; discriminate).
  destruct (Toy.toy_visit 10 n w) as [[[n' r] w']| |] eqn:E2;
    try (inversion E1; subst; vm_compute in E2; discriminate).
  exists n, w, n', r, w'. split; [reflexivity|]. split; [exact E2|].
  unfold Toy.toy_visit in E2.
  destruct (X7_visit_keeps_the_identity_and_expands _ _ _ _ _ _ _ _ _ _ _ _ E2)
    as (H1 & _ & _ & _ & H5).
  split; [exact H1|]. inversion E1; subst. split; [reflexivity|].
  rewrite H5. reflexivity.
Defined.

(** X8. Once a node is expanded, no number of further visits adds, removes
    or reorders a child or changes an edge index, and the stored outputs of
    the model ([P] or [H], [V], [Vc]) stay as they are: the node is never
    expanded or evaluated a second time. *)
Theorem X8_expanded_node_keeps_its_children_and_model_outputs :
  forall (IS : Type) (ops : InfoSetOps IS) (model : Model IS) (np_sqrt : Q -> Q)
         (perturb_prob_simplex : list Interval -> list Q -> Q -> Interval)
         (uniform : nat -> Q) (fuel k : nat) (self self' : Node IS) (w w' : World),
    expanded_of self = true ->
    visit_times (visit ops model np_sqrt perturb_prob_simplex uniform fuel) k self w
    = Ok (self', w') ->
    expanded_of self' = true
    /\ edge_layout self' = edge_layout self
    /\ model_data self' = model_data self.
Proof.
  intros IS ops model np_sqrt perturb uniform fuel k self self' w w' He E.
  refine (visit_times_inv (visit ops model np_sqrt perturb uniform fuel)
            (fun a b => expanded_of a = true ->
                        expanded_of b = true /\ edge_layout b = edge_layout a
                        /\ model_data b = model_data a)
            _ _ k self self' w w' E He).
  - auto.
  - intros n1 n2 n3 r wa wb E1 H23 He1.
    destruct (visit_static _ _ _ _ _ _ _ _ _ _ _ E1) as (_ & _ & _ & _ & H5 & H6).
    destruct (H6 He1) as [Hl Hm].
    assert (He2 : expanded_of n2 = true).
    { rewrite H5. destruct (is_action n1 && terminal n1); auto. }
    destruct (H23 He2) as (H7 & H8 & H9).
    split; [assumption|]. split; congruence.
Qed.

Lemma X8_witness :
  exists n w n1 w1 n2 w2,
    Toy.fresh_root Toy.g_hidden = Ok (n, w)
    /\ visit_times (Toy.toy_visit 10) 1 n w = Ok (n1, w1)
    /\ expanded_of n1 = true
    /\ visit_times (Toy.toy_visit 10) 4 n1 w1 = Ok (n2, w2)
    /\ edge_layout n2 = [(0%Z, 0%nat); (1%Z, 1%nat)]
    /\ model_data n2 = model_data n1.
Proof.
  destruct (Toy.fresh_root Toy.g_hidden) as [[n w]| |] eqn:E1;
    try (vm_compute in E1; discriminate).
  destruct (visit_times (Toy.toy_visit 10) 1 n w) as [[n1 w1]| |] eqn:E2;
    try (inversion E1; subst; vm_compute in E2; discriminate).
  destruct (visit_times (Toy.toy_visit 10) 4 n1 w1) as [[n2 w2]| |] eqn:E3;
    try (inversion E1; subst; vm_compute in E2; inversion E2; subst;
         vm_compute in E3; discriminate).
  assert (He : expanded_of n1 = true).
  { inversion E1; subst. vm_compute in E2. inversion E2; subst. reflexivity. }
  exists n, w, n1, w1, n2, w2.
  split; [reflexivity|]. split; [exact E2|]. split; [exact He|]. split; [exact E3|].
  unfold Toy.toy_visit in E3.
  destruct (X8_expanded_node_keeps_its_children_and_model_outputs
              _ _ _ _ _ _ _ _ _ _ _ _ He E3) as (_ & H2 & H3).
  split; [|exact H3]. rewrite H2.
  inversion E1; subst. vm_compute in E2. inversion E2; subst. reflexivity.
Defined.

(** ** [SamplingNode.expand] *)

Lemma mfoldM_not_ok {A B} (f : B -> A -> M B) (Inv : B -> Prop) (x : A) (l : list A) :
  In x l ->
  (forall b w r, Inv b -> f b x w <> Ok r) ->
  (forall b y w b' w', Inv b -> f b y w = Ok (b', w') -> Inv b') ->
  forall b w r, Inv b -> mfoldM f l b w <> Ok r.
Proof.
  intros Hin Hbad Hstep. induction l as [|y l IH]; [destruct Hin|].
  intros b w [b' w'] Hb E. cbn [mfoldM] in E.
  apply mbind_ok in E. destruct E as (b1 & w1 & E1 & E).
  destruct Hin as [->|Hin].
  - exact (Hbad _ _ _ Hb E1).
  - exact (IH Hin _ _ _ (Hstep _ _ _ _ _ Hb E1) E).
Qed.

Lemma SamplingNode_new_child_hidden {IS} (ops : InfoSetOps IS) (model : Model IS)
  (self : Node IS) (h : nat) (w : World) (r : Node IS * World) :
  has_hidden_info ops (instantiate_hidden_state ops (info_set (base self)) h) = true ->
  SamplingNode_new_child ops model self h w <> Ok r.
Proof.
  intros Hh E. unfold SamplingNode_new_child in E. rewrite Hh in E.
  destruct (negb _); [discriminate|]. destruct r as [c w'].
  apply mbind_ok in E. destruct E as (? & ? & _ & E).
  apply mbind_ok in E. destruct E as (? & ? & _ & E).
  apply mbind_ok in E. destruct E as (? & ? & _ & E).
  apply mbind_ok in E. destruct E as (? & ? & _ & E). discriminate.
Qed.

(** X9. [SamplingNode.expand] cannot complete when a legal hidden state
    still has hidden information: the child is then a [SamplingNode], and
    the loop reads [node.spawned_tree], an attribute that only an
    [ActionNode] has.  Hence no visit of such an unexpanded node returns
    either. *)
Theorem X9_SamplingNode_expand_fails_on_nested_hidden_info :
  forall (IS : Type) (ops : InfoSetOps IS) (model : Model IS) (np_sqrt : Q -> Q)
         (perturb_prob_simplex : list Interval -> list Q -> Q -> Interval)
         (uniform : nat -> Q) (self : Node IS) (h : nat),
    nth_error (H_mask_of self) h = Some true ->
    has_hidden_info ops (instantiate_hidden_state ops (info_set (base self)) h) = true ->
    (forall w r, SamplingNode_expand ops model self w <> Ok r)
    /\ (expanded_of self = false ->
        forall fuel w r,
          visit ops model np_sqrt perturb_prob_simplex uniform fuel self w <> Ok r).
Proof.
  intros IS ops model np_sqrt perturb uniform self h Hm Hh.
  assert (Hexp : forall s w r,
             base s = base self \/ base s = with_N (base self) (S (N_of self)) ->
             H_mask_of s = H_mask_of self ->
             SamplingNode_expand ops model s w <> Ok r).
  { intros s w [s' w'] Hb Hmask E. unfold SamplingNode_expand in E.
    apply mbind_ok in E. destruct E as (s1 & w1 & E1 & E).
    apply lift_ok in E1. destruct E1 as [E1 ->].
    apply mbind_ok in E. destruct E as (s2 & w2 & E2 & _).
    apply SamplingNode_eval_model_from in E1.
    destruct E1 as (_ & _ & _ & _ & _ & Hmask1 & Hb1).
    assert (Hi : info_set (base s1) = info_set (base self)).
    { destruct Hb1 as [->|[V ->]], Hb as [->| ->]; reflexivity. }
    revert E2.
    apply (mfoldM_not_ok (SamplingNode_expand_child ops model)
             (fun b => info_set (base b) = info_set (base self)) h).
    - rewrite Hmask1, Hmask. apply In_np_where. exists true. auto.
    - intros b w0 [b' w0'] Hb0 E. unfold SamplingNode_expand_child in E.
      apply mbind_ok in E. destruct E as (c & w3 & E3 & _).
      revert E3. apply SamplingNode_new_child_hidden. now rewrite Hb0.
    - intros b y w0 b' w0' Hb0 E.
      apply SamplingNode_expand_child_inv in E. destruct E as (c & _ & -> & _).
      now autorewrite with node.
    - exact Hi. }
  split.
  - intros w r. apply Hexp; auto.
  - intros He [|fuel] w [[self' a] w'] E; [discriminate|].
    simpl in E. unfold visit_body in E.
    assert (Ha : is_action self = false).
    { unfold is_action, H_mask_of in *. destruct (kind self); [|reflexivity].
      destruct h; discriminate. }
    rewrite Ha in E. unfold SamplingNode_visit in E.
    apply mbind_ok in E. destruct E as (s1 & w1 & E1 & _).
    autorewrite with node in E1. rewrite He in E1. simpl in E1.
    revert E1. apply Hexp.
    + right. now autorewrite with node.
    + unfold H_mask_of. now autorewrite with node.
Qed.

Lemma X9_witness :
  exists n,
    Toy.sampling_node Toy.g_chain = Ok n
    /\ nth_error (H_mask_of n) 0 = Some true
    /\ has_hidden_info Toy.toy_ops
         (instantiate_hidden_state Toy.toy_ops (info_set (base n)) 0) = true
    /\ SamplingNode_expand Toy.toy_ops Toy.toy_model n Toy.w0 = Raise AttributeError
    /\ (forall fuel w r, Toy.toy_visit fuel n w <> Ok r).
Proof.
  destruct (Toy.sampling_node Toy.g_chain) as [n| |] eqn:E1;
    try (vm_compute in E1; discriminate).
  assert (Hm : nth_error (H_mask_of n) 0 = Some true) by (inversion E1; reflexivity).
  assert (Hh : has_hidden_info Toy.toy_ops
                 (instantiate_hidden_state Toy.toy_ops (info_set (base n)) 0) = true)
    by (inversion E1; reflexivity).
  exists n. split; [reflexivity|]. split; [exact Hm|]. split; [exact Hh|].
  split; [inversion E1; subst; vm_compute; reflexivity|].
  apply (proj2 (X9_SamplingNode_expand_fails_on_nested_hidden_info
                  _ Toy.toy_ops Toy.toy_model Toy.sqrt6 perturb_prob_simplex_spec
                  (Toy.const_uniform (1 # 3)) n 0%nat Hm Hh)).
  inversion E1; reflexivity.
Defined.

Lemma NoDup_where_from {A} (p : A -> bool) (l : list A) :
  forall k : nat, NoDup (where_from p k l).
Proof.
  induction l as [|x l IH]; intros k; simpl; [constructor|].
  destruct (p x); [|apply IH]. constructor; [|apply IH].
  intros Hin. apply In_where_from in Hin. lia.
Qed.

Lemma NoDup_map_of_nat (l : list nat) : NoDup l -> NoDup (map Z.of_nat l).
Proof.
  induction 1 as [|x l Hx Hl IH]; simpl; constructor; [|assumption].
  intros Hin. apply in_map_iff in Hin. destruct Hin as (y & E & Hy).
  apply Nat2Z.inj in E. now subst.
Qed.

Section SpawnedChildren.
Context {IS : Type}.
Variable ops : InfoSetOps IS.
Variable model : Model IS.

Lemma spawned_child_base (self s : Node IS) (h id : nat) (c : Node IS) :
  info_set (base s) = info_set (base self) ->
  tree_owner (base s) = tree_owner (base self) ->
  spawned_child ops s h id c -> spawned_child ops self h id c.
Proof. unfold spawned_child. intros -> ->. auto. Qed.

Lemma spawned_children_base (self s : Node IS) (hs : list nat) :
  info_set (base s) = info_set (base self) ->
  tree_owner (base s) = tree_owner (base self) ->
  forall (id : nat) (cs : list (Node IS)),
    spawned_children ops s id hs cs -> spawned_children ops self id hs cs.
Proof.
  intros Hi Ho. induction hs as [|h hs IH]; intros id [|c cs]; simpl; auto.
  intros [H1 H2]. split; [eapply spawned_child_base; eauto | auto].
Qed.

(** One iteration of the loop of [SamplingNode.expand] that completes. *)
Lemma SamplingNode_new_child_spec (self c : Node IS) (h : nat) (w w' : World) :
  SamplingNode_new_child ops model self h w = Ok (c, w') ->
  spawned_child ops self h (next_id w) c
  /\ next_id w' = S (next_id w) /\ draws w' = draws w.
Proof.
  intros E. pose proof (SamplingNode_new_child_fresh _ _ _ _ _ _ _ E) as [Hf Hd].
  destruct (has_hidden_info ops
              (instantiate_hidden_state ops (info_set (base self)) h)) eqn:Hh.
  { exfalso. revert E. now apply SamplingNode_new_child_hidden. }
  unfold SamplingNode_new_child in E. rewrite Hh in E.
  apply mbind_ok in E. destruct E as (Vc & w1 & E1 & E).
  apply lift_ok in E1. destruct E1 as [_ ->].
  apply mbind_ok in E. destruct E as (v & w1 & E1 & E).
  apply lift_ok in E1. destruct E1 as [_ ->].
  apply mbind_ok in E. destruct E as (c0 & w1 & E1 & E).
  apply lift_ok in E1. destruct E1 as [E1 ->].
  apply mbind_ok in E. destruct E as (t & w1 & E2 & E).
  apply lift_ok in E. destruct E as [E ->]. simpl in E.
  unfold create_spawned_tree in E2.
  apply mbind_ok in E2. destruct E2 as (r0 & w2 & E3 & E2).
  apply lift_ok in E3. destruct E3 as [E3 ->].
  apply ActionNode_init_fresh in E3. destruct E3 as (_ & _ & Hi0 & _).
  apply Tree_init_inv in E2. destruct E2 as (Hr & Ho & Hid & ->).
  apply ActionNode_init_fresh in E1. destruct E1 as (_ & Ha & Hi & Hown & _).
  apply eval_model_from in E.
  destruct E as (_ & Hia & _ & Hsp & _ & _ & Hb).
  autorewrite with node in *.
  split; [|split; [reflexivity | assumption]].
  unfold spawned_child. cbv zeta.
  split; [assumption|]. split; [congruence|]. split; [assumption|].
  split; [destruct Hb as [->|[V ->]]; assumption|].
  split; [destruct Hb as [->|[V ->]]; assumption|].
  exists t. split.
  - rewrite Hsp. unfold spawned_tree_of, set_spawned_tree, is_action in *.
    destruct (kind c0); [|discriminate]. now autorewrite with node.
  - split; [assumption|]. rewrite Hr, Ho. autorewrite with node.
    cbn [info_set tree_owner with_tree_owner]. rewrite Hi0.
    repeat split; reflexivity.
Qed.

(** The loop of [SamplingNode.expand] when it completes. *)
Lemma SamplingNode_expand_loop (hs : list nat) :
  forall (s s' : Node IS) (w w' : World),
    mfoldM (SamplingNode_expand_child ops model) hs s w = Ok (s', w') ->
    exists cs,
      spawned_children ops s (next_id w) hs cs
      /\ children s' = add_all (children s) (combine (map Z.of_nat hs) cs)
      /\ next_id w' = (next_id w + length hs)%nat
      /\ draws w' = draws w
      /\ base s' = base s /\ kind s' = kind s.
Proof.
  induction hs as [|h hs IH]; intros s s' w w' E; cbn [mfoldM] in E.
  - apply mret_ok in E. destruct E as [-> ->].
    exists []. simpl. rewrite Nat.add_0_r. auto 10.
  - apply mbind_ok in E. destruct E as (s1 & w1 & E1 & E).
    unfold SamplingNode_expand_child in E1.
    apply mbind_ok in E1. destruct E1 as (c & w2 & E1 & E2).
    apply mret_ok in E2. destruct E2 as [-> ->].
    apply SamplingNode_new_child_spec in E1. destruct E1 as (Hc & Hid & Hd).
    destruct (IH _ _ _ _ E) as (cs & Hcs & Hch & Hn & Hd' & Hb & Hk).
    autorewrite with node in *.
    exists (c :: cs). simpl. split; [split; [assumption|]|].
    + rewrite <- Hid.
      eapply spawned_children_base; [| |exact Hcs]; now autorewrite with node.
    + split; [exact Hch|]. split; [lia|]. split; [congruence|]. auto.
Qed.

(** The dictionary that [add_child] builds from nothing for distinct
    hidden states. *)
Lemma spawned_children_layout (self : Node IS) (hs : list nat) :
  forall (cs : list (Node IS)) (id k : nat),
    spawned_children ops self id hs cs ->
    let d := map (fun ikc : nat * (Z * Node IS) =>
                    (fst (snd ikc), mkEdge (fst ikc) (snd (snd ikc))))
                 (combine (seq k (length (combine (map Z.of_nat hs) cs)))
                          (combine (map Z.of_nat hs) cs)) in
    keys d = map Z.of_nat hs
    /\ map (fun kv : Z * Edge IS => index (snd kv)) d = seq k (length hs)
    /\ map (fun kv : Z * Edge IS => option_map tree_id (spawned_tree_of (node (snd kv)))) d
       = map Some (seq id (length hs))
    /\ forall kv, In kv d ->
         exists i, spawned_child ops self (Z.to_nat (fst kv)) i (node (snd kv)).
Proof.
  induction hs as [|h hs IH]; intros [|c cs] id k H; simpl in H; try contradiction.
  - simpl. repeat split; auto. intros kv [].
  - destruct H as [Hc Hcs]. specialize (IH cs (S id) (S k) Hcs).
    cbv zeta in IH. destruct IH as (H1 & H2 & H3 & H4).
    cbn [map combine length seq keys fst snd index node] in *.
    unfold keys in *. cbn [map fst].
    rewrite H1, H2, H3.
    split; [reflexivity|]. split; [reflexivity|]. split.
    + destruct Hc as (_ & _ & _ & _ & _ & t & Ht & Hid & _).
      rewrite Ht. simpl. now rewrite Hid.
    + intros kv [<-|Hin]; [|auto].
      cbn [fst snd node]. rewrite Nat2Z.id. eauto.
Qed.
End SpawnedChildren.

Lemma map_fst_combine_eq {A B} (l : list A) : forall l' : list B,
  length l' = length l -> map fst (combine l l') = l.
Proof.
  induction l as [|x l IH]; intros [|y l'] E; simpl in *; try discriminate; auto.
  f_equal. apply IH. lia.
Qed.

Lemma spawned_children_length {IS} (ops : InfoSetOps IS) (self : Node IS)
  (hs : list nat) :
  forall (id : nat) (cs : list (Node IS)),
    spawned_children ops self id hs cs -> length cs = length hs.
Proof.
  induction hs as [|h hs IH]; intros id [|c cs]; simpl; try tauto.
  intros [_ H]. f_equal. eapply IH; eauto.
Qed.

(** X10. When [SamplingNode.expand] completes on a node without children,
    the node has exactly one child per legal hidden state, in the order of
    the mask and with edge indices [0, 1, ...].  Every child is an
    unvisited [ActionNode] for the instantiated state, owned like its
    parent, and carries its own spawned tree: the trees take consecutive
    fresh identifiers, each root holds the redacted state and is owned by
    the player to move there.  The tree counter advances by the number of
    children and no random sample is drawn. *)
Theorem X10_SamplingNode_expand_spawns_one_tree_per_legal_state :
  forall (IS : Type) (ops : InfoSetOps IS) (model : Model IS)
         (self self' : Node IS) (w w' : World),
    children self = [] ->
    SamplingNode_expand ops model self w = Ok (self', w') ->
    let hs := np_where (fun m : bool => m) (H_mask_of self) in
    keys (children self') = map Z.of_nat hs
    /\ edges_in_order self'
    /\ spawned_ids self' = map Some (seq (next_id w) (length hs))
    /\ (forall kv, In kv (children self') ->
          exists i, spawned_child ops self (Z.to_nat (fst kv)) i (node (snd kv)))
    /\ next_id w' = (next_id w + length hs)%nat
    /\ draws w' = draws w
    /\ expanded_of self' = true.
Proof.
  intros IS ops model self self' w w' Hch E hs.
  pose proof (SamplingNode_expand_inv _ _ _ _ _ _ E) as (_ & _ & Hexp & _).
  unfold SamplingNode_expand in E.
  apply mbind_ok in E. destruct E as (s1 & w1 & E1 & E).
  apply lift_ok in E1. destruct E1 as [E1 ->].
  apply mbind_ok in E. destruct E as (s2 & w2 & E2 & E).
  apply mret_ok in E. destruct E as [-> ->].
  apply SamplingNode_eval_model_from in E1.
  destruct E1 as (Hc1 & _ & _ & _ & _ & Hm1 & Hb1).
  rewrite Hm1 in E2. fold hs in E2.
  apply SamplingNode_expand_loop in E2.
  destruct E2 as (cs & Hcs & Hch2 & Hn & Hd & _ & _).
  assert (Hcs' : spawned_children ops self (next_id w) hs cs).
  { eapply spawned_children_base; [| |exact Hcs];
      destruct Hb1 as [->|[V ->]]; reflexivity. }
  pose proof (spawned_children_length _ _ _ _ _ Hcs') as Hlen.
  rewrite Hc1, Hch in Hch2.
  rewrite add_all_nodup in Hch2.
  2:{ simpl. rewrite map_fst_combine_eq by (now rewrite length_map).
      apply NoDup_map_of_nat. apply NoDup_where_from. }
  simpl in Hch2.
  destruct (spawned_children_layout ops self hs cs (next_id w) 0 Hcs')
    as (H1 & H2 & H3 & H4).
  unfold edges_in_order, spawned_ids. autorewrite with node.
  unfold Edge in *. rewrite Hch2.
  split; [exact H1|]. split.
  - rewrite H2. f_equal.
    apply (f_equal (@length nat)) in H2. rewrite length_map, length_seq in H2.
    now rewrite H2.
  - split; [exact H3|]. split; [exact H4|]. auto.
Qed.

Lemma X10_witness :
  exists n n' w',
    Toy.sampling_node Toy.g_deal = Ok n
    /\ children n = []
    /\ SamplingNode_expand Toy.toy_ops Toy.toy_model n (mkWorld 7 0) = Ok (n', w')
    /\ keys (children n') = [0%Z; 1%Z]
    /\ spawned_ids n' = [Some 7%nat; Some 8%nat]
    /\ next_id w' = 9%nat.
Proof.
  destruct (Toy.sampling_node Toy.g_deal) as [n| |] eqn:E1;
    try (vm_compute in E1; discriminate).
  destruct (SamplingNode_expand Toy.toy_ops Toy.toy_model n (mkWorld 7 0))
    as [[n' w']| |] eqn:E2;
    try (inversion E1; subst; vm_compute in E2; discriminate).
  assert (Hch : children n = []) by (inversion E1; reflexivity).
  exists n, n', w'. split; [reflexivity|]. split; [exact Hch|]. split; [exact E2|].
  destruct (X10_SamplingNode_expand_spawns_one_tree_per_legal_state
              _ _ _ _ _ _ _ Hch E2) as (H1 & _ & H3 & _ & H5 & _).
  rewrite H1, H3, H5. inversion E1; subst. repeat split; reflexivity.
Defined.

(** ** Visit counts of hidden-state nodes and of spawned roots *)

Lemma sum_zero {IS} (ch : dict (Edge IS)) :
  (forall kv, In kv ch -> N_of (node (snd kv)) = 0%nat) ->
  fold_right Nat.add 0%nat (map (fun kv => N_of (node (snd kv))) ch) = 0%nat.
Proof.
  induction ch as [|kv ch IH]; intros H; [reflexivity|].
  cbn [map fold_right]. rewrite IH by (intros; apply H; right; assumption).
  pose proof (H kv (or_introl eq_refl)) as E.
  exact (f_equal (fun x => (x + 0)%nat) E).
Qed.

Section MoreCounting.
Context {IS : Type}.
Variable ops : InfoSetOps IS.
Variable model : Model IS.
Variable np_sqrt : Q -> Q.
Variable perturb_prob_simplex : list Interval -> list Q -> Q -> Interval.
Variable uniform : nat -> Q.

Local Abbreviation visit' := (visit ops model np_sqrt perturb_prob_simplex uniform).

Lemma visit_sampling_counted (fuel : nat) (self self' : Node IS) (r : option Action)
  (w w' : World) :
  is_action self = false -> sampling_counted self ->
  visit' fuel self w = Ok (self', r, w') ->
  sampling_counted self' /\ is_action self' = false.
Proof.
  intros Ha (Hnd & HN & Hch) E.
  pose proof (visit_N _ _ _ _ _ _ _ _ _ _ _ E) as HS.
  pose proof (visit_static _ _ _ _ _ _ _ _ _ _ _ E) as (_ & Hia & _ & _ & Hexp & _).
  rewrite Ha in Hexp. simpl in Hexp.
  split; [|congruence].
  apply visit_inv in E.
  destruct E as (fuel' & -> & [Ha' _ _ _ _ | Ha' _ _ _ _ _ | t Ha' _ _ _ _ _
                              | Ha' _ _ _ _ | _ Hx]); try congruence.
  apply SamplingNode_visit_inv in Hx.
  destruct Hx as (_ & self1 & w1 & H & h & w2 & Hex & _ & _ & Hc).
  assert (H1 : NoDup (keys (children self1)) /\ sum_child_N self1 = sum_child_N self).
  { autorewrite with node in Hex. destruct (expanded_of self) eqn:He; simpl in Hex.
    - destruct Hex as [-> _]. unfold sum_child_N. now autorewrite with node.
    - apply SamplingNode_expand_inv in Hex.
      destruct Hex as (_ & _ & _ & _ & Hfr & Hnd1 & _).
      autorewrite with node in *. split; [auto|].
      unfold sum_child_N. rewrite (Hch eq_refl) in *. simpl.
      apply sum_zero. intros kv Hkv.
      destruct (Hfr kv Hkv) as [[]|Hf]. apply Hf. }
  destruct H1 as [Hnd1 Hsum1].
  apply visit_child_counted in Hc; [|intros; eapply visit_N; eauto | assumption].
  destruct Hc as (Hnd' & Hsum & _ & _ & _).
  split; [assumption|]. split; [lia|]. congruence.
Qed.

Lemma visit_spawn_synced (fuel : nat) (self self' : Node IS) (r : option Action)
  (w w' : World) :
  is_action self = true -> terminal self = false ->
  counted self -> spawn_synced self ->
  visit' fuel self w = Ok (self', r, w') ->
  spawn_synced self'.
Proof.
  intros Ha Ht [_ Hc] Hs E. rewrite Ht in Hc.
  pose proof (visit_N _ _ _ _ _ _ _ _ _ _ _ E) as HS.
  apply visit_inv in E.
  destruct E as (fuel' & -> & [_ Ht' _ _ _ | _ _ He Hx _ _ | t _ _ He Hsp Hx _
                              | _ _ He Hsp Hx | Ha' _]); try congruence.
  - rewrite He in Hc. destruct Hc as [HN0 _].
    apply ActionNode_expand_N in Hx. destruct Hx as (_ & _ & _ & _ & _ & Hsp).
    autorewrite with node in Hsp.
    unfold spawn_synced, spawned_root_N in *. rewrite Hsp, HS, HN0.
    rewrite HN0 in Hs. exact Hs.
  - rewrite He in Hc.
    apply spawned_visit_inv in Hx.
    destruct Hx as (t1 & w1 & r1 & action & w2 & Hboot & Hv & Hvc).
    apply visit_child_static in Hvc. destruct Hvc as (_ & Hk & _).
    pose proof (visit_N _ _ _ _ _ _ _ _ _ _ _ Hv) as Hr1.
    unfold spawn_synced, spawned_root_N, spawned_tree_of in *.
    rewrite Hk. rewrite Hsp in Hs.
    unfold set_spawned_tree, is_action in *. autorewrite with node.
    destruct (kind self) as [a sp|s]; [|discriminate]. autorewrite with node.
    cbn [root]. rewrite Hr1, HS.
    destruct Hboot as [(H0 & r0 & a0 & Hv0 & ->)|(Hn0 & -> & ->)].
    + apply visit_N in Hv0. cbn [root]. rewrite Hv0, H0.
      rewrite H0 in Hs. destruct (N_of self <=? 1)%nat eqn:E1.
      * apply Nat.leb_le in E1.
        replace (N_of self) with 1%nat by lia. reflexivity.
      * apply Nat.leb_gt in E1. lia.
    + destruct (N_of self <=? 1)%nat eqn:E1; [congruence|].
      apply Nat.leb_gt in E1. rewrite Hs.
      destruct (S (N_of self) <=? 1)%nat eqn:E2; [apply Nat.leb_le in E2; lia|].
      reflexivity.
  - apply unspawned_visit_inv in Hx. destruct Hx as (i & a & w1 & _ & _ & Hvc & _).
    apply visit_child_static in Hvc. destruct Hvc as (_ & Hk & _).
    unfold spawn_synced, spawned_root_N, spawned_tree_of in *.
    rewrite Hk. autorewrite with node. now rewrite Hsp.
Qed.
End MoreCounting.

(** X11. A [SamplingNode] sends every visit into exactly one child: from
    construction on, and after any number of visits that return, [N] is the
    sum of the children's visit counts and the keys of the children are
    distinct. *)
Theorem X11_SamplingNode_N_is_the_sum_of_its_children :
  forall (IS : Type) (ops : InfoSetOps IS) (model : Model IS) (np_sqrt : Q -> Q)
         (perturb_prob_simplex : list Interval -> list Q -> Q -> Interval)
         (uniform : nat -> Q) (fuel k : nat) (self self' : Node IS) (w w' : World),
    is_action self = false -> sampling_counted self ->
    visit_times (visit ops model np_sqrt perturb_prob_simplex uniform fuel) k self w
    = Ok (self', w') ->
    N_of self' = sum_child_N self' /\ NoDup (keys (children self'))
    /\ is_action self' = false.
Proof.
  intros IS ops model np_sqrt perturb uniform fuel k self self' w w' Ha Hc E.
  cut (sampling_counted self' /\ is_action self' = false).
  { intros [(H1 & H2 & _) H3]. auto. }
  refine (visit_times_inv (visit ops model np_sqrt perturb uniform fuel)
            (fun a b => is_action a = false -> sampling_counted a ->
                        sampling_counted b /\ is_action b = false)
            _ _ k self self' w w' E Ha Hc).
  - auto.
  - intros n1 n2 n3 r wa wb E1 H23 Ha1 Hc1.
    destruct (visit_sampling_counted _ _ _ _ _ _ _ _ _ _ _ Ha1 Hc1 E1) as [Hc2 Ha2].
    auto.
Qed.

Lemma X11_witness :
  exists n n' w',
    Toy.sampling_node Toy.g_deal = Ok n
    /\ is_action n = false /\ sampling_counted n
    /\ visit_times (Toy.toy_visit 10) 4 n Toy.w0 = Ok (n', w')
    /\ N_of n' = 4%nat /\ sum_child_N n' = 4%nat.
Proof.
  destruct (Toy.sampling_node Toy.g_deal) as [n| |] eqn:E1;
    try (vm_compute in E1; discriminate).
  destruct (visit_times (Toy.toy_visit 10) 4 n Toy.w0) as [[n' w']| |] eqn:E2;
    try (inversion E1; subst; vm_compute in E2; discriminate).
  assert (Ha : is_action n = false) by (inversion E1; reflexivity).
  assert (Hc : sampling_counted n).
  { inversion E1; subst. split; [constructor|]. split; reflexivity. }
  exists n, n', w'. split; [reflexivity|]. split; [exact Ha|]. split; [exact Hc|].
  split; [exact E2|].
  unfold Toy.toy_visit in E2.
  destruct (X11_SamplingNode_N_is_the_sum_of_its_children
              _ _ _ _ _ _ _ _ _ _ _ _ Ha Hc E2) as (H1 & _).
  rewrite <- H1. inversion E1; subst. vm_compute in E2. inversion E2; subst.
  split; reflexivity.
Defined.

(** X12. An [ActionNode] with a spawned tree consults that tree from its
    second visit on, and the first consultation visits the spawned root
    twice: over any number of visits of a non-terminal node, the root of the
    spawned tree has [N = 0] while the node has [N <= 1], and the same [N]
    as the node afterwards. *)
Theorem X12_spawned_root_is_visited_in_step_with_its_node :
  forall (IS : Type) (ops : InfoSetOps IS) (model : Model IS) (np_sqrt : Q -> Q)
         (perturb_prob_simplex : list Interval -> list Q -> Q -> Interval)
         (uniform : nat -> Q) (fuel k : nat) (self self' : Node IS) (w w' : World),
    is_action self = true -> terminal self = false ->
    counted self -> spawn_synced self ->
    visit_times (visit ops model np_sqrt perturb_prob_simplex uniform fuel) k self w
    = Ok (self', w') ->
    spawn_synced self' /\ counted self'.
Proof.
  intros IS ops model np_sqrt perturb uniform fuel k self self' w w' Ha Ht Hc Hs E.
  cut (spawn_synced self' /\ counted self' /\ is_action self' = true
       /\ terminal self' = false).
  { tauto. }
  refine (visit_times_inv (visit ops model np_sqrt perturb uniform fuel)
            (fun a b => is_action a = true -> terminal a = false ->
                        counted a -> spawn_synced a ->
                        spawn_synced b /\ counted b /\ is_action b = true
                        /\ terminal b = false)
            _ _ k self self' w w' E Ha Ht Hc Hs).
  - auto.
  - intros n1 n2 n3 r wa wb E1 H23 Ha1 Ht1 Hc1 Hs1.
    destruct (visit_counted _ _ _ _ _ _ _ _ _ _ _ Ha1 Hc1 E1) as (Hc2 & Ht2 & Ha2).
    pose proof (visit_spawn_synced _ _ _ _ _ _ _ _ _ _ _ Ha1 Ht1 Hc1 Hs1 E1) as Hs2.
    apply H23; auto. congruence.
Qed.

Lemma X12_witness :
  exists n n1 w1 e c c' w',
    Toy.sampling_node Toy.g_deal = Ok n
    /\ SamplingNode_expand Toy.toy_ops Toy.toy_model n Toy.w0 = Ok (n1, w1)
    /\ child_at n1 0 = Ok e /\ c = node e
    /\ is_action c = true /\ terminal c = false /\ counted c /\ spawn_synced c
    /\ spawned_root_N c = Some 0%nat
    /\ visit_times (Toy.toy_visit 10) 3 c w1 = Ok (c', w')
    /\ N_of c' = 3%nat /\ spawned_root_N c' = Some 3%nat.
Proof.
  destruct (Toy.sampling_node Toy.g_deal) as [n| |] eqn:E1;
    try (vm_compute in E1; discriminate).
  destruct (SamplingNode_expand Toy.toy_ops Toy.toy_model n Toy.w0)
    as [[n1 w1]| |] eqn:E2;
    try (inversion E1; subst; vm_compute in E2; discriminate).
  destruct (child_at n1 0) as [e| |] eqn:E3;
    try (inversion E1; subst; vm_compute in E2; inversion E2; subst;
         vm_compute in E3; discriminate).
  destruct (visit_times (Toy.toy_visit 10) 3 (node e) w1) as [[c' w']| |] eqn:E4;
    try (inversion E1; subst; vm_compute in E2; inversion E2; subst;
         vm_compute in E3; inversion E3; subst; vm_compute in E4; discriminate).
  assert (He : is_action (node e) = true /\ terminal (node e) = false
               /\ counted (node e) /\ spawn_synced (node e)
               /\ spawned_root_N (node e) = Some 0%nat).
  { inversion E1; subst. vm_compute in E2. inversion E2; subst.
    vm_compute in E3. inversion E3; subst.
    split; [reflexivity|]. split; [reflexivity|].
    split; [split; [constructor | simpl; auto]|]. split; reflexivity. }
  destruct He as (Ha & Ht & Hc & Hs & H0).
  exists n, n1, w1, e, (node e), c', w'.
  split; [reflexivity|]. split; [exact E2|]. split; [exact E3|].
  split; [reflexivity|]. split; [exact Ha|]. split; [exact Ht|].
  split; [exact Hc|]. split; [exact Hs|]. split; [exact H0|]. split; [exact E4|].
  unfold Toy.toy_visit in E4.
  destruct (X12_spawned_root_is_visited_in_step_with_its_node
              _ _ _ _ _ _ _ _ _ _ _ _ Ha Ht Hc Hs E4) as [Hs' _].
  assert (HN : N_of c' = 3%nat).
  { inversion E1; subst. vm_compute in E2. inversion E2; subst.
    vm_compute in E3. inversion E3; subst. vm_compute in E4. inversion E4; subst.
    reflexivity. }
  split; [exact HN|].
  unfold spawn_synced in Hs'. rewrite HN in Hs'. simpl in Hs'.
  destruct (spawned_root_N c') as [k|] eqn:Ek; [now rewrite Hs'|].
  inversion E1; subst. vm_compute in E2. inversion E2; subst.
  vm_compute in E3. inversion E3; subst. vm_compute in E4. inversion E4; subst.
  vm_compute in Ek. discriminate.
Defined.

(** ** [Tree.get_visit_distribution] once the budget is spent *)

Lemma visit_while_done {IS} (ops : InfoSetOps IS) (model : Model IS)
  (np_sqrt : Q -> Q)
  (perturb_prob_simplex : list Interval -> list Q -> Q -> Interval)
  (uniform : nat -> Q) (fuel loops : nat) (r : Node IS) (n : Z) (w : World) :
  (n < Z.of_nat (N_of r))%Z ->
  visit_while ops model np_sqrt perturb_prob_simplex uniform fuel loops r n w
  = Ok (r, w).
Proof.
  intros H. destruct loops; simpl;
    destruct (Z.leb_spec (Z.of_nat (N_of r)) n); try lia; reflexivity.
Qed.

(** X13. [get_visit_distribution(n)] visits nothing when the root already
    has [N > n]: tree, generator and tree counter are returned as they
    were.  Hence a call that returned can be repeated with the same [n]:
    the second call makes no visit and yields the same distribution. *)
Theorem X13_visit_distribution_is_repeatable :
  forall (IS : Type) (ops : InfoSetOps IS) (model : Model IS) (np_sqrt : Q -> Q)
         (perturb_prob_simplex : list Interval -> list Q -> Q -> Interval)
         (uniform : nat -> Q) (fuel loops : nat) (t t' : Tree IS) (n : Z)
         (d : dict Q) (w w' : World),
    get_visit_distribution ops model np_sqrt perturb_prob_simplex uniform
                           fuel loops t n w
    = Ok (d, t', w') ->
    ((n < Z.of_nat (N_of (root t)))%Z -> t' = t /\ w' = w)
    /\ forall fuel2 loops2,
        get_visit_distribution ops model np_sqrt perturb_prob_simplex uniform
                               fuel2 loops2 t' n w'
        = Ok (d, t', w').
Proof.
  intros IS ops model np_sqrt perturb uniform fuel loops t t' n d w w' E.
  unfold get_visit_distribution in E.
  apply mbind_ok in E. destruct E as (r' & w1 & E1 & E).
  apply mbind_ok in E. destruct E as (d' & w2 & E2 & E).
  apply lift_ok in E2. destruct E2 as [E2 ->].
  apply mret_ok in E. destruct E as [E ->]. inversion E; subst d' t'; clear E.
  apply visit_while_inv in E1. destruct E1 as (k & _ & H1 & _ & H3).
  split.
  - intros Hn. destruct (H3 Hn) as [-> ->]. destruct t; auto.
  - intros fuel2 loops2. unfold get_visit_distribution, mbind. cbn [root].
    rewrite visit_while_done by assumption.
    unfold lift. rewrite E2. reflexivity.
Qed.

Lemma X13_witness :
  exists t w d t' w',
    Toy.fresh_tree Toy.g_hidden = Ok (t, w)
    /\ Toy.toy_distribution 10 10 t 5 w = Ok (d, t', w')
    /\ Toy.toy_distribution 0 0 t' 5 w' = Ok (d, t', w').
Proof.
  destruct (Toy.fresh_tree Toy.g_hidden) as [[t w]| |] eqn:E;
    try (vm_compute in E; discriminate).
  destruct (Toy.toy_distribution 10 10 t 5 w) as [[[d t'] w']| |] eqn:Ed;
    try (inversion E; subst; vm_compute in Ed; discriminate).
  exists t, w, d, t', w'. split; [reflexivity|]. split; [exact Ed|].
  unfold Toy.toy_distribution in *.
  exact (proj2 (X13_visit_distribution_is_repeatable
                  _ _ _ _ _ _ _ _ _ _ _ _ _ _ Ed) 0%nat 0%nat).
Defined.

(** ** The candidate set of [computePUCT] *)

(** X14. On an expanded node whose children all have ordered value
    intervals, [computePUCT] returns a candidate set that is not empty and
    whose indices all address a child; the child with the greatest lower
    score bound is always among them.  So the selection that follows never
    meets an empty candidate list there. *)
Theorem X14_computePUCT_always_has_a_candidate :
  forall (IS : Type) (np_sqrt : Q -> Q) (self : Node IS) (P : list Q),
    P_of self = Some P -> length P = length (children self) ->
    edges_in_order self -> children self <> [] ->
    Forall (fun kv => ordered (Q_of (node (snd kv)))) (children self) ->
    exists idx m,
      computePUCT np_sqrt self = Ok (get_Qc self, idx)
      /\ np_argmax (map fst (score_intervals np_sqrt self P)) = Ok m
      /\ In m idx
      /\ forall i, In i idx -> (i < length (children self))%nat.
Proof.
  intros IS np_sqrt self P HP Hlen Hord Hne Hq.
  rewrite (computePUCT_in_order np_sqrt self P HP Hlen Hord).
  set (S := score_intervals np_sqrt self P).
  assert (HlenS : length S = length (children self)).
  { unfold S, score_intervals, get_Qc, get_Nc.
    rewrite zip_with_length; rewrite ?length_map; auto.
    rewrite zip_with_length; rewrite ?length_map; auto. }
  assert (Hsord : forall s, In s S -> fst s <= snd s).
  { intros s Hs. apply In_zip_with in Hs. destruct Hs as (q & b & Hq' & _ & ->).
    unfold get_Qc in Hq'. apply in_map_iff in Hq'. destruct Hq' as (kv & <- & Hkv).
    pose proof (proj1 (Forall_forall _ _) Hq kv Hkv) as Ho.
    unfold ordered in Ho. simpl. lra. }
  clearbody S.
  assert (HS : map fst S <> []).
  { intros E. destruct S; [|discriminate E].
    destruct (children self); [congruence | discriminate HlenS]. }
  destruct (np_argmax_spec (map fst S) HS) as (m & Em & Hm & _).
  unfold candidates. rewrite Em. simpl.
  eexists; exists m. split; [reflexivity|]. split; [reflexivity|].
  rewrite length_map in Hm. split.
  - apply In_np_where.
    destruct (nth_error S m) as [sm|] eqn:Esm;
      [|apply nth_error_None in Esm; unfold Interval in *; lia].
    exists sm. split; [reflexivity|]. apply Qle_bool_iff.
    assert (Hb : nth m (map fst S) 0 = fst sm).
    { apply nth_error_nth. apply (map_nth_error fst _ _ Esm). }
    unfold Interval in *. rewrite Hb.
    pose proof (Hsord sm (nth_error_In _ _ Esm)). lra.
  - intros i Hi. apply In_np_where in Hi. destruct Hi as (x & Hx & _).
    rewrite <- HlenS. apply nth_error_Some. congruence.
Qed.

Lemma X14_witness :
  exists n w n' r w' P idx m,
    Toy.fresh_root Toy.g2 = Ok (n, w)
    /\ Toy.toy_visit 5 n w = Ok (n', r, w')
    /\ P_of n' = Some P /\ length P = length (children n')
    /\ edges_in_order n' /\ children n' <> []
    /\ Forall (fun kv => ordered (Q_of (node (snd kv)))) (children n')
    /\ computePUCT Toy.sqrt6 n' = Ok (get_Qc n', idx)
    /\ In m idx.
Proof.
  destruct (Toy.fresh_root Toy.g2) as [[n w]| |] eqn:E1;
    try (vm_compute in E1; discriminate).
  destruct (Toy.toy_visit 5 n w) as [[[n' r] w']| |] eqn:E2;
    try (inversion E1; subst; vm_compute in E2; discriminate).
  destruct (P_of n') as [P|] eqn:E3;
    try (inversion E1; subst; vm_compute in E2; inversion E2; subst;
         vm_compute in E3; discriminate).
  assert (H : length P = length (children n') /\ edges_in_order n'
              /\ children n' <> []
              /\ Forall (fun kv => ordered (Q_of (node (snd kv)))) (children n')).
  { inversion E1; subst. vm_compute in E2. inversion E2; subst.
    vm_compute in E3. inversion E3; subst.
    split; [reflexivity|]. split; [reflexivity|]. split; [discriminate|].
    repeat constructor; unfold ordered; simpl; lra. }
  destruct H as (H1 & H2 & H3 & H4).
  destruct (X14_computePUCT_always_has_a_candidate _ Toy.sqrt6 n' P E3 H1 H2 H3 H4)
    as (idx & m & Hc & _ & Hm & _).
  exists n, w, n', r, w', P, idx, m.
  split; [reflexivity|]. split; [exact E2|]. split; [exact E3|].
  split; [exact H1|]. split; [exact H2|]. split; [exact H3|]. split; [exact H4|].
  split; [exact Hc | exact Hm].
Defined.

(** X15. A non-terminal node without legal actions can be expanded but not
    visited again: on an evaluated node without children [computePUCT]
    raises [ValueError] (the greatest lower bound of no scores), and so does
    the visit that selects through it. *)
Theorem X15_no_children_makes_selection_raise :
  forall (IS : Type) (ops : InfoSetOps IS) (model : Model IS) (np_sqrt : Q -> Q)
         (perturb_prob_simplex : list Interval -> list Q -> Q -> Interval)
         (uniform : nat -> Q) (fuel : nat) (self : Node IS) (P : list Q) (w : World),
    children self = [] -> P_of self = Some P ->
    computePUCT np_sqrt self = Raise ValueError
    /\ (is_action self = true -> terminal self = false ->
        expanded_of self = true -> spawned_tree_of self = None ->
        visit ops model np_sqrt perturb_prob_simplex uniform (S fuel) self w
        = Raise ValueError).
Proof.
  intros IS ops model np_sqrt perturb uniform fuel self P w Hch HP.
  assert (Hc : forall s : Node IS, children s = [] -> P_of s = Some P ->
                 computePUCT np_sqrt s = Raise ValueError).
  { intros s Hs HPs. unfold computePUCT, scatter_children. rewrite Hs. simpl.
    rewrite HPs. simpl. unfold PUCT_scores, bcast2.
    destruct P as [|p [|p' P']]; reflexivity. }
  split; [now apply Hc|].
  intros Ha Ht He Hs. simpl. unfold visit_body. rewrite Ha.
  unfold ActionNode_visit. autorewrite with node. rewrite Ht, He, Hs. simpl.
  unfold unspawned_visit, select_action_index, mbind, lift.
  rewrite Hc; [reflexivity| |]; unfold P_of; now autorewrite with node.
Qed.

Lemma X15_witness :
  exists n w n' r w' P,
    Toy.fresh_root (Toy.Move 0%Z []) = Ok (n, w)
    /\ Toy.toy_visit 5 n w = Ok (n', r, w')
    /\ children n' = [] /\ P_of n' = Some P
    /\ Toy.toy_visit 5 n' w' = Raise ValueError.
Proof.
  destruct (Toy.fresh_root (Toy.Move 0%Z [])) as [[n w]| |] eqn:E1;
    try (vm_compute in E1; discriminate).
  destruct (Toy.toy_visit 5 n w) as [[[n' r] w']| |] eqn:E2;
    try (inversion E1; subst; vm_compute in E2; discriminate).
  destruct (P_of n') as [P|] eqn:E3;
    try (inversion E1; subst; vm_compute in E2; inversion E2; subst;
         vm_compute in E3; discriminate).
  assert (H : children n' = [] /\ is_action n' = true /\ terminal n' = false
              /\ expanded_of n' = true /\ spawned_tree_of n' = None).
  { inversion E1; subst. vm_compute in E2. inversion E2; subst.
    repeat split; reflexivity. }
  destruct H as (H1 & H2 & H3 & H4 & H5).
  exists n, w, n', r, w', P.
  split; [reflexivity|]. split; [exact E2|]. split; [exact H1|]. split; [exact E3|].
  exact (proj2 (X15_no_children_makes_selection_raise
                  _ Toy.toy_ops Toy.toy_model Toy.sqrt6 perturb_prob_simplex_spec
                  (Toy.const_uniform (1 # 3)) 4 n' P w' H1 E3) H2 H3 H4 H5).
Defined.

(** ** What the random choices can select *)

Lemma div_le_iff (a t u : Q) : 0 < t -> (a / t <= u <-> a <= u * t).
Proof.
  intros Ht. split; intros H.
  - assert (E : a == a / t * t) by (field; lra).
    rewrite E. apply Qmult_le_compat_r; lra.
  - apply Qle_shift_div_r; assumption.
Qed.

Lemma last_cumsum (p : list Q) : forall acc d : Q,
  p <> [] -> last (cumsum_from acc p) d == acc + np_sum p.
Proof.
  induction p as [|x p IH]; intros acc d Hne; [congruence|].
  destruct p as [|y p].
  - simpl. ring.
  - change (last (cumsum_from acc (x :: y :: p)) d)
      with (last (cumsum_from (acc + x) (y :: p)) d).
    rewrite IH by discriminate. simpl. ring.
Qed.

(** The search in the normalised cumulative sums stops at an entry of
    positive weight. *)
Lemma searchsorted_support (total u : Q) :
  0 < total ->
  forall (p : list Q) (acc : Q),
    (forall x, In x p -> 0 <= x) ->
    acc <= u * total -> u * total < acc + np_sum p ->
    let i := searchsorted_right (map (fun c => c / total) (cumsum_from acc p)) u in
    (i < length p)%nat /\ 0 < nth i p 0.
Proof.
  intros Ht. induction p as [|x p IH]; intros acc Hp Hlo Hhi; cbv zeta.
  - simpl in Hhi. lra.
  - cbn [cumsum_from map searchsorted_right].
    destruct (Qle_bool ((acc + x) / total) u) eqn:E.
    + apply Qle_bool_iff in E. apply div_le_iff in E; [|assumption].
      destruct (IH (acc + x)) as [H1 H2].
      * intros y Hy. apply Hp. right; assumption.
      * assumption.
      * change (np_sum (x :: p)) with (x + np_sum p) in Hhi. lra.
      * simpl. split; [lia | assumption].
    + assert (Hn : ~ (acc + x) / total <= u).
      { intros L. apply Qle_bool_iff in L. congruence. }
      assert (Hx : u * total < acc + x).
      { apply Qnot_le_lt. intros L. apply Hn. apply div_le_iff; assumption. }
      change (np_sum (x :: p)) with (x + np_sum p) in Hhi.
      simpl. split; [lia | lra].
Qed.

(** [np.random.choice] returns an index of positive probability when the
    uniform sample lies in the unit interval. *)
Lemma np_random_choice_support (uniform : nat -> Q) (a : nat) (p : list Q)
  (w w' : World) (i : nat) :
  np_random_choice uniform a p w = Ok (i, w') ->
  0 <= uniform (draws w) -> uniform (draws w) < 1 ->
  length p = a /\ (i < length p)%nat /\ 0 < nth i p 0
  /\ w' = mkWorld (next_id w) (S (draws w)).
Proof.
  unfold np_random_choice. intros E Hu0 Hu1.
  destruct (a =? 0)%nat eqn:Ea; [discriminate|]. apply Nat.eqb_neq in Ea.
  destruct (length p =? a)%nat eqn:El; [|discriminate]. apply Nat.eqb_eq in El.
  destruct (existsb (fun x => Qltb x 0) p) eqn:Eneg; [discriminate|].
  destruct (Qltb choice_atol (Qabs (np_sum p - 1))) eqn:Etol; [discriminate|].
  cbn [negb] in E. inversion E; subst i w'; clear E.
  assert (Hp : forall x, In x p -> 0 <= x).
  { intros x Hx. apply Qltb_false.
    destruct (Qltb x 0) eqn:Ex; [|reflexivity].
    assert (existsb (fun x => Qltb x 0) p = true)
      by (apply existsb_exists; eauto).
    congruence. }
  apply Qltb_false in Etol. apply Qabs_Qle_condition in Etol.
  unfold choice_atol in Etol.
  assert (Hne : p <> []) by (intros ->; simpl in El; congruence).
  pose proof (last_cumsum p 0 0 Hne) as Htot.
  set (total := last (cumsum_from 0 p) 0) in *.
  assert (Ht : 0 < total) by lra.
  assert (Hlo : 0 <= uniform (draws w) * total).
  { apply Qmult_le_0_compat; lra. }
  assert (Hhi : uniform (draws w) * total < 1 * total).
  { apply Qmult_lt_compat_r; assumption. }
  destruct (searchsorted_support total (uniform (draws w)) Ht p 0 Hp Hlo) as [H1 H2];
    [lra|].
  auto.
Qed.

(** X16. The index that [unspawned_visit] selects is always one of the
    candidates of [computePUCT], for every uniform sample in [[0, 1)]: in
    the pure case it is the only candidate and no sample is drawn; in the
    mixed case exactly one sample is drawn and the selected candidate has a
    positive prior, so candidates of prior zero are never played. *)
Theorem X16_selected_index_is_a_candidate :
  forall (IS : Type) (np_sqrt : Q -> Q) (uniform : nat -> Q) (self : Node IS)
         (w w' : World) (i : nat),
    select_action_index np_sqrt uniform self w = Ok (i, w') ->
    0 <= uniform (draws w) -> uniform (draws w) < 1 ->
    exists Qc idx,
      computePUCT np_sqrt self = Ok (Qc, idx)
      /\ In i idx
      /\ next_id w' = next_id w
      /\ match idx with
         | [_] => draws w' = draws w
         | _ => draws w' = S (draws w)
                /\ exists P, P_of self = Some P /\ 0 < nth i P 0
         end.
Proof.
  intros IS np_sqrt uniform self w w' i E Hu0 Hu1.
  unfold select_action_index in E.
  apply mbind_ok in E. destruct E as ([Qc idx] & w1 & E1 & E).
  apply lift_ok in E1. destruct E1 as [E1 ->].
  exists Qc, idx. split; [assumption|].
  assert (Hmixed : (mixing_distr <~ lift (get_mixing_distribution self idx) ;;
                    P <~ lift (opt_get (P_of self)) ;;
                    np_random_choice uniform (length P) mixing_distr) w
                   = Ok (i, w') ->
                   In i idx /\ next_id w' = next_id w /\ draws w' = S (draws w)
                   /\ exists P, P_of self = Some P /\ 0 < nth i P 0).
  { clear E. intros E.
    apply mbind_ok in E. destruct E as (d & w1 & E2 & E).
    apply lift_ok in E2. destruct E2 as [E2 ->].
    apply mbind_ok in E. destruct E as (P & w1 & E3 & E).
    apply lift_ok in E3. destruct E3 as [E3 ->]. apply opt_get_ok in E3.
    apply np_random_choice_support in E; [|assumption|assumption].
    destruct E as (_ & _ & Hpos & ->).
    apply get_mixing_distribution_inv in E2.
    destruct E2 as (P' & s & HP' & Hs & _ & _ & Hin & Hout & _).
    assert (P' = P) by congruence. subst P'.
    destruct (among idx i) eqn:Ea.
    - apply among_In in Ea. split; [assumption|].
      split; [reflexivity|]. split; [reflexivity|].
      exists P. split; [assumption|].
      rewrite (Hin i Ea) in Hpos.
      assert (E : nth i P 0 == nth i P 0 / s * s) by (field; lra).
      rewrite E. apply Qmult_lt_0_compat; assumption.
    - exfalso. rewrite (Hout i) in Hpos; [lra|].
      intros Hi. apply among_In in Hi. congruence. }
  destruct idx as [|j [|j' idx]].
  - destruct (Hmixed E) as (H1 & H2 & H3 & H4). auto.
  - apply mret_ok in E. destruct E as [-> ->]. simpl. auto.
  - destruct (Hmixed E) as (H1 & H2 & H3 & H4). auto.
Qed.

Lemma X16_witness :
  exists n w n' r w' i w2,
    Toy.fresh_root Toy.g_close = Ok (n, w)
    /\ Toy.toy_visit 5 n w = Ok (n', r, w')
    /\ select_action_index Toy.sqrt6 (Toy.const_uniform (1 # 3)) n' w' = Ok (i, w2)
    /\ 0 <= Toy.const_uniform (1 # 3) (draws w')
    /\ Toy.const_uniform (1 # 3) (draws w') < 1
    /\ computePUCT Toy.sqrt6 n' = Ok (get_Qc n', [0; 1]%nat)
    /\ In i [0; 1]%nat /\ draws w2 = S (draws w').
Proof.
  destruct (Toy.fresh_root Toy.g_close) as [[n w]| |] eqn:E1;
    try (vm_compute in E1; discriminate).
  destruct (Toy.toy_visit 5 n w) as [[[n' r] w']| |] eqn:E2;
    try (inversion E1; subst; vm_compute in E2; discriminate).
  destruct (select_action_index Toy.sqrt6 (Toy.const_uniform (1 # 3)) n' w')
    as [[i w2]| |] eqn:E3;
    try (inversion E1; subst; vm_compute in E2; inversion E2; subst;
         vm_compute in E3; discriminate).
  assert (Hu0 : 0 <= Toy.const_uniform (1 # 3) (draws w')) by (unfold Toy.const_uniform; lra).
  assert (Hu1 : Toy.const_uniform (1 # 3) (draws w') < 1) by (unfold Toy.const_uniform; lra).
  assert (Hc : computePUCT Toy.sqrt6 n' = Ok (get_Qc n', [0; 1]%nat)).
  { inversion E1; subst. vm_compute in E2. inversion E2; subst.
    vm_compute. reflexivity. }
  exists n, w, n', r, w', i, w2.
  split; [reflexivity|]. split; [exact E2|]. split; [exact E3|].
  split; [exact Hu0|]. split; [exact Hu1|]. split; [exact Hc|].
  destruct (X16_selected_index_is_a_candidate _ _ _ _ _ _ _ E3 Hu0 Hu1)
    as (Qc & idx & Hc' & Hin & _ & Hm).
  rewrite Hc in Hc'. inversion Hc'; subst idx.
  split; [exact Hin | exact (proj1 Hm)].
Defined.

Lemma apply_H_mask_zeros (H H' : list Q) (mask : list bool) :
  length H = length mask ->
  apply_H_mask H mask = Ok H' ->
  length H' = length mask
  /\ forall i x, nth_error mask i = Some false -> nth_error H' i = Some x -> x == 0.
Proof.
  intros Hlen E. rewrite (apply_H_mask_eq H mask Hlen) in E.
  destruct (Qltb _ _) eqn:Es; inversion E; subst H'; clear E.
  - unfold uniform_over. split; [apply length_map|].
    intros i x E1 E2. rewrite nth_error_map, E1 in E2; simpl in E2.
    inversion E2; subst. unfold Qdiv; simpl; ring.
  - destruct (renormalised_masked H mask Hlen) as (H1 & H2 & _); [|auto].
    intros L. apply Qltb_true in L. congruence.
Qed.

(** X17. The hidden state that [SamplingNode.visit] samples from the masked
    [H] is always a legal one, for every uniform sample in [[0, 1)]: the
    sampled index has [H_mask] set and a positive probability, so the
    lookup of its child addresses a state for which [expand] built one. *)
Theorem X17_sampled_hidden_state_is_legal :
  forall (uniform : nat -> Q) (H H' : list Q) (mask : list bool)
         (w w' : World) (h : nat),
    length H = length mask ->
    apply_H_mask H mask = Ok H' ->
    np_random_choice uniform (length H') H' w = Ok (h, w') ->
    0 <= uniform (draws w) -> uniform (draws w) < 1 ->
    nth_error mask h = Some true
    /\ In h (np_where (fun m : bool => m) mask)
    /\ 0 < nth h H' 0.
Proof.
  intros uniform H H' mask w w' h Hlen E Ec Hu0 Hu1.
  apply apply_H_mask_zeros in E; [|assumption]. destruct E as [Hl Hz].
  apply np_random_choice_support in Ec; [|assumption|assumption].
  destruct Ec as (_ & Hh & Hpos & _).
  assert (Hm : nth_error mask h = Some true).
  { destruct (nth_error mask h) as [[|]|] eqn:Em.
    - reflexivity.
    - exfalso. destruct (nth_error H' h) as [x|] eqn:Ex.
      + pose proof (Hz h x Em Ex) as Hx0.
        rewrite (nth_error_nth _ _ 0 Ex) in Hpos. lra.
      + apply nth_error_None in Ex. lia.
    - apply nth_error_None in Em. lia. }
  split; [assumption|]. split; [|assumption].
  apply In_np_where. exists true. auto.
Qed.

Lemma X17_witness :
  exists H' h w',
    length [0; 0; 1] = length [true; true; false]
    /\ apply_H_mask [0; 0; 1] [true; true; false] = Ok H'
    /\ np_random_choice (Toy.const_uniform (2 # 3)) (length H') H' Toy.w0 = Ok (h, w')
    /\ 0 <= Toy.const_uniform (2 # 3) (draws Toy.w0)
    /\ Toy.const_uniform (2 # 3) (draws Toy.w0) < 1
    /\ h = 1%nat
    /\ nth_error [true; true; false] h = Some true.
Proof.
  destruct (apply_H_mask [0; 0; 1] [true; true; false]) as [H'| |] eqn:E1;
    try (vm_compute in E1; discriminate).
  destruct (np_random_choice (Toy.const_uniform (2 # 3)) (length H') H' Toy.w0)
    as [[h w']| |] eqn:E2;
    try (vm_compute in E1; inversion E1; subst; vm_compute in E2; discriminate).
  assert (Hu0 : 0 <= Toy.const_uniform (2 # 3) (draws Toy.w0))
    by (unfold Toy.const_uniform; lra).
  assert (Hu1 : Toy.const_uniform (2 # 3) (draws Toy.w0) < 1)
    by (unfold Toy.const_uniform; lra).
  exists H', h, w'. split; [reflexivity|]. split; [reflexivity|].
  split; [exact E2|]. split; [exact Hu0|]. split; [exact Hu1|].
  split.
  - vm_compute in E1. inversion E1; subst. vm_compute in E2. inversion E2; reflexivity.
  - exact (proj1 (X17_sampled_hidden_state_is_legal
                    (Toy.const_uniform (2 # 3)) [0; 0; 1] H' [true; true; false]
                    Toy.w0 w' h eq_refl E1 E2 Hu0 Hu1)).
Defined.

(** ** [Node.calc_union_interval] *)

Lemma py_index_cases {A} (l : list A) (i : Z) (d : A) :
  ((- Z.of_nat (length l) <= i < Z.of_nat (length l))%Z
   /\ py_index l i
      = Ok (nth (Z.to_nat (if (i <? 0)%Z then i + Z.of_nat (length l) else i)%Z) l d))
  \/ (((i < - Z.of_nat (length l))%Z \/ (Z.of_nat (length l) <= i)%Z)
      /\ py_index l i = Raise IndexError).
Proof.
  unfold py_index.
  destruct (Z.ltb_spec i 0) as [Hneg|Hpos];
    match goal with
    | |- context [((0 <=? ?j) && (?j <? ?n))%Z] =>
        destruct (Z.leb_spec 0 j); destruct (Z.ltb_spec j n); cbn [andb]
    end; try (right; split; [lia | reflexivity]); left; (split; [lia|]);
    match goal with
    | |- context [nth_error l ?k] =>
        rewrite (nth_error_nth' l d (n := k)) by lia; reflexivity
    end.
Qed.

Lemma take_keys_fold (probs : list Q) (ks : list Z) : forall acc : list Q,
  (forall k, In k ks -> (0 <= k < Z.of_nat (length probs))%Z) ->
  foldM (fun acc k => p <- py_index probs k ;; Ok (acc ++ [p])) ks acc
  = Ok (acc ++ map (fun k => nth (Z.to_nat k) probs 0) ks).
Proof.
  induction ks as [|k ks IH]; intros acc H; simpl.
  - now rewrite app_nil_r.
  - destruct (py_index_cases probs k 0) as [[_ E]|[Hbad _]].
    + rewrite E. cbn [rbind].
      destruct (Z.ltb_spec k 0) as [Hneg|_].
      * pose proof (H k (or_introl eq_refl)). lia.
      * rewrite IH by (intros; apply H; right; assumption).
        now rewrite <- app_assoc.
    + pose proof (H k (or_introl eq_refl)). lia.
Qed.

Lemma take_keys_fold_raises (probs : list Q) (ks : list Z) : forall acc : list Q,
  (exists k, In k ks /\ ((k < - Z.of_nat (length probs))%Z
                         \/ (Z.of_nat (length probs) <= k)%Z)) ->
  foldM (fun acc k => p <- py_index probs k ;; Ok (acc ++ [p])) ks acc
  = Raise IndexError.
Proof.
  induction ks as [|k0 ks IH]; intros acc (k & Hin & Hbad); [destruct Hin|].
  cbn [foldM].
  destruct (py_index_cases probs k0 0) as [[Hr E]|[_ E]]; rewrite E; [|reflexivity].
  cbn [rbind]. apply IH. exists k. destruct Hin as [->|Hin]; [lia | auto].
Qed.

Lemma all_some_map_Some {A} (l : list A) : all_some (map Some l) = Some l.
Proof. induction l as [|x l IH]; simpl; [reflexivity | now rewrite IH]. Qed.

(** X18. [calc_union_interval(probs)] takes the weight of each child at the
    child's key (the action id or the hidden-state index), not at its
    position: with every key inside [probs] and every child evaluated, the
    helper receives the degenerate intervals [[V, V]] of the children and the
    weights [probs[key]], in dictionary order.  Without children, or with a
    key outside [probs], the call raises [IndexError]. *)
Theorem X18_union_interval_weights_are_taken_by_key :
  forall (IS : Type)
         (perturb_prob_simplex : list Interval -> list Q -> Q -> Interval)
         (self : Node IS) (probs : list Q),
    (children self = [] ->
     calc_union_interval perturb_prob_simplex self (Some probs) = Raise IndexError)
    /\ ((exists k, In k (keys (children self))
                   /\ ((k < - Z.of_nat (length probs))%Z
                       \/ (Z.of_nat (length probs) <= k)%Z)) ->
        calc_union_interval perturb_prob_simplex self (Some probs) = Raise IndexError)
    /\ (forall Vs : list Q,
           children self <> [] ->
           (forall k, In k (keys (children self)) ->
                      (0 <= k < Z.of_nat (length probs))%Z) ->
           get_Vc self = map Some Vs ->
           calc_union_interval perturb_prob_simplex self (Some probs)
           = Ok (perturb_prob_simplex
                   (map (fun v => (v, v)) Vs)
                   (map (fun k => nth (Z.to_nat k) probs 0) (keys (children self)))
                   Constants.EPS)).
Proof.
  intros IS perturb self probs. unfold calc_union_interval, take_keys, keys.
  cbn [opt_get rbind]. split; [|split].
  - intros ->. reflexivity.
  - intros Hbad. destruct (map fst (children self)) as [|k0 ks] eqn:Ek.
    + destruct Hbad as (k & [] & _).
    + now rewrite take_keys_fold_raises.
  - intros Vs Hne Hin HV.
    destruct (map fst (children self)) as [|k0 ks] eqn:Ek.
    + destruct (children self); [congruence | discriminate].
    + rewrite take_keys_fold by assumption. cbn [rbind app].
      rewrite HV, all_some_map_Some. reflexivity.
Qed.

Lemma X18_witness :
  exists n w n' r w' P,
    Toy.fresh_root Toy.g2 = Ok (n, w)
    /\ Toy.toy_visit 5 n w = Ok (n', r, w')
    /\ P_of n' = Some P
    /\ calc_union_interval perturb_prob_simplex_spec n' (Some P)
       = Ok (perturb_prob_simplex_spec [(1, 1); (0, 0)] [1 # 2; 1 # 2] Constants.EPS)
    /\ calc_union_interval perturb_prob_simplex_spec n' (Some [1]) = Raise IndexError.
Proof.
  destruct (Toy.fresh_root Toy.g2) as [[n w]| |] eqn:E1;
    try (vm_compute in E1; discriminate).
  destruct (Toy.toy_visit 5 n w) as [[[n' r] w']| |] eqn:E2;
    try (inversion E1; subst; vm_compute in E2; discriminate).
  destruct (P_of n') as [P|] eqn:E3;
    try (inversion E1; subst; vm_compute in E2; inversion E2; subst;
         vm_compute in E3; discriminate).
  exists n, w, n', r, w', P.
  split; [reflexivity|]. split; [exact E2|]. split; [exact E3|].
  assert (H : keys (children n') = [0%Z; 1%Z] /\ get_Vc n' = map Some [1; 0]
              /\ P = [1 # 2; 1 # 2]).
  { inversion E1; subst. vm_compute in E2. inversion E2; subst.
    vm_compute in E3. inversion E3; subst. repeat split; reflexivity. }
  destruct H as (Hk & HV & HP). split.
  - rewrite (proj2 (proj2 (X18_union_interval_weights_are_taken_by_key
                             _ perturb_prob_simplex_spec n' P)) [1; 0]).
    + rewrite Hk, HP. reflexivity.
    + intros E. unfold keys in Hk. rewrite E in Hk. discriminate.
    + rewrite Hk, HP. simpl. intros k [<-|[<-|[]]]; lia.
    + exact HV.
  - apply (proj1 (proj2 (X18_union_interval_weights_are_taken_by_key
                           _ perturb_prob_simplex_spec n' [1]))).
    exists 1%Z. rewrite Hk. simpl. split; [auto | lia].
Defined.

(** ** Children are evaluated when they are created *)

Section ChildrenEvaluated.
Context {IS : Type}.
Variable ops : InfoSetOps IS.
Variable model : Model IS.

Lemma ActionNode_init_then_eval (s : IS) (owner : option Player) (q : IntervalLike)
  (t : option (Tree IS)) (c c' : Node IS) :
  ActionNode_init ops s owner q = Ok c ->
  eval_model model (set_spawned_tree c t) = Ok c' ->
  exists V, V_of c' = Some V.
Proof.
  unfold ActionNode_init, Node_init. cbn [game_outcome].
  destruct (get_game_outcome ops s) as [o|] eqn:Eo.
  - intros E. apply rbind_ok in E. destruct E as (v & _ & E).
    inversion E; subst c; clear E.
    unfold eval_model, ActionNode_eval_model, terminal, set_spawned_tree. cbn.
    intros E; inversion E; subst c'. eexists. reflexivity.
  - intros E. inversion E; subst c; clear E.
    unfold eval_model, ActionNode_eval_model, terminal, set_spawned_tree. cbn.
    destruct (action_eval model owner s) as [[P V] Vc].
    intros E; inversion E; subst c'. eexists. reflexivity.
Qed.

Lemma set_spawned_None (c : Node IS) :
  spawned_tree_of c = None -> set_spawned_tree c None = c.
Proof.
  destruct c as [b ch [a sp|s]]; unfold spawned_tree_of, set_spawned_tree; simpl;
    [intros ->|]; reflexivity.
Qed.

Lemma SamplingNode_init_then_eval (s : IS) (owner : option Player) (q : IntervalLike)
  (c c' : Node IS) :
  SamplingNode_init ops s owner q = Ok c ->
  eval_model model c = Ok c' ->
  exists V, V_of c' = Some V.
Proof.
  unfold SamplingNode_init, Node_init.
  destruct (existsb _ _); [|discriminate].
  intros E. inversion E; subst c; clear E.
  unfold eval_model, SamplingNode_eval_model. simpl.
  destruct (hidden_eval model owner s) as [[H V] Vc].
  destruct (apply_H_mask H (get_H_mask ops s)) as [H'| |]; simpl; try discriminate.
  intros E; inversion E; subst c'. eexists. reflexivity.
Qed.

Lemma ActionNode_new_child_evaluated (self c : Node IS) (a : Action) :
  ActionNode_new_child ops model self a = Ok c -> exists V, V_of c = Some V.
Proof.
  unfold ActionNode_new_child. intros E.
  apply rbind_ok in E. destruct E as (c0 & E0 & E). simpl in E.
  apply ActionNode_construct_child_inv in E0. cbv zeta in E0.
  destruct E0 as (Vc & v & _ & _ & Hc).
  destruct (becomes_sampling ops self _).
  - destruct Hc as (Hc & _). eapply SamplingNode_init_then_eval; eauto.
  - destruct Hc as (Hc & _).
    pose proof (ActionNode_init_fresh _ _ _ _ _ Hc) as ((_ & _ & _ & _ & _ & Hsp) & _).
    eapply ActionNode_init_then_eval; [exact Hc|].
    rewrite set_spawned_None by assumption. exact E.
Qed.

Lemma SamplingNode_new_child_evaluated (self c : Node IS) (h : nat) (w w' : World) :
  SamplingNode_new_child ops model self h w = Ok (c, w') -> exists V, V_of c = Some V.
Proof.
  intros E.
  destruct (has_hidden_info ops
              (instantiate_hidden_state ops (info_set (base self)) h)) eqn:Hh.
  { exfalso. revert E. now apply SamplingNode_new_child_hidden. }
  unfold SamplingNode_new_child in E. rewrite Hh in E.
  apply mbind_ok in E. destruct E as (Vc & w1 & E1 & E).
  apply lift_ok in E1. destruct E1 as [_ ->].
  apply mbind_ok in E. destruct E as (v & w1 & E1 & E).
  apply lift_ok in E1. destruct E1 as [_ ->].
  apply mbind_ok in E. destruct E as (c0 & w1 & E1 & E).
  apply lift_ok in E1. destruct E1 as [E1 ->].
  apply mbind_ok in E. destruct E as (t & w1 & _ & E).
  apply lift_ok in E. destruct E as [E ->]. simpl in E.
  eapply ActionNode_init_then_eval; eauto.
Qed.
End ChildrenEvaluated.

(** X19. Expansion evaluates every child it creates: when
    [ActionNode.expand] or [SamplingNode.expand] completes on a node without
    children, every child has its [V] set (by the model, or by the outcome
    for a terminal child), so the values that [calc_union_interval] reads
    are never [None] on a node that the engine expanded. *)
Theorem X19_expansion_leaves_every_child_evaluated :
  forall (IS : Type) (ops : InfoSetOps IS) (model : Model IS) (self self' : Node IS)
         (w w' : World),
    children self = [] ->
    (if is_action self
     then terminal self = false /\ ActionNode_expand ops model self = Ok self' /\ w' = w
     else SamplingNode_expand ops model self w = Ok (self', w')) ->
    (forall kv, In kv (children self') -> exists V, V_of (node (snd kv)) = Some V)
    /\ exists Vs, get_Vc self' = map Some Vs.
Proof.
  intros IS ops model self self' w w' Hch E.
  assert (H : forall kv, In kv (children self') ->
                         exists V, V_of (node (snd kv)) = Some V).
  { destruct (is_action self).
    - destruct E as (Ht & E & _).
      destruct (ActionNode_expand_spec ops model _ _ Ht E)
        as (cs & V & Hcs & Hch' & _).
      rewrite Hch in Hch'. intros kv Hin. rewrite Hch' in Hin.
      apply In_add_all in Hin. destruct Hin as [[]|(c & Hc & <-)].
      pose proof (In_combine_Forall2 _ _ _ _ _ Hcs Hc) as Hn. simpl in Hn.
      eapply ActionNode_new_child_evaluated; eauto.
    - unfold SamplingNode_expand in E.
      apply mbind_ok in E. destruct E as (s1 & w1 & E1 & E).
      apply lift_ok in E1. destruct E1 as [E1 ->].
      apply mbind_ok in E. destruct E as (s2 & w2 & E2 & E).
      apply mret_ok in E. destruct E as [-> ->].
      apply SamplingNode_eval_model_from in E1. destruct E1 as (Hc1 & _).
      autorewrite with node.
      refine (mfoldM_inv (SamplingNode_expand_child ops model)
                (fun (s : Node IS) (_ : World) =>
                   forall kv, In kv (children s) ->
                              exists V, V_of (node (snd kv)) = Some V)
                _ _ s1 s2 w w2 _ E2).
      + intros b x b' wa wb _ Hb Eb. unfold SamplingNode_expand_child in Eb.
        apply mbind_ok in Eb. destruct Eb as (c & w3 & E3 & Eb).
        apply mret_ok in Eb. destruct Eb as [-> ->].
        apply SamplingNode_new_child_evaluated in E3.
        autorewrite with node. intros kv Hin. apply In_dict_set in Hin.
        destruct Hin as [->|Hin]; [exact E3 | auto].
      + rewrite Hc1, Hch. intros kv []. }
  split; [exact H|].
  unfold get_Vc. clear - H. induction (children self') as [|kv ch IH].
  - exists []. reflexivity.
  - destruct (H kv (or_introl eq_refl)) as (V & HV).
    destruct IH as (Vs & HVs); [intros; apply H; right; assumption|].
    exists (V :: Vs). simpl. f_equal; [exact HV | exact HVs].
Qed.

Lemma X19_witness :
  exists n n' w',
    Toy.sampling_node Toy.g_deal = Ok n
    /\ children n = []
    /\ SamplingNode_expand Toy.toy_ops Toy.toy_model n Toy.w0 = Ok (n', w')
    /\ get_Vc n' = [Some (1 # 2); Some (1 # 2)].
Proof.
  destruct (Toy.sampling_node Toy.g_deal) as [n| |] eqn:E1;
    try (vm_compute in E1; discriminate).
  destruct (SamplingNode_expand Toy.toy_ops Toy.toy_model n Toy.w0)
    as [[n' w']| |] eqn:E2;
    try (inversion E1; subst; vm_compute in E2; discriminate).
  assert (Hch : children n = []) by (inversion E1; reflexivity).
  assert (Hif : if is_action n
                then terminal n = false
                     /\ ActionNode_expand Toy.toy_ops Toy.toy_model n = Ok n'
                     /\ w' = Toy.w0
                else SamplingNode_expand Toy.toy_ops Toy.toy_model n Toy.w0
                     = Ok (n', w')).
  { replace (is_action n) with false by (inversion E1; reflexivity). exact E2. }
  exists n, n', w'. split; [reflexivity|]. split; [exact Hch|]. split; [exact E2|].
  destruct (X19_expansion_leaves_every_child_evaluated
              _ Toy.toy_ops Toy.toy_model n n' Toy.w0 w' Hch Hif) as (_ & Vs & HVs).
  rewrite HVs. inversion E1; subst. vm_compute in E2. inversion E2; subst.
  vm_compute in HVs. destruct Vs as [|v1 [|v2 [|v3 Vs]]]; try discriminate.
  simpl in HVs. inversion HVs; subst. reflexivity.
Defined.

(** ** More on the visit distribution and the counts *)

(** X20. For a terminal root [get_visit_distribution(n)] returns the empty
    mapping, whose fractions do not sum to one: the visits only raise
    [root.N] to [n + 1], no child is ever created, and no division takes
    place. *)
Theorem X20_terminal_root_has_the_empty_distribution :
  forall (IS : Type) (ops : InfoSetOps IS) (model : Model IS) (np_sqrt : Q -> Q)
         (perturb_prob_simplex : list Interval -> list Q -> Q -> Interval)
         (uniform : nat -> Q) (fuel loops : nat) (t : Tree IS) (n : Z) (w : World),
    is_action (root t) = true -> terminal (root t) = true ->
    children (root t) = [] ->
    let k := Z.to_nat (n + 1 - Z.of_nat (N_of (root t))) in
    (k <= loops)%nat ->
    get_visit_distribution ops model np_sqrt perturb_prob_simplex uniform
                           (S fuel) loops t n w
    = Ok ([],
          mkTree (set_base (root t) (with_N (base (root t)) (k + N_of (root t))))
                 (tree_owner_of t) (tree_id t),
          w).
Proof.
  intros IS ops model np_sqrt perturb uniform fuel loops t n w Ha Ht Hch k Hk.
  unfold get_visit_distribution, mbind.
  rewrite (visit_while_enough ops model np_sqrt perturb uniform (S fuel) n k loops
             (root t) (set_base (root t) (with_N (base (root t)) (k + N_of (root t))))
             w w).
  - autorewrite with node. rewrite Hch. reflexivity.
  - now apply visit_times_terminal.
  - unfold k. lia.
  - exact Hk.
Qed.

Lemma X20_witness :
  exists n,
    Toy.action_node Toy.win = Ok n
    /\ is_action n = true /\ terminal n = true /\ children n = []
    /\ exists n',
        Toy.toy_distribution 1 10 (mkTree n 0%Z 0%nat) 3 Toy.w0
        = Ok ([], mkTree n' 0%Z 0%nat, Toy.w0)
        /\ N_of n' = 4%nat.
Proof.
  destruct (Toy.action_node Toy.win) as [n| |] eqn:E1;
    try (vm_compute in E1; discriminate).
  assert (Ha : is_action n = true) by (inversion E1; reflexivity).
  assert (Ht : terminal n = true) by (inversion E1; reflexivity).
  assert (Hc : children n = []) by (inversion E1; reflexivity).
  assert (HN : N_of n = 0%nat) by (inversion E1; reflexivity).
  exists n. split; [reflexivity|]. split; [exact Ha|]. split; [exact Ht|].
  split; [exact Hc|].
  pose proof (X20_terminal_root_has_the_empty_distribution
                _ Toy.toy_ops Toy.toy_model Toy.sqrt6 perturb_prob_simplex_spec
                (Toy.const_uniform (1 # 3)) 0 10 (mkTree n 0%Z 0%nat) 3 Toy.w0
                Ha Ht Hc) as H.
  cbn [root tree_owner_of tree_id] in H. rewrite HN in H. simpl in H.
  exists (set_base n (with_N (base n) 4)).
  split; [apply H; simpl; lia | destruct n; reflexivity].
Defined.

(** X21. An expanded, non-terminal [ActionNode] has spent its first visit
    on the expansion and every later one on exactly one child: from
    construction on, and after any number of visits that return,
    [N = 1 + sum of the children's N] once the node is expanded, which is
    why [get_visit_distribution] divides by [N - 1]. *)
Theorem X21_ActionNode_N_is_one_more_than_the_sum_of_its_children :
  forall (IS : Type) (ops : InfoSetOps IS) (model : Model IS) (np_sqrt : Q -> Q)
         (perturb_prob_simplex : list Interval -> list Q -> Q -> Interval)
         (uniform : nat -> Q) (fuel k : nat) (self self' : Node IS) (w w' : World),
    is_action self = true -> terminal self = false -> counted self ->
    visit_times (visit ops model np_sqrt perturb_prob_simplex uniform fuel) k self w
    = Ok (self', w') ->
    NoDup (keys (children self'))
    /\ (expanded_of self' = true -> N_of self' = S (sum_child_N self'))
    /\ (expanded_of self' = false -> self' = self)
    /\ ((0 < k)%nat -> expanded_of self' = true).
Proof.
  intros IS ops model np_sqrt perturb uniform fuel k self self' w w' Ha Ht Hc E.
  cut (counted self' /\ terminal self' = false /\ is_action self' = true
       /\ (expanded_of self' = false -> self' = self)
       /\ ((0 < k)%nat -> expanded_of self' = true)).
  { intros ([H1 H2] & H3 & _ & H4 & H5). rewrite H3 in H2.
    split; [assumption|]. split; [|auto].
    intros He. now rewrite He in H2. }
  revert self w Ha Ht Hc E. induction k as [|k IH]; intros self w Ha Ht Hc E.
  - simpl in E. apply mret_ok in E. destruct E as [-> ->].
    split; [assumption|]. split; [assumption|]. split; [assumption|].
    split; [reflexivity | lia].
  - cbn [visit_times] in E. apply mbind_ok in E. destruct E as ([n1 r] & w1 & E1 & E).
    destruct (visit_counted _ _ _ _ _ _ _ _ _ _ _ Ha Hc E1) as (Hc1 & Ht1 & Ha1).
    pose proof (visit_static _ _ _ _ _ _ _ _ _ _ _ E1) as (_ & _ & _ & _ & He1 & _).
    rewrite Ha, Ht in He1. simpl in He1.
    destruct (IH n1 w1 Ha1 ltac:(congruence) Hc1 E) as (H1 & H2 & H3 & H4 & _).
    assert (He' : expanded_of self' = true).
    { destruct (expanded_of self') eqn:Ee; [reflexivity|].
      rewrite (H4 eq_refl) in Ee. congruence. }
    split; [assumption|]. split; [assumption|]. split; [assumption|].
    split; [intros Hf; congruence | auto].
Qed.

Lemma X21_witness :
  exists n w n' w',
    Toy.fresh_root Toy.g_hidden = Ok (n, w)
    /\ is_action n = true /\ terminal n = false /\ counted n
    /\ visit_times (Toy.toy_visit 10) 5 n w = Ok (n', w')
    /\ N_of n' = 5%nat /\ sum_child_N n' = 4%nat.
Proof.
  destruct (Toy.fresh_root Toy.g_hidden) as [[n w]| |] eqn:E1;
    try (vm_compute in E1; discriminate).
  destruct (visit_times (Toy.toy_visit 10) 5 n w) as [[n' w']| |] eqn:E2;
    try (inversion E1; subst; vm_compute in E2; discriminate).
  assert (Ha : is_action n = true) by (inversion E1; reflexivity).
  assert (Ht : terminal n = false) by (inversion E1; reflexivity).
  assert (Hc : counted n).
  { inversion E1; subst. split; [constructor | simpl; auto]. }
  exists n, w, n', w'. split; [reflexivity|]. split; [exact Ha|].
  split; [exact Ht|]. split; [exact Hc|]. split; [exact E2|].
  unfold Toy.toy_visit in E2.
  destruct (X21_ActionNode_N_is_one_more_than_the_sum_of_its_children
              _ _ _ _ _ _ _ _ _ _ _ _ Ha Ht Hc E2) as (_ & H2 & _ & H4).
  assert (HN : N_of n' = 5%nat).
  { inversion E1; subst. vm_compute in E2. inversion E2; subst. reflexivity. }
  split; [exact HN|].
  specialize (H2 (H4 ltac:(lia))). lia.
Defined.

(** ** The first selection below a node *)

Lemma Qle_bool_proper (a a' b b' : Q) :
  a == a' -> b == b' -> Qle_bool a b = Qle_bool a' b'.
Proof.
  intros Ha Hb.
  destruct (Qle_bool a b) eqn:E1, (Qle_bool a' b') eqn:E2; try reflexivity.
  - apply Qle_bool_iff in E1. rewrite Ha, Hb in E1.
    apply Qle_bool_iff in E1. congruence.
  - apply Qle_bool_iff in E2. rewrite <- Ha, <- Hb in E2.
    apply Qle_bool_iff in E2. congruence.
Qed.

Lemma argmax_from_proper (l l' : list Q) :
  Forall2 Qeq l l' ->
  forall (best best' : Q) (besti i : nat),
    best == best' -> argmax_from best besti i l = argmax_from best' besti i l'.
Proof.
  induction 1 as [|x x' l l' Hx Hl IH]; intros best best' besti i Hb; simpl.
  - reflexivity.
  - unfold Qltb. rewrite (Qle_bool_proper x x' best best' Hx Hb).
    destruct (negb (Qle_bool x' best')); apply IH; assumption.
Qed.

Lemma where_from_proper {A} (p p' : A -> bool) (l l' : list A) :
  Forall2 (fun x x' => p x = p' x') l l' ->
  forall i : nat, where_from p i l = where_from p' i l'.
Proof.
  induction 1 as [|x x' l l' Hx Hl IH]; intros i; simpl; [reflexivity|].
  rewrite Hx, (IH (S i)). reflexivity.
Qed.

Lemma nth_Forall2_Qeq (l l' : list Q) :
  Forall2 Qeq l l' -> forall i : nat, nth i l 0 == nth i l' 0.
Proof.
  induction 1 as [|x x' l l' Hx Hl IH]; intros [|i]; simpl;
    try reflexivity; auto.
Qed.

(** The candidate set only depends on the values of the score bounds. *)
Lemma candidates_proper (S S' : list Interval) :
  Forall2 (fun s s' : Interval => fst s == fst s' /\ snd s == snd s') S S' ->
  candidates S = candidates S'.
Proof.
  intros H.
  assert (Hf : Forall2 Qeq (map fst S) (map fst S')).
  { induction H as [|s s' S S' [Hs _] _ IH]; simpl; constructor; assumption. }
  unfold candidates, np_argmax.
  destruct Hf as [|x x' l l' Hx Hl] eqn:EHf; [reflexivity|].
  cbn [rbind].
  rewrite (argmax_from_proper l l' Hl x x' 0%nat 1%nat Hx).
  f_equal. unfold np_where. apply where_from_proper.
  assert (Hm : nth (argmax_from x' 0 1 l') (x :: l) 0
               == nth (argmax_from x' 0 1 l') (x' :: l') 0).
  { apply nth_Forall2_Qeq. constructor; assumption. }
  clear EHf.
  induction H as [|s s' S S' [_ Hs] _ IH]; constructor; [|exact IH].
  apply Qle_bool_proper; [|assumption].
  unfold Interval in *. rewrite Hm. reflexivity.
Qed.

Lemma np_sum_zero (l : list Q) : (forall x, In x l -> x == 0) -> np_sum l == 0.
Proof.
  induction l as [|x l IH]; intros H; simpl; [reflexivity|].
  rewrite (H x (or_introl eq_refl)).
  unfold np_sum in IH. rewrite IH by (intros; apply H; right; assumption).
  ring.
Qed.

Lemma scores_without_bonus (np_sqrt : Q -> Q) (sumN : Q) (Qs : list Interval) :
  np_sqrt sumN == 0 ->
  forall (P Ns : list Q),
    length P = length Qs -> length Ns = length Qs ->
    Forall2 (fun s s' : Interval => fst s == fst s' /\ snd s == snd s')
      (zip_with (fun (q : Interval) b => (fst q + b, snd q + b)) Qs
         (zip_with (fun p n => exploration_bonus np_sqrt p sumN n) P Ns))
      Qs.
Proof.
  intros Hs. induction Qs as [|q Qs IH]; intros [|p P] [|n Ns] HP HN;
    simpl in *; try discriminate; constructor.
  - unfold exploration_bonus. simpl. rewrite Hs. unfold Qdiv. split; ring.
  - apply IH; lia.
Qed.

(** X22. The first selection below a freshly expanded node ignores the
    priors: while all children have [N = 0] the exploration term
    [c_PUCT * P * sqrt(sum(N)) / (N + 1)] vanishes, so the candidates of
    [computePUCT] are those computed from the children's [Q] intervals alone,
    whatever [P] is. *)
Theorem X22_first_selection_ignores_the_priors :
  forall (IS : Type) (np_sqrt : Q -> Q) (self : Node IS) (P : list Q),
    (forall x, x == 0 -> np_sqrt x == 0) ->
    P_of self = Some P -> length P = length (children self) ->
    edges_in_order self ->
    (forall kv, In kv (children self) -> N_of (node (snd kv)) = 0%nat) ->
    computePUCT np_sqrt self
    = (idx <- candidates (get_Qc self) ;; Ok (get_Qc self, idx)).
Proof.
  intros IS np_sqrt self P Hsqrt HP Hlen Hord HN.
  rewrite (computePUCT_in_order np_sqrt self P HP Hlen Hord).
  rewrite (candidates_proper (score_intervals np_sqrt self P) (get_Qc self));
    [reflexivity|].
  unfold score_intervals. apply scores_without_bonus.
  - apply Hsqrt. apply np_sum_zero. intros x Hx.
    unfold get_Nc in Hx. apply in_map_iff in Hx. destruct Hx as (kv & <- & Hkv).
    exact (eq_ind_r (fun k => nat2q k == 0) (Qeq_refl 0 : nat2q 0 == 0) (HN kv Hkv)).
  - unfold get_Qc. now rewrite length_map.
  - unfold get_Qc, get_Nc. now rewrite !length_map.
Qed.

Lemma sqrt6_zero (x : Q) : x == 0 -> Toy.sqrt6 x == 0.
Proof. intros Hx. unfold Toy.sqrt6. rewrite Hx. reflexivity. Qed.

Lemma X22_witness :
  exists n w n' r w' P,
    Toy.fresh_root Toy.g2 = Ok (n, w)
    /\ Toy.toy_visit 5 n w = Ok (n', r, w')
    /\ P_of n' = Some P /\ length P = length (children n')
    /\ edges_in_order n'
    /\ (forall kv, In kv (children n') -> N_of (node (snd kv)) = 0%nat)
    /\ computePUCT Toy.sqrt6 n'
       = (idx <- candidates (get_Qc n') ;; Ok (get_Qc n', idx))
    /\ candidates (get_Qc n') = Ok [0%nat].
Proof.
  destruct (Toy.fresh_root Toy.g2) as [[n w]| |] eqn:E1;
    try (vm_compute in E1; discriminate).
  destruct (Toy.toy_visit 5 n w) as [[[n' r] w']| |] eqn:E2;
    try (inversion E1; subst; vm_compute in E2; discriminate).
  destruct (P_of n') as [P|] eqn:E3;
    try (inversion E1; subst; vm_compute in E2; inversion E2; subst;
         vm_compute in E3; discriminate).
  assert (H : length P = length (children n') /\ edges_in_order n'
              /\ (forall kv, In kv (children n') -> N_of (node (snd kv)) = 0%nat)
              /\ candidates (get_Qc n') = Ok [0%nat]).
  { inversion E1; subst. vm_compute in E2. inversion E2; subst.
    vm_compute in E3. inversion E3; subst.
    split; [reflexivity|]. split; [reflexivity|]. split; [|reflexivity].
    intros kv [<-|[<-|[]]]; reflexivity. }
  destruct H as (H1 & H2 & H3 & H4).
  exists n, w, n', r, w', P.
  split; [reflexivity|]. split; [exact E2|]. split; [exact E3|].
  split; [exact H1|]. split; [exact H2|]. split; [exact H3|].
  split; [|exact H4].
  exact (X22_first_selection_ignores_the_priors
           _ Toy.sqrt6 n' P sqrt6_zero E3 H1 H2 H3).
Defined.

(** ** The children of an [ActionNode] mirror the game *)

Section Mirror.
Context {IS : Type}.
Variable ops : InfoSetOps IS.
Variable model : Model IS.

Lemma ActionNode_init_identity (s : IS) (owner : option Player) (q : IntervalLike)
  (n : Node IS) :
  ActionNode_init ops s owner q = Ok n ->
  identity_of n = (s, get_current_player ops s, get_game_outcome ops s, owner).
Proof.
  unfold ActionNode_init, Node_init. cbn [game_outcome].
  destruct (get_game_outcome ops s) as [o|].
  - intros E. apply rbind_ok in E. destruct E as (v & _ & E).
    inversion E; subst n. reflexivity.
  - intros E. inversion E; subst n. reflexivity.
Qed.

Lemma SamplingNode_init_identity (s : IS) (owner : option Player) (q : IntervalLike)
  (n : Node IS) :
  SamplingNode_init ops s owner q = Ok n ->
  identity_of n = (s, get_current_player ops s, get_game_outcome ops s, owner).
Proof.
  unfold SamplingNode_init, Node_init.
  destruct (existsb _ _); [|discriminate].
  intros E. inversion E; subst n. reflexivity.
Qed.

Lemma evaluated_identity (n n' : Node IS) :
  evaluated_from n n' -> identity_of n' = identity_of n.
Proof.
  intros (_ & _ & _ & _ & _ & _ & Hb). unfold identity_of.
  destruct Hb as [->|[V ->]]; reflexivity.
Qed.

Lemma ActionNode_new_child_identity (self c : Node IS) (a : Action) :
  ActionNode_new_child ops model self a = Ok c ->
  let s' := apply ops (info_set (base self)) a in
  identity_of c
  = (s', get_current_player ops s', get_game_outcome ops s', tree_owner (base self)).
Proof.
  unfold ActionNode_new_child. intros E.
  apply rbind_ok in E. destruct E as (c0 & E0 & E). simpl in E.
  apply eval_model_from in E. rewrite (evaluated_identity _ _ E).
  apply ActionNode_construct_child_inv in E0. cbv zeta in E0.
  destruct E0 as (Vc & v & _ & _ & Hc).
  destruct (becomes_sampling ops self _); destruct Hc as (Hc & _).
  - now apply SamplingNode_init_identity in Hc.
  - now apply ActionNode_init_identity in Hc.
Qed.
End Mirror.

(** X23. The children that [ActionNode.expand] creates mirror the game:
    every key is one of the node's actions, and the child under the action
    [a] holds the state reached by [a], with that state's current player
    and outcome, and inherits the tree owner of its parent. *)
Theorem X23_children_hold_the_successor_states :
  forall (IS : Type) (ops : InfoSetOps IS) (model : Model IS) (self self' : Node IS),
    terminal self = false -> children self = [] ->
    ActionNode_expand ops model self = Ok self' ->
    forall kv, In kv (children self') ->
      let s' := apply ops (info_set (base self)) (fst kv) in
      In (fst kv) (actions_of self)
      /\ identity_of (node (snd kv))
         = (s', get_current_player ops s', get_game_outcome ops s',
            tree_owner (base self)).
Proof.
  intros IS ops model self self' Ht Hch E kv Hin s'.
  destruct (ActionNode_expand_spec ops model _ _ Ht E)
    as (cs & V & Hcs & Hch' & _).
  rewrite Hch in Hch'. rewrite Hch' in Hin.
  apply In_add_all in Hin. destruct Hin as [[]|(c & Hc & <-)].
  pose proof (In_combine_Forall2 _ _ _ _ _ Hcs Hc) as Hn. simpl in Hn.
  split.
  - apply in_combine_l in Hc. exact Hc.
  - apply ActionNode_new_child_identity in Hn. cbv zeta in Hn. rewrite Hn.
    destruct (ActionNode_eval_model_from model (set_expanded self))
      as (_ & _ & _ & _ & _ & _ & Hb).
    autorewrite with node in Hb. unfold s'.
    destruct Hb as [->|[V' ->]]; reflexivity.
Qed.

Lemma X23_witness :
  exists n n',
    Toy.action_node Toy.g_hidden = Ok n
    /\ terminal n = false /\ children n = []
    /\ ActionNode_expand Toy.toy_ops Toy.toy_model n = Ok n'
    /\ map (fun kv => cp (base (node (snd kv)))) (children n') = [1%Z; 0%Z]
    /\ forall kv, In kv (children n') ->
         info_set (base (node (snd kv))) = apply Toy.toy_ops Toy.g_hidden (fst kv).
Proof.
  destruct (Toy.action_node Toy.g_hidden) as [n| |] eqn:E1;
    try (vm_compute in E1; discriminate).
  destruct (ActionNode_expand Toy.toy_ops Toy.toy_model n) as [n'| |] eqn:E2;
    try (inversion E1; subst; vm_compute in E2; discriminate).
  assert (Ht : terminal n = false) by (inversion E1; reflexivity).
  assert (Hc : children n = []) by (inversion E1; reflexivity).
  assert (Hi : info_set (base n) = Toy.g_hidden) by (inversion E1; reflexivity).
  exists n, n'. split; [reflexivity|]. split; [exact Ht|]. split; [exact Hc|].
  split; [exact E2|]. split.
  - inversion E1; subst. vm_compute in E2. inversion E2; subst. reflexivity.
  - intros kv Hkv.
    destruct (X23_children_hold_the_successor_states
                _ Toy.toy_ops Toy.toy_model n n' Ht Hc E2 kv Hkv) as [_ H].
    unfold identity_of in H. rewrite Hi in H.
    exact (f_equal (fun x => fst (fst (fst x))) H).
Defined.
